(** * CLI To-Do List: the task store and its commands

    A shallow embedding of [main.go]: the task operations ([addTask],
    [deleteTask], [markDone], [clearTasks]), the store ([loadTasks],
    [saveTasks]) and the command dispatcher ([main]), together with the
    parts of Go's standard library they call ([strconv], [unicode/utf8],
    [time], [encoding/json], [os]).

    Conventions.
    - Go's [int] is the 64-bit two's complement integer: a [Z] with the
      wrap-around of [+] written out ([wrap64]).
    - A Go [string] is a sequence of bytes: Rocq's [string]; a [[]byte]
      is a [list ascii].
    - A slice is a [list]; a [nil] slice and an empty one are both [[]]
      (the program only ever takes [len] of them and ranges over them).
      [deleteTask] and [markDone] write into the array of the slice
      they are given; [main] keeps only the slice they return, so the
      operations are functions from the old collection to the new.
    - The library is the one of Go 1.22: [encoding/json] escapes for
      HTML, [Time.MarshalJSON] checks the year and the zone, and
      [Time.UnmarshalJSON] reads strict RFC 3339 before it falls back
      to [time.Parse]. *)

From Stdlib Require Import ZArith List String Ascii Bool Lia Sorted.
Import ListNotations.

Local Open Scope Z_scope.

(** ** Go's [int] *)

Definition MaxInt64 : Z := 9223372036854775807.
Definition MinInt64 : Z := -9223372036854775808.

Definition int64 (z : Z) : Prop := MinInt64 <= z <= MaxInt64.

Definition int64b (z : Z) : bool := (MinInt64 <=? z) && (z <=? MaxInt64).

(** The value of a 64-bit signed computation whose mathematical result
    is [z]. *)
Definition wrap64 (z : Z) : Z := (z + 2 ^ 63) mod 2 ^ 64 - 2 ^ 63.

(** ** Bytes *)

Definition byteVal (c : ascii) : Z := Z.of_N (N_of_ascii c).

Definition byteOf (z : Z) : ascii := ascii_of_N (Z.to_N z).

Definition isDigit (c : ascii) : bool :=
  (48 <=? byteVal c) && (byteVal c <=? 57).

Definition digitVal (c : ascii) : Z := byteVal c - 48.

Definition digitChar (d : Z) : ascii := byteOf (48 + d).

(** The double quote, the backslash and the white space of JSON. *)
Definition dquote : ascii := "034"%char.
Definition backslash : ascii := "092"%char.
Definition LF : ascii := "010"%char.
Definition CR : ascii := "013"%char.
Definition TAB : ascii := "009"%char.
Definition SP : ascii := " "%char.

(** [[]byte(s)] and [string(b)] *)
Definition bytes (s : string) : list ascii := list_ascii_of_string s.

Definition gostring (b : list ascii) : string := string_of_list_ascii b.

(** ** Package [unicode/utf8] *)

Module utf8.

Definition RuneError : Z := 65533.
Definition MaxRune : Z := 1114111.

(** The [first] table joined with [acceptRanges]: for a leading byte
    of a multi-byte sequence, the length of the sequence and the
    range that the second byte must lie in. *)
Definition first (p0 : Z) : option (nat * Z * Z) :=
  if (194 <=? p0) && (p0 <=? 223) then Some (2%nat, 128, 191)
  else if p0 =? 224 then Some (3%nat, 160, 191)
  else if (225 <=? p0) && (p0 <=? 236) then Some (3%nat, 128, 191)
  else if p0 =? 237 then Some (3%nat, 128, 159)
  else if (238 <=? p0) && (p0 <=? 239) then Some (3%nat, 128, 191)
  else if p0 =? 240 then Some (4%nat, 144, 191)
  else if (241 <=? p0) && (p0 <=? 243) then Some (4%nat, 128, 191)
  else if p0 =? 244 then Some (4%nat, 128, 143)
  else None.

Definition between (lo hi : Z) (c : ascii) : bool :=
  (lo <=? byteVal c) && (byteVal c <=? hi).

(** [utf8.DecodeRune(p)]: the rune and its width in bytes;
    [(RuneError, 1)] for an encoding that is invalid or cut short. *)
Definition DecodeRune (p : list ascii) : Z * nat :=
  match p with
  | [] => (RuneError, 0%nat)
  | c0 :: p1 =>
      let p0 := byteVal c0 in
      if p0 <? 128 then (p0, 1%nat) else
      match first p0, p1 with
      | Some (sz, lo, hi), c1 :: p2 =>
          if negb (between lo hi c1) then (RuneError, 1%nat) else
          let b1 := byteVal c1 in
          if (sz <=? 2)%nat then
            (Z.lor (Z.shiftl (Z.land p0 31) 6) (Z.land b1 63), 2%nat)
          else
          match p2 with
          | c2 :: p3 =>
              if negb (between 128 191 c2) then (RuneError, 1%nat) else
              let b2 := byteVal c2 in
              if (sz <=? 3)%nat then
                (Z.lor (Z.lor (Z.shiftl (Z.land p0 15) 12)
                              (Z.shiftl (Z.land b1 63) 6))
                       (Z.land b2 63), 3%nat)
              else
              match p3 with
              | c3 :: _ =>
                  if negb (between 128 191 c3) then (RuneError, 1%nat) else
                  let b3 := byteVal c3 in
                  (Z.lor (Z.lor (Z.lor (Z.shiftl (Z.land p0 7) 18)
                                       (Z.shiftl (Z.land b1 63) 12))
                                (Z.shiftl (Z.land b2 63) 6))
                         (Z.land b3 63), 4%nat)
              | [] => (RuneError, 1%nat)
              end
          | [] => (RuneError, 1%nat)
          end
      | _, _ => (RuneError, 1%nat)
      end
  end.

(** [utf8.EncodeRune]: the UTF-8 encoding of [r]; a surrogate or a
    value above [MaxRune] is encoded as [RuneError]. *)
Definition EncodeRune (r : Z) : list ascii :=
  if (0 <=? r) && (r <=? 127) then [byteOf r]
  else if (0 <=? r) && (r <=? 2047) then
    [byteOf (Z.lor 192 (Z.shiftr r 6)); byteOf (Z.lor 128 (Z.land r 63))]
  else
    let r := if (r <? 0) || (MaxRune <? r) || ((55296 <=? r) && (r <=? 57343))
             then RuneError else r in
    if r <=? 65535 then
      [byteOf (Z.lor 224 (Z.shiftr r 12));
       byteOf (Z.lor 128 (Z.land (Z.shiftr r 6) 63));
       byteOf (Z.lor 128 (Z.land r 63))]
    else
      [byteOf (Z.lor 240 (Z.shiftr r 18));
       byteOf (Z.lor 128 (Z.land (Z.shiftr r 12) 63));
       byteOf (Z.lor 128 (Z.land (Z.shiftr r 6) 63));
       byteOf (Z.lor 128 (Z.land r 63))].

(** [utf8.Valid(p)]: [p] consists of valid UTF-8 encodings only. *)
Fixpoint validLoop (fuel : nat) (p : list ascii) : bool :=
  match fuel, p with
  | _, [] => true
  | O, _ :: _ => false
  | S fuel', c0 :: rest =>
      if byteVal c0 <? 128 then validLoop fuel' rest
      else
        let (r, size) := DecodeRune p in
        if (r =? RuneError) && (size =? 1)%nat then false
        else validLoop fuel' (skipn size p)
  end.

Definition Valid (p : list ascii) : bool := validLoop (List.length p) p.

Definition ValidString (s : string) : bool := Valid (bytes s).

End utf8.

(** ** Package [strconv] *)

Module strconv.

(** The digit loop of [formatBits]: the decimal digits of [u >= 0] in
    front of [acc].  A 64-bit value has at most 20 digits. *)
Fixpoint formatDigits (fuel : nat) (u : Z) (acc : list ascii) : list ascii :=
  match fuel with
  | O => acc
  | S fuel' =>
      if u <? 10 then digitChar u :: acc
      else formatDigits fuel' (u / 10) (digitChar (u mod 10) :: acc)
  end.

(** [strconv.AppendInt(nil, i, 10)] *)
Definition FormatInt (i : Z) : list ascii :=
  if i <? 0 then "-"%char :: formatDigits 20 (- i) []
  else formatDigits 20 i [].

(** The accumulation loop of [ParseUint] in base 10: [None] on a byte
    that is not a digit. *)
Fixpoint parseDigits (s : list ascii) (acc : Z) : option Z :=
  match s with
  | [] => Some acc
  | c :: rest =>
      if isDigit c then parseDigits rest (acc * 10 + digitVal c) else None
  end.

(** [strconv.ParseInt(s, 10, 64)]: an optional sign and at least one
    digit; [None] for a syntax error and for a value out of range. *)
Definition ParseInt (s : list ascii) : option Z :=
  match s with
  | [] => None
  | c :: rest =>
      let neg := (c =? "-")%char in
      let digits := if neg || (c =? "+")%char then rest else s in
      match digits with
      | [] => None
      | _ :: _ =>
          match parseDigits digits 0 with
          | None => None
          | Some u =>
              let n := if neg then - u else u in
              if int64b n then Some n else None
          end
      end
  end.

(** [strconv.Atoi(s)] *)
Definition Atoi (s : string) : option Z := ParseInt (bytes s).

End strconv.

(** ** Package [time] *)

Module time.

(** A [Time] is an instant with nanosecond precision together with a
    location.  [sec] counts the seconds since January 1, year 1,
    00:00:00 UTC (Go's internal epoch), [nsec] the nanoseconds within
    the second, and [offset] is the number of seconds east of UTC that
    the time's location has at this instant (0 for UTC). *)
Record Time : Set := mkTime { sec : Z; nsec : Z; offset : Z }.

(** [time.Time{}] *)
Definition zero : Time := mkTime 0 0 0.

Definition IsZero (t : Time) : bool := (sec t =? 0) && (nsec t =? 0).

Definition isLeap (year : Z) : bool :=
  (year mod 4 =? 0) && (negb (year mod 100 =? 0) || (year mod 400 =? 0)).

(** [daysBefore[m]]: the number of days in a non-leap year before
    month [m+1]. *)
Definition daysBefore (m : Z) : Z :=
  match m with
  | 0 => 0 | 1 => 31 | 2 => 59 | 3 => 90 | 4 => 120 | 5 => 151
  | 6 => 181 | 7 => 212 | 8 => 243 | 9 => 273 | 10 => 304 | 11 => 334
  | _ => 365
  end.

Definition daysIn (m year : Z) : Z :=
  if (m =? 2) && isLeap year then 29
  else daysBefore m - daysBefore (m - 1).

(** Days from January 1, year 1 to January 1 of [year] in the
    proleptic Gregorian calendar.  (Go counts from an absolute year
    that is congruent to 1 modulo 400, so that all quantities are
    unsigned; the count below is the same one shifted to year 1.) *)
Definition daysSinceEpoch (year : Z) : Z :=
  let y := year - 1 in
  365 * y + y / 4 - y / 100 + y / 400.

(** [time.Date(year, month, day, hour, min, sec, nsec, loc)] for a
    location whose offset is [off] at the resulting instant. *)
Definition Date (year month day hour min s ns off : Z) : Time :=
  let m := month - 1 in
  let year := year + m / 12 in
  let m := m mod 12 in
  let d := daysSinceEpoch year + daysBefore m
           + (if isLeap year && (3 <=? m + 1) then 1 else 0)
           + (day - 1) in
  let abs := d * 86400 + hour * 3600 + min * 60 + s + ns / 1000000000 in
  mkTime (abs - off) (ns mod 1000000000) off.

(** [getnum(s, fixed = true)]: exactly two digits. *)
Definition getnum2 (s : list ascii) : option (Z * list ascii) :=
  match s with
  | a :: b :: rest =>
      if isDigit a && isDigit b
      then Some (digitVal a * 10 + digitVal b, rest)
      else None
  | _ => None
  end.

(** [skip(value, "-")] *)
Definition skipDash (s : list ascii) : option (list ascii) :=
  match s with
  | c :: rest => if (c =? "-")%char then Some rest else None
  | [] => None
  end.

(** [time.Parse("2006-01-02", value)]: [Some t] for [t, nil] and
    [None] for a parse error.  The chunks of the layout are
    [stdLongYear], ["-"], [stdZeroMonth], ["-"], [stdZeroDay]; the
    day is checked against the month once the value is consumed. *)
Definition ParseDate (value : string) : option Time :=
  match list_ascii_of_string value with
  | y1 :: y2 :: y3 :: y4 :: rest =>
      if isDigit y1 && isDigit y2 && isDigit y3 && isDigit y4 then
        let year := ((digitVal y1 * 10 + digitVal y2) * 10 + digitVal y3) * 10
                    + digitVal y4 in
        match skipDash rest with
        | None => None
        | Some rest =>
            match getnum2 rest with
            | None => None
            | Some (month, rest) =>
                if (month <=? 0) || (12 <? month) then None else
                match skipDash rest with
                | None => None
                | Some rest =>
                    match getnum2 rest with
                    | None => None
                    | Some (day, rest) =>
                        match rest with
                        | _ :: _ => None
                        | [] =>
                            if (day <? 1) || (daysIn month year <? day)
                            then None
                            else Some (Date year month day 0 0 0 0 0)
                        end
                    end
                end
            end
        end
      else None
  | _ => None
  end.

(** *** Calendar fields of an instant *)

(** [absDate]: the year and the day within the year of the day that
    is [days] days after January 1, year 1. *)
Definition absYear (days : Z) : Z * Z :=
  let n400 := days / 146097 in
  let d := days - 146097 * n400 in
  let n100 := d / 36524 in
  let n100 := n100 - Z.shiftr n100 2 in
  let d := d - 36524 * n100 in
  let n4 := d / 1461 in
  let d := d - 1461 * n4 in
  let n := d / 365 in
  let n := n - Z.shiftr n 2 in
  let d := d - 365 * n in
  (400 * n400 + 100 * n100 + 4 * n4 + n + 1, d).

(** The month and the day of the month of day [yday] of [year]. *)
Definition absMonthDay (year yday : Z) : Z * Z :=
  if isLeap year && (yday =? 59) then (2, 29) else
  let day := if isLeap year && (59 <? yday) then yday - 1 else yday in
  let month := day / 31 in
  let stop := daysBefore (month + 1) in
  if stop <=? day then (month + 2, day - stop + 1)
  else (month + 1, day - daysBefore month + 1).

(** [t.locabs()]: the seconds since year 1 of the wall clock in the
    time's location. *)
Definition locabs (t : Time) : Z := sec t + offset t.

Definition Year (t : Time) : Z := fst (absYear (locabs t / 86400)).

(** [t.Date()] *)
Definition dateOf (t : Time) : Z * Z * Z :=
  let (year, yday) := absYear (locabs t / 86400) in
  let (month, day) := absMonthDay year yday in
  (year, month, day).

(** [absClock] *)
Definition clockOf (t : Time) : Z * Z * Z :=
  let s := locabs t mod 86400 in
  let hour := s / 3600 in
  let s := s - hour * 3600 in
  let min := s / 60 in
  (hour, min, s - min * 60).

(** *** Formatting *)

Fixpoint digitsOf (fuel : nat) (u : Z) (acc : list ascii) : list ascii :=
  match fuel with
  | O => acc
  | S fuel' =>
      if u <? 10 then digitChar u :: acc
      else digitsOf fuel' (u / 10) (digitChar (u mod 10) :: acc)
  end.

(** [appendInt(b, x, width)]: [x] in decimal, zero-padded to [width]
    digits, after a minus sign when negative. *)
Definition appendInt (x : Z) (width : nat) : list ascii :=
  let ds := digitsOf 20 (Z.abs x) [] in
  (if x <? 0 then ["-"%char] else [])
    ++ repeat "0"%char (width - List.length ds) ++ ds.

(** [t.Format("2006-01-02")] *)
Definition FormatDate (t : Time) : string :=
  let '(year, month, day) := dateOf t in
  gostring (appendInt year 4 ++ "-"%char :: appendInt month 2
            ++ "-"%char :: appendInt day 2).

Fixpoint trimZeros (rev_digits : list ascii) : list ascii :=
  match rev_digits with
  | c :: rest => if (c =? "0")%char then trimZeros rest else rev_digits
  | [] => []
  end.

(** [appendNano] for the layout [.999999999]: nothing for zero
    nanoseconds, otherwise a period and nine digits without their
    trailing zeros. *)
Definition appendNano (ns : Z) : list ascii :=
  if ns =? 0 then []
  else "."%char :: rev (trimZeros (rev (appendInt ns 9))).

(** [t.appendFormatRFC3339(b, true)] *)
Definition formatRFC3339 (t : Time) : list ascii :=
  let '(year, month, day) := dateOf t in
  let '(hour, min, s) := clockOf t in
  appendInt year 4 ++ "-"%char :: appendInt month 2 ++ "-"%char
    :: appendInt day 2 ++ "T"%char :: appendInt hour 2 ++ ":"%char
    :: appendInt min 2 ++ ":"%char :: appendInt s 2
    ++ appendNano (nsec t)
    ++ (if offset t =? 0 then ["Z"%char]
        else
          let zone := Z.quot (offset t) 60 in
          (if zone <? 0 then "-"%char else "+"%char)
            :: appendInt (Z.abs zone / 60) 2
            ++ ":"%char :: appendInt (Z.abs zone mod 60) 2).

Definition byteAt (b : list ascii) (i : nat) : ascii := nth i b Ascii.zero.

(** [num2]: the value of a two-digit field. *)
Definition num2 (b : list ascii) : Z :=
  10 * digitVal (byteAt b 0) + digitVal (byteAt b 1).

(** [t.appendStrictRFC3339]: the RFC 3339 text, or [None] when the
    year does not have exactly four digits or the zone's hour is
    outside [0,23]. *)
Definition appendStrictRFC3339 (t : Time) : option (list ascii) :=
  let b := formatRFC3339 t in
  let n := List.length b in
  if negb (byteAt b 4 =? "-")%char then None
  else if negb (byteAt b (n - 1) =? "Z")%char then
    let c := byteAt b (n - 6) in
    if isDigit c || (24 <=? num2 (skipn (n - 5) b)) then None else Some b
  else Some b.

(** [t.MarshalJSON()] *)
Definition MarshalJSON (t : Time) : option (list ascii) :=
  match appendStrictRFC3339 t with
  | Some b => Some (dquote :: b ++ [dquote])
  | None => None
  end.

(** *** Parsing RFC 3339 *)

Fixpoint parseUintLoop (s : list ascii) (x : Z) : option Z :=
  match s with
  | [] => Some x
  | c :: rest =>
      if isDigit c then parseUintLoop rest (x * 10 + digitVal c) else None
  end.

(** The [parseUint] closure of [parseRFC3339]: a run of digits whose
    value lies in [[lo, hi]]. *)
Definition parseUint (s : list ascii) (lo hi : Z) : option Z :=
  match parseUintLoop s 0 with
  | Some x => if (x <? lo) || (hi <? x) then None else Some x
  | None => None
  end.

(** [s[i:j]] *)
Definition slice (s : list ascii) (i j : nat) : list ascii :=
  firstn (j - i) (skipn i s).

Fixpoint spanDigits (s : list ascii) : list ascii * list ascii :=
  match s with
  | c :: rest =>
      if isDigit c
      then let (ds, r) := spanDigits rest in (c :: ds, r)
      else ([], s)
  | [] => ([], [])
  end.

(** [parseNanoseconds]: the digits of a fraction, of which the first
    nine count. *)
Definition parseNanoseconds (digits : list ascii) : Z :=
  let ds := firstn 9 digits in
  match parseUintLoop ds 0 with
  | Some x => x * 10 ^ Z.of_nat (9 - List.length ds)
  | None => 0
  end.

Definition isChar (s : list ascii) (i : nat) (c : ascii) : bool :=
  match nth_error s i with
  | Some x => (x =? c)%char
  | None => false
  end.

(** The fractional second of [parseRFC3339]: a period and digits, when
    they are there, and what follows them. *)
Definition parseFraction (s : list ascii) : Z * list ascii :=
  match s with
  | dot :: d :: _ =>
      if (dot =? ".")%char && isDigit d
      then let (ds, r) := spanDigits (skipn 1 s) in (parseNanoseconds ds, r)
      else (0, s)
  | _ => (0, s)
  end.

(** The time zone of [parseRFC3339]: [Z], or a sign, hours and
    minutes; the offset in seconds east of UTC. *)
Definition parseZone (s : list ascii) : option Z :=
  match s with
  | [z] => if (z =? "Z")%char then Some 0 else None
  | [sign; _; _; colon; _; _] =>
      match parseUint (slice s 1 3) 0 23 with None => None | Some hr =>
      match parseUint (slice s 4 6) 0 59 with None => None | Some mm =>
      if negb (((sign =? "-") || (sign =? "+")) && (colon =? ":"))%char
      then None else
      let zoneOffset := (hr * 60 + mm) * 60 in
      Some (if (sign =? "-")%char then - zoneOffset else zoneOffset)
      end end
  | _ => None
  end.

(** [parseRFC3339(s, Local)]: [None] when [s] does not follow the
    grammar of RFC 3339.  The instant is the date and the clock read in
    UTC, moved back by the zone's offset, in a location with that
    offset. *)
Definition parseRFC3339 (s : list ascii) : option Time :=
  if (List.length s <? 19)%nat then None else
  match parseUint (slice s 0 4) 0 9999 with None => None | Some year =>
  match parseUint (slice s 5 7) 1 12 with None => None | Some month =>
  match parseUint (slice s 8 10) 1 (daysIn month year) with None => None | Some day =>
  match parseUint (slice s 11 13) 0 23 with None => None | Some hour =>
  match parseUint (slice s 14 16) 0 59 with None => None | Some min =>
  match parseUint (slice s 17 19) 0 59 with None => None | Some sc =>
  if negb (isChar s 4 "-" && isChar s 7 "-" && isChar s 10 "T"
           && isChar s 13 ":" && isChar s 16 ":") then None else
  let (ns, s) := parseFraction (skipn 19 s) in
  match parseZone s with
  | Some zoneOffset => Some (Date year month day hour min sc ns zoneOffset)
  | None => None
  end
  end end end end end end.

End time.

(** ** Package [encoding/json]: JSON texts *)

Module json.

(** A JSON value as the decoder's scanner delimits it: a number is
    kept as its literal and a string as the bytes between its quotes,
    escapes not yet interpreted. *)
#[local] Unset Elimination Schemes.
Inductive value : Set :=
| Null
| Boolean (b : bool)
| Number (lit : list ascii)
| Str (raw : list ascii)
| Array (elems : list value)
| Object (members : list (list ascii * value)).
#[local] Set Elimination Schemes.

Definition maxNestingDepth : Z := 10000.

Definition isSpace (c : ascii) : bool :=
  ((c =? SP) || (c =? TAB) || (c =? CR) || (c =? LF))%char.

Fixpoint skipSpace (s : list ascii) : list ascii :=
  match s with
  | c :: rest => if isSpace c then skipSpace rest else s
  | [] => []
  end.

Definition isHex (c : ascii) : bool :=
  isDigit c
  || ((97 <=? byteVal c) && (byteVal c <=? 102))
  || ((65 <=? byteVal c) && (byteVal c <=? 70)).

(** The escapes of one letter the scanner admits after a backslash. *)
Definition isEscape (c : ascii) : bool :=
  ((c =? "b") || (c =? "f") || (c =? "n") || (c =? "r") || (c =? "t")
   || (c =? backslash) || (c =? "/") || (c =? dquote))%char.

(** The scanner inside a string ([stateInString] and the states after
    a backslash): the bytes up to the closing quote, and what follows
    it. *)
Fixpoint scanString (s : list ascii) : option (list ascii * list ascii) :=
  match s with
  | [] => None
  | c :: rest =>
      if (c =? dquote)%char then Some ([], rest)
      else if (c =? backslash)%char then
        match rest with
        | e :: rest1 =>
            if isEscape e then
              match scanString rest1 with
              | Some (raw, r) => Some (c :: e :: raw, r)
              | None => None
              end
            else if (e =? "u")%char then
              match rest1 with
              | h1 :: h2 :: h3 :: h4 :: rest2 =>
                  if isHex h1 && isHex h2 && isHex h3 && isHex h4 then
                    match scanString rest2 with
                    | Some (raw, r) =>
                        Some (c :: e :: h1 :: h2 :: h3 :: h4 :: raw, r)
                    | None => None
                    end
                  else None
              | _ => None
              end
            else None
        | [] => None
        end
      else if byteVal c <? 32 then None
      else
        match scanString rest with
        | Some (raw, r) => Some (c :: raw, r)
        | None => None
        end
  end.

Fixpoint spanDigits (s : list ascii) : list ascii * list ascii :=
  match s with
  | c :: rest =>
      if isDigit c
      then let (ds, r) := spanDigits rest in (c :: ds, r)
      else ([], s)
  | [] => ([], [])
  end.

(** The fraction of a number ([stateDot], [stateDot0]). *)
Definition scanFrac (s : list ascii) : option (list ascii * list ascii) :=
  match s with
  | c :: rest =>
      if (c =? ".")%char then
        match spanDigits rest with
        | ([], _) => None
        | (ds, r) => Some (c :: ds, r)
        end
      else Some ([], s)
  | [] => Some ([], s)
  end.

(** The exponent of a number ([stateE], [stateESign], [stateE0]). *)
Definition scanExp (s : list ascii) : option (list ascii * list ascii) :=
  match s with
  | c :: rest =>
      if ((c =? "e") || (c =? "E"))%char then
        let (sign, rest1) :=
          match rest with
          | g :: rest' =>
              if ((g =? "+") || (g =? "-"))%char then ([g], rest') else ([], rest)
          | [] => ([], rest)
          end in
        match spanDigits rest1 with
        | ([], _) => None
        | (ds, r) => Some (c :: sign ++ ds, r)
        end
      else Some ([], s)
  | [] => Some ([], s)
  end.

(** A number literal ([stateNeg], [state0], [state1] and the states
    of the fraction and the exponent). *)
Definition scanNumber (s : list ascii) : option (list ascii * list ascii) :=
  let (sign, s1) :=
    match s with
    | c :: rest => if (c =? "-")%char then ([c], rest) else ([], s)
    | [] => ([], s)
    end in
  match s1 with
  | c :: rest =>
      if isDigit c then
        let (int, s2) :=
          if (c =? "0")%char then ([c], rest)
          else let (ds, r) := spanDigits rest in (c :: ds, r) in
        match scanFrac s2 with
        | None => None
        | Some (frac, s3) =>
            match scanExp s3 with
            | None => None
            | Some (exp, s4) => Some (sign ++ int ++ frac ++ exp, s4)
            end
        end
      else None
  | [] => None
  end.

Fixpoint stripPrefix (pre s : list ascii) : option (list ascii) :=
  match pre, s with
  | [], _ => Some s
  | p :: pre', c :: s' => if (p =? c)%char then stripPrefix pre' s' else None
  | _ :: _, [] => None
  end.

(** [true], [false] and [null]. *)
Definition scanLiteral (s : list ascii) : option (value * list ascii) :=
  match stripPrefix (bytes "true") s with
  | Some r => Some (Boolean true, r)
  | None =>
      match stripPrefix (bytes "false") s with
      | Some r => Some (Boolean false, r)
      | None =>
          match stripPrefix (bytes "null") s with
          | Some r => Some (Null, r)
          | None => None
          end
      end
  end.

Section Containers.

(** The parser of one value of the enclosing level. *)
Variable parseElem : list ascii -> option (value * list ascii).

(** The elements of an array after its first bracket, up to and
    including the closing one. *)
Fixpoint parseElements (n : nat) (s : list ascii)
  : option (list value * list ascii) :=
  match n with
  | O => None
  | S n' =>
      match parseElem s with
      | None => None
      | Some (v, r) =>
          match skipSpace r with
          | c :: r' =>
              if (c =? ",")%char then
                match parseElements n' r' with
                | Some (vs, r2) => Some (v :: vs, r2)
                | None => None
                end
              else if (c =? "]")%char then Some ([v], r')
              else None
          | [] => None
          end
      end
  end.

(** The members of an object after its opening brace, up to and
    including the closing one. *)
Fixpoint parseMembers (n : nat) (s : list ascii)
  : option (list (list ascii * value) * list ascii) :=
  match n with
  | O => None
  | S n' =>
      match skipSpace s with
      | q :: r =>
          if negb (q =? dquote)%char then None else
          match scanString r with
          | None => None
          | Some (key, r1) =>
              match skipSpace r1 with
              | colon :: r2 =>
                  if negb (colon =? ":")%char then None else
                  match parseElem r2 with
                  | None => None
                  | Some (v, r3) =>
                      match skipSpace r3 with
                      | c :: r4 =>
                          if (c =? ",")%char then
                            match parseMembers n' r4 with
                            | Some (ms, r5) => Some ((key, v) :: ms, r5)
                            | None => None
                            end
                          else if (c =? "}")%char then Some ([(key, v)], r4)
                          else None
                      | [] => None
                      end
                  end
              | [] => None
              end
          end
      | [] => None
      end
  end.

End Containers.

(** One JSON value after optional white space.  [depth] counts the
    arrays and objects that are open.  [fuel] bounds the recursion:
    [Parse] starts it above the length of the text, and every level of
    nesting and every element of a container consumes a byte. *)
Fixpoint parseValue (fuel : nat) (depth : Z) (s : list ascii)
  : option (value * list ascii) :=
  match fuel with
  | O => None
  | S fuel' =>
      match skipSpace s with
      | [] => None
      | c :: r =>
          if (c =? "[")%char then
            if maxNestingDepth <=? depth then None else
            match skipSpace r with
            | c' :: r' =>
                if (c' =? "]")%char then Some (Array [], r') else
                match parseElements (parseValue fuel' (depth + 1)) fuel' r with
                | Some (vs, r2) => Some (Array vs, r2)
                | None => None
                end
            | [] => None
            end
          else if (c =? "{")%char then
            if maxNestingDepth <=? depth then None else
            match skipSpace r with
            | c' :: r' =>
                if (c' =? "}")%char then Some (Object [], r') else
                match parseMembers (parseValue fuel' (depth + 1)) fuel' r with
                | Some (ms, r2) => Some (Object ms, r2)
                | None => None
                end
            | [] => None
            end
          else if (c =? dquote)%char then
            match scanString r with
            | Some (raw, r') => Some (Str raw, r')
            | None => None
            end
          else if (c =? "-")%char || isDigit c then
            match scanNumber (c :: r) with
            | Some (lit, r') => Some (Number lit, r')
            | None => None
            end
          else scanLiteral (c :: r)
      end
  end.

(** [checkValid] together with the scan of the decoder: the value
    that a JSON text denotes, [None] for a syntax error. *)
Definition Parse (data : list ascii) : option value :=
  match parseValue (S (List.length data)) 0 data with
  | Some (v, rest) =>
      match skipSpace rest with
      | [] => Some v
      | _ :: _ => None
      end
  | None => None
  end.

(** *** Text of a value, indented *)

(** [appendNewline(dst, "", "  ", depth)] *)
Definition newline (depth : nat) : list ascii :=
  LF :: List.concat (repeat [SP; SP] depth).

(** The text that [Indent(..., "", "  ")] makes of the compact text
    of [v], at nesting [depth]. *)
Fixpoint printIndent (depth : nat) (v : value) : list ascii :=
  match v with
  | Null => bytes "null"
  | Boolean true => bytes "true"
  | Boolean false => bytes "false"
  | Number lit => lit
  | Str raw => dquote :: raw ++ [dquote]
  | Array [] => bytes "[]"
  | Array (e :: es) =>
      "["%char :: newline (S depth) ++ printIndent (S depth) e
        ++ (fix more (es : list value) : list ascii :=
              match es with
              | [] => []
              | e' :: es' =>
                  ","%char :: newline (S depth) ++ printIndent (S depth) e'
                    ++ more es'
              end) es
        ++ newline depth ++ ["]"%char]
  | Object [] => bytes "{}"
  | Object ((k, e) :: ms) =>
      "{"%char :: newline (S depth)
        ++ dquote :: k ++ dquote :: ":"%char :: SP :: printIndent (S depth) e
        ++ (fix more (ms : list (list ascii * value)) : list ascii :=
              match ms with
              | [] => []
              | (k', e') :: ms' =>
                  ","%char :: newline (S depth)
                    ++ dquote :: k' ++ dquote :: ":"%char :: SP
                    :: printIndent (S depth) e' ++ more ms'
              end) ms
        ++ newline depth ++ ["}"%char]
  end.

(** *** Strings *)

Definition hexChar (d : Z) : ascii :=
  if d <? 10 then byteOf (48 + d) else byteOf (87 + d).

(** [htmlSafeSet]: the ASCII bytes that the encoder writes as they
    are. *)
Definition htmlSafe (c : ascii) : bool :=
  (32 <=? byteVal c) && (byteVal c <? 128)
  && negb ((c =? dquote) || (c =? backslash) || (c =? "<") || (c =? ">")
           || (c =? "&"))%char.

(** What [appendString] writes for an ASCII byte that is not safe. *)
Definition escapeByte (c : ascii) : list ascii :=
  if ((c =? backslash) || (c =? dquote))%char then [backslash; c]
  else if byteVal c =? 8 then [backslash; "b"%char]
  else if byteVal c =? 12 then [backslash; "f"%char]
  else if (c =? LF)%char then [backslash; "n"%char]
  else if (c =? CR)%char then [backslash; "r"%char]
  else if (c =? TAB)%char then [backslash; "t"%char]
  else [backslash; "u"%char; "0"%char; "0"%char;
        hexChar (Z.shiftr (byteVal c) 4); hexChar (Z.land (byteVal c) 15)].

(** The loop of [appendString(dst, src, escapeHTML = true)]: the bytes
    written between the two quotes. *)
Fixpoint quoteLoop (fuel : nat) (src : list ascii) : list ascii :=
  match fuel, src with
  | _, [] => []
  | O, _ :: _ => []
  | S fuel', b :: rest =>
      if byteVal b <? 128 then
        (if htmlSafe b then [b] else escapeByte b) ++ quoteLoop fuel' rest
      else
        let (c, size) := utf8.DecodeRune src in
        if (c =? utf8.RuneError) && (size =? 1)%nat then
          backslash :: bytes "ufffd" ++ quoteLoop fuel' rest
        else if (c =? 8232) || (c =? 8233) then
          backslash :: bytes "u202" ++ hexChar (Z.land c 15)
            :: quoteLoop fuel' (skipn size src)
        else firstn size src ++ quoteLoop fuel' (skipn size src)
  end.

Definition quote (src : list ascii) : list ascii :=
  quoteLoop (List.length src) src.

Definition hexVal (c : ascii) : option Z :=
  if isDigit c then Some (byteVal c - 48)
  else if (97 <=? byteVal c) && (byteVal c <=? 102) then Some (byteVal c - 87)
  else if (65 <=? byteVal c) && (byteVal c <=? 70) then Some (byteVal c - 55)
  else None.

(** [getu4]: the value of the four hexadecimal digits of a Unicode
    escape at the head of [s], or -1. *)
Definition getu4 (s : list ascii) : Z :=
  match s with
  | b :: u :: h1 :: h2 :: h3 :: h4 :: _ =>
      if ((b =? backslash) && (u =? "u"))%char then
        match hexVal h1, hexVal h2, hexVal h3, hexVal h4 with
        | Some v1, Some v2, Some v3, Some v4 =>
            ((v1 * 16 + v2) * 16 + v3) * 16 + v4
        | _, _, _, _ => -1
        end
      else -1
  | _ => -1
  end.

(** [utf16.IsSurrogate] *)
Definition isSurrogate (r : Z) : bool := (55296 <=? r) && (r <? 57344).

(** [utf16.DecodeRune] *)
Definition decodeSurrogates (r1 r2 : Z) : Z :=
  if (55296 <=? r1) && (r1 <? 56320) && (56320 <=? r2) && (r2 <? 57344)
  then Z.lor (Z.shiftl (r1 - 55296) 10) (r2 - 56320) + 65536
  else utf8.RuneError.

(** The loop of [unquoteBytes] on the bytes between the quotes: the
    string that a literal denotes, [None] when it is malformed.  (The
    source first copies the longest prefix that has no escape and is
    valid UTF-8; the loop below treats that prefix byte by byte, to
    the same result.) *)
Fixpoint unquoteLoop (fuel : nat) (s : list ascii) : option (list ascii) :=
  match fuel, s with
  | _, [] => Some []
  | O, _ :: _ => None
  | S fuel', c :: rest =>
      if (c =? backslash)%char then
        match rest with
        | [] => None
        | e :: rest1 =>
            let continue (out : list ascii) (s' : list ascii) :=
              match unquoteLoop fuel' s' with
              | Some t => Some (out ++ t)
              | None => None
              end in
            if ((e =? dquote) || (e =? backslash) || (e =? "/") || (e =? "'"))%char
            then continue [e] rest1
            else if (e =? "b")%char then continue [byteOf 8] rest1
            else if (e =? "f")%char then continue [byteOf 12] rest1
            else if (e =? "n")%char then continue [LF] rest1
            else if (e =? "r")%char then continue [CR] rest1
            else if (e =? "t")%char then continue [TAB] rest1
            else if (e =? "u")%char then
              let rr := getu4 s in
              if rr <? 0 then None else
              let s1 := skipn 6 s in
              if isSurrogate rr then
                let dec := decodeSurrogates rr (getu4 s1) in
                if negb (dec =? utf8.RuneError)
                then continue (utf8.EncodeRune dec) (skipn 6 s1)
                else continue (utf8.EncodeRune utf8.RuneError) s1
              else continue (utf8.EncodeRune rr) s1
            else None
        end
      else if (c =? dquote)%char || (byteVal c <? 32) then None
      else if byteVal c <? 128 then
        match unquoteLoop fuel' rest with
        | Some t => Some (c :: t)
        | None => None
        end
      else
        let (rr, size) := utf8.DecodeRune s in
        match unquoteLoop fuel' (skipn size s) with
        | Some t => Some (utf8.EncodeRune rr ++ t)
        | None => None
        end
  end.

Definition unquote (raw : list ascii) : option (list ascii) :=
  unquoteLoop (List.length raw) raw.

End json.

(** ** The task and the task operations *)

(** [type Task struct] *)
Record Task : Set := mkTask {
  ID : Z;
  Title : string;
  Done : bool;
  Deadline : time.Time
}.

(** The [for _, task := range tasks[1:]] loop of [addTask]. *)
Fixpoint maxLoop (maxID : Z) (rest : list Task) : Z :=
  match rest with
  | [] => maxID
  | task :: rest' =>
      maxLoop (if ID task >? maxID then ID task else maxID) rest'
  end.

Definition nextID (tasks : list Task) : Z :=
  match tasks with
  | [] => 1
  | t0 :: rest => wrap64 (maxLoop (ID t0) rest + 1)
  end.

Definition parseDeadline (deadline : string) : time.Time :=
  if (deadline =? "")%string then time.zero
  else match time.ParseDate deadline with
       | Some parsed => parsed
       | None => time.zero
       end.

Definition addTask (tasks : list Task) (title deadline : string)
  : list Task * Z :=
  let newID := nextID tasks in
  let dl := parseDeadline deadline in
  let newTask := mkTask newID title false dl in
  (tasks ++ [newTask], newID).

(** The [range] loop of [deleteTask]: [i] is the index of the head of
    [rest] in [tasks], and [append(tasks[:i], tasks[i+1:]...)] is the
    collection without its element [i]. *)
Fixpoint deleteLoop (tasks : list Task) (id : Z) (i : nat) (rest : list Task)
  : list Task * bool :=
  match rest with
  | [] => (tasks, false)
  | task :: rest' =>
      if ID task =? id
      then (firstn i tasks ++ skipn (S i) tasks, true)
      else deleteLoop tasks id (S i) rest'
  end.

Definition deleteTask (tasks : list Task) (id : Z) : list Task * bool :=
  deleteLoop tasks id 0%nat tasks.

Definition setDone (t : Task) : Task :=
  mkTask (ID t) (Title t) true (Deadline t).

(** [tasks[i] = v] on a slice of length above [i]. *)
Definition store (i : nat) (v : Task) (tasks : list Task) : list Task :=
  firstn i tasks ++ v :: skipn (S i) tasks.

(** The loop of [markDone]; the head of [rest] is [tasks[i]]. *)
Fixpoint markLoop (tasks : list Task) (id : Z) (i : nat) (rest : list Task)
  : list Task * bool :=
  match rest with
  | [] => (tasks, false)
  | task :: rest' =>
      if ID task =? id
      then (store i (setDone task) tasks, true)
      else markLoop tasks id (S i) rest'
  end.

Definition markDone (tasks : list Task) (id : Z) : list Task * bool :=
  markLoop tasks id 0%nat tasks.

Definition clearTasks : list Task := [].

(** A run of [add] commands on one collection: the collection after the
    last one and the identifiers handed out, in order. *)
Fixpoint addAll (tasks : list Task) (reqs : list (string * string))
  : list Task * list Z :=
  match reqs with
  | [] => (tasks, [])
  | (title, deadline) :: reqs' =>
      let (tasks', newID) := addTask tasks title deadline in
      let (final, ids) := addAll tasks' reqs' in
      (final, newID :: ids)
  end.

(** ** Errors *)

(** The [error] values the program can meet, by kind. *)
Inductive error : Set :=
| ErrNotExist          (* the file does not exist: [os.IsNotExist] holds *)
| ErrIO                (* any other failure of the file system *)
| SyntaxError          (* [*json.SyntaxError] *)
| UnmarshalTypeError   (* [*json.UnmarshalTypeError] *)
| TimeError            (* the error of [Time.UnmarshalJSON] *)
| PhaseError           (* the decoder's panic on a literal out of sync *)
| MarshalerError.      (* [*json.MarshalerError]: [Time.MarshalJSON] failed *)

(** ** Package [encoding/json]: the codec of [[]Task] *)

(** The fields of [Task], by their names in the [json] tags. *)
Inductive field : Set := fID | fTitle | fDone | fDeadline.

(** [foldName] on the ASCII letters.  A rune outside ASCII folds to an
    ASCII letter only when that letter is [K] or [S], which occur in no
    field name of [Task], so the bytes of such runes are left alone. *)
Definition foldName (key : list ascii) : list ascii :=
  map (fun c => if (97 <=? byteVal c) && (byteVal c <=? 122)
                then byteOf (byteVal c - 32) else c) key.

Definition eqBytes (a b : list ascii) : bool :=
  (gostring a =? gostring b)%string.

(** The field that a key selects: the one with that very name or,
    failing that, the one whose name is equal to it under folding. *)
Definition lookupField (key : list ascii) : option field :=
  let k := foldName key in
  if eqBytes k (bytes "ID") then Some fID
  else if eqBytes k (bytes "TITLE") then Some fTitle
  else if eqBytes k (bytes "DONE") then Some fDone
  else if eqBytes k (bytes "DEADLINE") then Some fDeadline
  else None.

Section Codec.

(** [time.Parse(time.RFC3339, s)], which [Time.UnmarshalJSON] falls
    back to for a text that is not strict RFC 3339; it accepts some
    such texts (an hour of one digit, a comma before the fraction).
    Its details are left open: nothing below depends on them. *)
Variable lenientRFC3339 : list ascii -> option time.Time.

(** [parseStrictRFC3339] *)
Definition parseStrictRFC3339 (b : list ascii) : option time.Time :=
  match time.parseRFC3339 b with
  | Some t => Some t
  | None => lenientRFC3339 b
  end.

(** The decoder's state is the first error it saved ([d.savedError]);
    a step yields a result and a state, or stops with an error. *)
Definition decoder (A : Type) : Type :=
  option error -> (A * option error) + error.

Definition ret {A} (a : A) : decoder A := fun saved => inl (a, saved).

Definition bind {A B} (m : decoder A) (k : A -> decoder B) : decoder B :=
  fun saved =>
    match m saved with
    | inl (a, saved') => k a saved'
    | inr e => inr e
    end.

(** [d.saveError(err)] and carry on with [a]. *)
Definition saveError {A} (err : error) (a : A) : decoder A :=
  fun saved =>
    inl (a, match saved with Some e => Some e | None => Some err end).

Definition abort {A} (err : error) : decoder A := fun _ => inr err.

(** A value stored into a field of kind [int]. *)
Definition decodeInt (v : json.value) (cur : Z) : decoder Z :=
  match v with
  | json.Null => ret cur
  | json.Number lit =>
      match strconv.ParseInt lit with
      | Some n => ret n
      | None => saveError UnmarshalTypeError cur
      end
  | _ => saveError UnmarshalTypeError cur
  end.

(** A value stored into a field of kind [string]. *)
Definition decodeString (v : json.value) (cur : string) : decoder string :=
  match v with
  | json.Null => ret cur
  | json.Str raw =>
      match json.unquote raw with
      | Some s => ret (gostring s)
      | None => abort PhaseError
      end
  | _ => saveError UnmarshalTypeError cur
  end.

(** A value stored into a field of kind [bool]. *)
Definition decodeBool (v : json.value) (cur : bool) : decoder bool :=
  match v with
  | json.Null => ret cur
  | json.Boolean b => ret b
  | _ => saveError UnmarshalTypeError cur
  end.

(** A value handed to the [UnmarshalJSON] method of [time.Time]. *)
Definition decodeTime (v : json.value) (cur : time.Time) : decoder time.Time :=
  match v with
  | json.Null => ret cur
  | json.Str raw =>
      match parseStrictRFC3339 raw with
      | Some t => ret t
      | None => abort TimeError
      end
  | _ => abort TimeError
  end.

(** The members of an object stored into a [Task], in their order. *)
Fixpoint decodeMembers (ms : list (list ascii * json.value)) (cur : Task)
  : decoder Task :=
  match ms with
  | [] => ret cur
  | (rawkey, v) :: ms' =>
      match json.unquote rawkey with
      | None => abort PhaseError
      | Some key =>
          bind
            (match lookupField key with
             | Some fID =>
                 bind (decodeInt v (ID cur)) (fun n =>
                 ret (mkTask n (Title cur) (Done cur) (Deadline cur)))
             | Some fTitle =>
                 bind (decodeString v (Title cur)) (fun s =>
                 ret (mkTask (ID cur) s (Done cur) (Deadline cur)))
             | Some fDone =>
                 bind (decodeBool v (Done cur)) (fun b =>
                 ret (mkTask (ID cur) (Title cur) b (Deadline cur)))
             | Some fDeadline =>
                 bind (decodeTime v (Deadline cur)) (fun t =>
                 ret (mkTask (ID cur) (Title cur) (Done cur) t))
             | None => ret cur
             end)
            (decodeMembers ms')
      end
  end.

Definition zeroTask : Task := mkTask 0 "" false time.zero.

(** A value stored into a fresh element of the slice. *)
Definition decodeTask (v : json.value) : decoder Task :=
  match v with
  | json.Null => ret zeroTask
  | json.Object ms => decodeMembers ms zeroTask
  | _ => saveError UnmarshalTypeError zeroTask
  end.

Fixpoint decodeElements (vs : list json.value) : decoder (list Task) :=
  match vs with
  | [] => ret []
  | v :: vs' =>
      bind (decodeTask v) (fun t =>
      bind (decodeElements vs') (fun ts => ret (t :: ts)))
  end.

(** A value stored into a [[]Task] that is [nil]. *)
Definition decodeTasks (v : json.value) : decoder (list Task) :=
  match v with
  | json.Null => ret []
  | json.Array vs => decodeElements vs
  | _ => saveError UnmarshalTypeError []
  end.

(** [json.Unmarshal(data, &tasks)] for [var tasks []Task]. *)
Definition Unmarshal (data : list ascii) : list Task + error :=
  match json.Parse data with
  | None => inr SyntaxError
  | Some v =>
      match decodeTasks v None with
      | inr e => inr e
      | inl (_, Some e) => inr e
      | inl (tasks, None) => inl tasks
      end
  end.

End Codec.

(** The value that the encoder writes for a [Task]: its four fields in
    the order of the declaration ([omitempty] never omits a struct, so
    the deadline is always there); [None] when [Time.MarshalJSON]
    fails. *)
Definition encodeTask (t : Task) : option json.value :=
  match time.appendStrictRFC3339 (Deadline t) with
  | None => None
  | Some b =>
      Some (json.Object
              [(bytes "id", json.Number (strconv.FormatInt (ID t)));
               (bytes "title", json.Str (json.quote (bytes (Title t))));
               (bytes "done", json.Boolean (Done t));
               (bytes "deadline", json.Str b)])
  end.

Fixpoint encodeTasks (tasks : list Task) : option (list json.value) :=
  match tasks with
  | [] => Some []
  | t :: rest =>
      match encodeTask t, encodeTasks rest with
      | Some v, Some vs => Some (v :: vs)
      | _, _ => None
      end
  end.

(** [json.MarshalIndent(tasks, "", "  ")].  (A [nil] slice would be
    written as [null]; the program never saves one.) *)
Definition MarshalIndent (tasks : list Task) : list ascii + error :=
  match encodeTasks tasks with
  | Some vs => inl (json.printIndent 0 (json.Array vs))
  | None => inr MarshalerError
  end.

(** ** Package [os]: the file [tasks.txt] *)

Module os.

Inductive file : Set :=
| Missing                        (* there is no such file *)
| Unreadable                     (* it is there and cannot be read *)
| Content (data : list ascii).

(** The working directory as far as the program sees it: the state of
    [tasks.txt], and whether writing it fails: [writeFails] is [None]
    when a write goes through, and [Some residue] when it fails and
    leaves the file in the state [residue]. *)
Record Disk : Set := mkDisk { tasks_txt : file; writeFails : option file }.

Definition ReadFile (d : Disk) : list ascii + error :=
  match tasks_txt d with
  | Missing => inr ErrNotExist
  | Unreadable => inr ErrIO
  | Content data => inl data
  end.

Definition IsNotExist (err : error) : bool :=
  match err with ErrNotExist => true | _ => false end.

Definition WriteFile (d : Disk) (data : list ascii) : Disk * option error :=
  match writeFails d with
  | None => (mkDisk (Content data) None, None)
  | Some residue => (mkDisk residue (Some residue), Some ErrIO)
  end.

End os.

(** ** The store *)

Section Program.

Variable lenientRFC3339 : list ascii -> option time.Time.

Definition loadTasks (d : os.Disk) : list Task + error :=
  match os.ReadFile d with
  | inr err => if os.IsNotExist err then inl [] else inr err
  | inl file =>
      match Unmarshal lenientRFC3339 file with
      | inr err => inr err
      | inl tasks => inl tasks
      end
  end.

Definition saveTasks (d : os.Disk) (tasks : list Task)
  : os.Disk * option error :=
  match MarshalIndent tasks with
  | inr err => (d, Some err)
  | inl data => os.WriteFile d data
  end.

(** ** The command dispatcher *)

(** What the program writes to standard output: the calls of
    [fmt.Println] and [fmt.Printf] with their arguments, in order. *)
Inductive arg : Set :=
| argS (s : string)
| argD (n : Z)
| argV (e : error).

Inductive output : Set :=
| Println (s : string)
| Printf (format : string) (args : list arg).

Definition nl : string := String LF "".

Definition green : string := String "027" "[32m".
Definition red : string := String "027" "[31m".
Definition yellow : string := String "027" "[33m".
Definition reset : string := String "027" "[0m".

Definition printUsage : list output :=
  [Println "Usage:";
   Println ("  add " ++ String dquote "task name" ++ String dquote
              " [deadline YYYY-MM-DD] - Add a new task with optional deadline");
   Println "  list                                  - List all tasks";
   Println "  delete <id>                           - Delete a task by ID";
   Println "  done <id>                             - Mark a task as done by ID";
   Println "  clear                                 - Delete all tasks"]%string.

(** The body of the loop of the [list] command. *)
Definition listLine (task : Task) : output :=
  let status := if Done task then (green ++ "Done" ++ reset)%string
                else (red ++ "Not Done" ++ reset)%string in
  let dl := if negb (time.IsZero (Deadline task))
            then (" (Deadline: " ++ time.FormatDate (Deadline task) ++ ")")%string
            else ""%string in
  Printf ("#%d: %s [%s]%s" ++ nl)
         [argD (ID task); argS (Title task); argS status; argS dl].

(** The [switch] of [main] either leaves through [os.Exit] or falls
    out of the [switch] with the collection to go on with. *)
Inductive flow : Set :=
| Exit (code : Z) (out : list output)
| Go (tasks : list Task) (out : list output).

Definition withID (Args : list string) (k : Z -> flow) : flow :=
  match Args with
  | _ :: _ :: a :: _ =>
      match strconv.Atoi a with
      | None => Exit 1 [Println "Error: ID must be a number"]
      | Some id => k id
      end
  | _ => Exit 1 (Println "Error: Task ID is required" :: printUsage)
  end.

Definition dispatch (command : string) (tasks : list Task)
  (Args : list string) : flow :=
  if (command =? "add")%string then
    match Args with
    | _ :: _ :: title :: more =>
        let deadline := match more with dl :: _ => dl | [] => ""%string end in
        let (tasks, newID) := addTask tasks title deadline in
        Go tasks [Printf ("%sAdded task #%d:%s %s" ++ nl)
                    [argS green; argD newID; argS reset; argS title]]
    | _ => Exit 1 (Println "Error: Task title is required" :: printUsage)
    end
  else if (command =? "list")%string then
    match tasks with
    | [] => Go tasks [Println (yellow ++ "No tasks found" ++ reset)]
    | _ :: _ => Go tasks (Println "Tasks:" :: map listLine tasks)
    end
  else if (command =? "delete")%string then
    withID Args (fun id =>
      let (tasks, found) := deleteTask tasks id in
      if negb found
      then Exit 1 [Printf ("Error: Task #%d not found" ++ nl) [argD id]]
      else Go tasks [Printf ("%sDeleted task #%d%s" ++ nl)
                       [argS red; argD id; argS reset]])
  else if (command =? "done")%string then
    withID Args (fun id =>
      let (tasks, found) := markDone tasks id in
      if negb found
      then Exit 1 [Printf ("Error: Task #%d not found" ++ nl) [argD id]]
      else Go tasks [Printf ("%sMarked task #%d as done%s" ++ nl)
                       [argS green; argD id; argS reset]])
  else if (command =? "clear")%string then
    Go clearTasks [Println (yellow ++ "All tasks cleared!" ++ reset)]
  else Exit 1 printUsage.

(** A run of the program: its exit status, its output, and the disk
    it leaves. *)
Record Result : Set := mkResult {
  status : Z;
  stdout : list output;
  disk : os.Disk
}.

Definition main (d : os.Disk) (Args : list string) : Result :=
  match loadTasks d with
  | inr err =>
      mkResult 1 [Printf ("Error loading tasks: %v" ++ nl) [argV err]] d
  | inl tasks =>
      match Args with
      | _ :: command :: _ =>
          match dispatch command tasks Args with
          | Exit code out => mkResult code out d
          | Go tasks out =>
              if ((command =? "add") || (command =? "delete")
                  || (command =? "done") || (command =? "clear"))%string
              then
                match saveTasks d tasks with
                | (d', Some err) =>
                    mkResult 1
                      (out ++ [Printf ("Error saving tasks: %v" ++ nl) [argV err]])
                      d'
                | (d', None) => mkResult 0 out d'
                end
              else mkResult 0 out d
          end
      | _ => mkResult 1 printUsage d
      end
  end.

End Program.

(** * Properties *)

(** ** Predicates and auxiliary functions *)

(** [m] is the largest identifier of a non-empty collection. *)
Definition isMaxID (tasks : list Task) (m : Z) : Prop :=
  (exists t, In t tasks /\ ID t = m) /\ forall t, In t tasks -> ID t <= m.

(** The collection's prior maximum: 0 when it is empty. *)
Definition priorMax (tasks : list Task) (m : Z) : Prop :=
  (tasks = [] /\ m = 0) \/ isMaxID tasks m.

(** No task of the collection has identifier [id]. *)
Definition absent (id : Z) (tasks : list Task) : Prop :=
  forall t, In t tasks -> ID t <> id.

(** A fallback parser that rejects everything, for the examples. *)
Definition strictOnly : list ascii -> option time.Time := fun _ => None.

(** The title of the task is not the empty string. *)
Definition nonEmptyTitle (t : Task) : Prop := Title t <> ""%string.

(** The value of a run of digits read from the left into [a]. *)
Definition digitsValue (ds : list ascii) (a : Z) : Z :=
  fold_left (fun x c => x * 10 + digitVal c) ds a.

(** The month and day that [absMonthDay] gives for day [yday] of [year]
    are a date of that year, and that date is day [yday]. *)
Definition monthDayOK (year yday : Z) : bool :=
  let (m, d) := time.absMonthDay year yday in
  (1 <=? m) && (m <=? 12) && (1 <=? d) && (d <=? time.daysIn m year)
  && (time.daysBefore (m - 1)
      + (if time.isLeap year && (3 <=? m) then 1 else 0) + (d - 1) =? yday).

(** [P] holds on the [n] integers from [lo] on. *)
Fixpoint checkFrom (P : Z -> bool) (n : nat) (lo : Z) : bool :=
  match n with
  | O => true
  | S n' => P lo && checkFrom P n' (lo + 1)
  end.

(** Equality of byte sequences, as a boolean. *)
Definition sameBytes (a b : list ascii) : bool :=
  if list_eq_dec ascii_dec a b then true else false.

(** The two digits, and the four digits, of a field of a time. *)
Definition field2 (x : Z) : list ascii :=
  [digitChar (x / 10); digitChar (x mod 10)].

Definition field4 (x : Z) : list ascii :=
  [digitChar (x / 1000); digitChar (x / 100 mod 10);
   digitChar (x / 10 mod 10); digitChar (x mod 10)].

(** A byte that may stand in a JSON string as it is. *)
Definition plain (c : ascii) : Prop :=
  c <> dquote /\ c <> backslash /\ 32 <= byteVal c.

(** The zone as [formatRFC3339] writes it. *)
Definition zoneText (off : Z) : list ascii :=
  if off =? 0 then ["Z"%char]
  else
    let zone := Z.quot off 60 in
    (if zone <? 0 then "-"%char else "+"%char)
      :: time.appendInt (Z.abs zone / 60) 2
      ++ ":"%char :: time.appendInt (Z.abs zone mod 60) 2.

(** A time that [Time.MarshalJSON] can write and [Time.UnmarshalJSON]
    reads back: it has a year of four digits and a zone of whole
    minutes less than a day from UTC. *)
Definition marshalable (t : time.Time) : Prop :=
  0 <= time.nsec t < 1000000000
  /\ 0 <= time.Year t <= 9999
  /\ time.offset t mod 60 = 0
  /\ -86400 < time.offset t < 86400.

(** The first nineteen bytes of an RFC 3339 text: date, [T], clock. *)
Definition dateTimeText (year month day hour min s : Z) : list ascii :=
  field4 year ++ "-"%char :: field2 month ++ "-"%char :: field2 day
    ++ "T"%char :: field2 hour ++ ":"%char :: field2 min
    ++ ":"%char :: field2 s.

(** Side conditions of the lemmas on bit fields. *)
Ltac field_side := try reflexivity; lia.

(** Splits an equation between pairs into its two components, without
    reducing them. *)
Ltac pair_eq H :=
  let Hr := fresh in let Hs := fresh in
  pose proof (f_equal fst H) as Hr; pose proof (f_equal snd H) as Hs;
  cbv beta iota delta [fst snd] in Hr, Hs; subst; clear H.

(** What the encoder writes for one ASCII byte. *)
Definition quoteByte (b : ascii) : list ascii :=
  if json.htmlSafe b then [b] else json.escapeByte b.

(** What may follow a value in the encoder's text: a comma or the line
    feed before a closing bracket. *)
Definition delimited (tail : list ascii) : Prop :=
  exists c r, tail = c :: r /\ (c = ","%char \/ c = LF).

(** A task that the store writes and reads back unchanged: its
    identifier is an [int], its title is valid UTF-8, and its deadline
    is marshalable. *)
Definition storable (t : Task) : Prop :=
  int64 (ID t)
  /\ utf8.ValidString (Title t) = true
  /\ marshalable (Deadline t).

(** The value the encoder writes for a task. *)
Definition taskValue (t : Task) : json.value :=
  json.Object
    [(bytes "id", json.Number (strconv.FormatInt (ID t)));
     (bytes "title", json.Str (json.quote (bytes (Title t))));
     (bytes "done", json.Boolean (Done t));
     (bytes "deadline", json.Str (time.formatRFC3339 (Deadline t)))].

(** The elements after the first of an array in the encoder's text. *)
Fixpoint moreElements (depth : nat) (es : list json.value) : list ascii :=
  match es with
  | [] => []
  | e :: es' =>
      ","%char :: json.newline depth ++ json.printIndent depth e
        ++ moreElements depth es'
  end.

(** A title of one byte, 0xFF, which is not valid UTF-8. *)
Definition invalidTitle : string := String "255" "".

(** *** Auxiliary definitions for the further properties *)

(** The collection without its first task with identifier [id]. *)
Fixpoint removeFirst (id : Z) (tasks : list Task) : list Task :=
  match tasks with
  | [] => []
  | t :: rest => if ID t =? id then rest else t :: removeFirst id rest
  end.

(** The collection with its first task with identifier [id] set done. *)
Fixpoint markFirst (id : Z) (tasks : list Task) : list Task :=
  match tasks with
  | [] => []
  | t :: rest =>
      if ID t =? id then setDone t :: rest else t :: markFirst id rest
  end.

(** The tasks with identifier [id], in their order. *)
Definition withIdent (id : Z) (tasks : list Task) : list Task :=
  filter (fun t => ID t =? id) tasks.

(** The tasks with another identifier than [id], in their order. *)
Definition withoutIdent (id : Z) (tasks : list Task) : list Task :=
  filter (fun t => negb (ID t =? id)) tasks.

(** Every identifier is an [int] below the largest one. *)
Definition belowMax (tasks : list Task) : Prop :=
  forall t, In t tasks -> MinInt64 <= ID t < MaxInt64.

(** The number of days of a year. *)
Definition yearLength (year : Z) : Z := if time.isLeap year then 366 else 365.

(** A day of the calendar in a year of four digits. *)
Definition validDate (year month day : Z) : Prop :=
  0 <= year <= 9999 /\ 1 <= month <= 12 /\ 1 <= day <= time.daysIn month year.

(** The text [YYYY-MM-DD] of a date. *)
Definition dateText (year month day : Z) : string :=
  gostring (field4 year ++ "-"%char :: field2 month ++ "-"%char :: field2 day).

(** The day within the year of a day of a month. *)
Definition yearDay (year month day : Z) : Z :=
  time.daysBefore (month - 1)
  + (if time.isLeap year && (3 <=? month) then 1 else 0) + (day - 1).

(** [absMonthDay] gives back the month and the day whose code is [md]
    (32 codes to a month), when that is a day of the month. *)
Definition dayOK (year md : Z) : bool :=
  let m := md / 32 + 1 in
  let d := md mod 32 in
  if (1 <=? d) && (d <=? time.daysIn m year) then
    let yd := yearDay year m d in
    let (m', d') := time.absMonthDay year yd in
    (0 <=? yd) && (yd <? yearLength year) && (m' =? m) && (d' =? d)
  else true.

(** The disk after a write of [data] that went through. *)
Definition written (data : list ascii) : os.Disk :=
  os.mkDisk (os.Content data) None.

(** The line that [add] prints. *)
Definition addedLine (id : Z) (title : string) : output :=
  Printf ("%sAdded task #%d:%s %s" ++ nl)
    [argS green; argD id; argS reset; argS title].

(** The line that [delete] and [done] print for an identifier that no
    task has. *)
Definition notFoundLine (id : Z) : output :=
  Printf ("Error: Task #%d not found" ++ nl) [argD id].

(** The value of a run of digits after an optional sign. *)
Definition signedValue (sign digits : list ascii) : Z :=
  match sign with
  | c :: _ => if (c =? "-")%char then - digitsValue digits 0
              else digitsValue digits 0
  | [] => digitsValue digits 0
  end.

(** The commands that [main] knows. *)
Definition knownCommands : list string :=
  ["add"; "list"; "delete"; "done"; "clear"]%string.

(** The commands after which [main] saves the collection. *)
Definition savingCommands : list string :=
  ["add"; "delete"; "done"; "clear"]%string.

(** The bytes of [p] with every byte that is not part of a valid UTF-8
    encoding replaced by the encoding of U+FFFD. *)
Fixpoint replaceLoop (fuel : nat) (p : list ascii) : list ascii :=
  match fuel, p with
  | _, [] => []
  | O, _ :: _ => []
  | S fuel', c0 :: rest =>
      if byteVal c0 <? 128 then c0 :: replaceLoop fuel' rest
      else
        let (r, size) := utf8.DecodeRune p in
        if (r =? utf8.RuneError) && (size =? 1)%nat
        then utf8.EncodeRune utf8.RuneError ++ replaceLoop fuel' rest
        else firstn size p ++ replaceLoop fuel' (skipn size p)
  end.

Definition replaceInvalid (p : list ascii) : list ascii :=
  replaceLoop (List.length p) p.

(** A task that the store can write: its identifier is an [int] and
    its deadline is marshalable. *)
Definition savable (t : Task) : Prop :=
  int64 (ID t) /\ marshalable (Deadline t).

(** The task as it is read back from the store. *)
Definition asLoaded (t : Task) : Task :=
  mkTask (ID t) (gostring (replaceInvalid (bytes (Title t)))) (Done t)
    (Deadline t).

(** Valid UTF-8, whatever the fuel above the length. *)
Definition wellFormed (p : list ascii) : Prop :=
  forall f, (List.length p <= f)%nat -> utf8.validLoop f p = true.

(** A rune that has an encoding of its own. *)
Definition validRune (r : Z) : Prop :=
  0 <= r <= utf8.MaxRune /\ ~ (55296 <= r <= 57343).

(** A task as [loadTasks] returns it when the fallback parser is
    [lenient]: its identifier is an [int], its title is valid UTF-8,
    and its deadline is marshalable unless it is a time that the
    fallback parser gave for a text that is not strict RFC 3339. *)
Definition wellLoaded (lenient : list ascii -> option time.Time) (t : Task)
  : Prop :=
  int64 (ID t)
  /\ utf8.ValidString (Title t) = true
  /\ (marshalable (Deadline t)
      \/ exists raw, time.parseRFC3339 raw = None
                     /\ lenient raw = Some (Deadline t)).

(** A text with a zone of [+24:00], which strict RFC 3339 rejects and
    [time.Parse] accepts, and a fallback parser that accepts this text
    alone, as [time.Parse] does: midnight of the day in a zone a whole
    day east of UTC. *)
Definition dayZoneText : list ascii := bytes "2024-01-01T00:00:00+24:00".

Definition dayZoneOnly (raw : list ascii) : option time.Time :=
  if sameBytes raw dayZoneText
  then Some (time.Date 2024 1 1 0 0 0 0 86400)
  else None.

(** A store of one task, with [dayZoneText] for its deadline. *)
Definition dayZoneDisk : os.Disk :=
  os.mkDisk
    (os.Content
       (bytes "[{" ++ dquote :: bytes "deadline" ++ dquote :: ":"%char
          :: dquote :: dayZoneText ++ dquote :: bytes "}]"))
    None.

(** ** Lemmas on the library models *)

(** ** Bytes and digits *)

Lemma byteVal_range c : 0 <= byteVal c < 256.
Proof.
  unfold byteVal. pose proof (N_ascii_bounded c) as H. lia.
Qed.

Lemma byteOf_byteVal c : byteOf (byteVal c) = c.
Proof. unfold byteOf, byteVal. rewrite N2Z.id. apply ascii_N_embedding. Qed.

Lemma byteVal_byteOf z : 0 <= z < 256 -> byteVal (byteOf z) = z.
Proof.
  intros H. unfold byteOf, byteVal. rewrite N_ascii_embedding; lia.
Qed.

Lemma byteVal_inj a b : byteVal a = byteVal b -> a = b.
Proof. intros H. rewrite <- (byteOf_byteVal a), H. apply byteOf_byteVal. Qed.

Lemma isDigit_digitChar d : 0 <= d <= 9 -> isDigit (digitChar d) = true.
Proof.
  intros H. unfold isDigit, digitChar. rewrite byteVal_byteOf by lia. lia.
Qed.

Lemma digitVal_digitChar d : 0 <= d <= 9 -> digitVal (digitChar d) = d.
Proof.
  intros H. unfold digitVal, digitChar. rewrite byteVal_byteOf by lia. lia.
Qed.

Lemma digitsValue_app ds1 ds2 a :
  digitsValue (ds1 ++ ds2) a = digitsValue ds2 (digitsValue ds1 a).
Proof. apply fold_left_app. Qed.

Lemma parseDigits_value ds : forall a,
  Forall (fun c => isDigit c = true) ds ->
  strconv.parseDigits ds a = Some (digitsValue ds a).
Proof.
  induction ds as [|c ds IH]; intros a Hds; simpl; [reflexivity|].
  inversion Hds as [|? ? Hc Hrest]; subst. rewrite Hc. now apply IH.
Qed.

(** The digits that [formatDigits] puts in front of [acc]: a non-empty
    run of at most [k] digits with value [u], whose first digit is not
    [0] unless [u] is. *)
Lemma formatDigits_spec fuel : forall u acc k,
  0 <= u < 10 ^ Z.of_nat k -> (1 <= k <= fuel)%nat ->
  exists d ds,
    strconv.formatDigits fuel u acc = d :: ds ++ acc
    /\ Forall (fun c => isDigit c = true) (d :: ds)
    /\ (List.length (d :: ds) <= k)%nat
    /\ (forall a, digitsValue (d :: ds) a
                  = a * 10 ^ Z.of_nat (List.length (d :: ds)) + u)
    /\ (0 < u -> d <> "0"%char)
    /\ (u = 0 -> ds = []).
Proof.
  induction fuel as [|fuel IH]; intros u acc k Hu Hk; [lia|].
  cbn [strconv.formatDigits]. destruct (Z.ltb_spec u 10) as [Hlt|Hge].
  - exists (digitChar u), []. repeat split.
    + repeat constructor. apply isDigit_digitChar. lia.
    + simpl. lia.
    + intros a. unfold digitsValue. simpl. rewrite digitVal_digitChar by lia. lia.
    + intros Hpos Heq. apply (f_equal digitVal) in Heq.
      rewrite digitVal_digitChar in Heq by lia.
      change (digitVal "0") with 0 in Heq. lia.
  - destruct k as [|[|k]]; [lia| simpl in Hu; lia |].
    assert (Hpow : 10 ^ Z.of_nat (S (S k)) = 10 * 10 ^ Z.of_nat (S k)).
    { rewrite (Nat2Z.inj_succ (S k)), Z.pow_succ_r by lia. reflexivity. }
    destruct (IH (u / 10) (digitChar (u mod 10) :: acc) (S k))
      as (d & ds & Heq & Hdig & Hlen & Hval & Hnz & _).
    { split; [apply Z.div_pos; lia|].
      apply Z.div_lt_upper_bound; lia. }
    { lia. }
    exists d, (ds ++ [digitChar (u mod 10)]). repeat split.
    + rewrite Heq. now rewrite <- app_assoc.
    + rewrite app_comm_cons. apply Forall_app. split; [exact Hdig|].
      repeat constructor. apply isDigit_digitChar.
      pose proof (Z.mod_pos_bound u 10). lia.
    + rewrite app_comm_cons, length_app. simpl in *. lia.
    + intros a. rewrite app_comm_cons, digitsValue_app, Hval.
      change (digitsValue [digitChar (u mod 10)] ?x)
        with (x * 10 + digitVal (digitChar (u mod 10))).
      rewrite digitVal_digitChar by (pose proof (Z.mod_pos_bound u 10); lia).
      rewrite length_app. change (List.length [digitChar (u mod 10)]) with 1%nat.
      assert (Hp : 10 ^ Z.of_nat (List.length (d :: ds) + 1)
                   = 10 * 10 ^ Z.of_nat (List.length (d :: ds))).
      { rewrite Nat2Z.inj_add, Z.pow_add_r by lia. change (10 ^ Z.of_nat 1) with 10. lia. }
      rewrite Hp. pose proof (Z.div_mod u 10). lia.
    + intros _. apply Hnz. apply Z.div_str_pos. lia.
    + lia.
Qed.

Lemma int64b_true n : int64 n -> int64b n = true.
Proof. unfold int64, int64b. intros H. apply andb_true_iff. lia. Qed.

Lemma MaxInt64_digits : MaxInt64 + 1 < 10 ^ Z.of_nat 20.
Proof. reflexivity. Qed.

(** [FormatInt] writes an optional minus sign and a run of digits that
    [ParseInt] reads back. *)
Lemma FormatInt_shape n :
  int64 n ->
  exists sign d ds,
    strconv.FormatInt n = sign ++ d :: ds
    /\ (sign = [] \/ sign = ["-"%char])
    /\ Forall (fun c => isDigit c = true) (d :: ds)
    /\ (d = "0"%char -> ds = [])
    /\ strconv.ParseInt (strconv.FormatInt n) = Some n.
Proof.
  intros Hn. pose proof MaxInt64_digits as Hmax. unfold int64, MinInt64 in *.
  unfold strconv.FormatInt. destruct (Z.ltb_spec n 0) as [Hneg|Hpos].
  - destruct (formatDigits_spec 20 (- n) [] 20)
      as (d & ds & Heq & Hdig & Hlen & Hval & Hnz & _); [lia|lia|].
    rewrite app_nil_r in Heq. rewrite Heq.
    exists ["-"%char], d, ds. repeat split; auto.
    + intros H0. exfalso. apply Hnz; [lia|exact H0].
    + cbn [strconv.ParseInt]. change ("-" =? "-")%char with true. cbn [orb].
      rewrite (parseDigits_value _ _ Hdig), Hval.
      rewrite Z.mul_0_l, Z.add_0_l, Z.opp_involutive, int64b_true; [reflexivity|].
      unfold int64, MinInt64. lia.
  - destruct (formatDigits_spec 20 n [] 20)
      as (d & ds & Heq & Hdig & Hlen & Hval & Hnz & Hz); [lia|lia|].
    rewrite app_nil_r in Heq. rewrite Heq.
    exists [], d, ds. repeat split; auto.
    + intros H0. apply Hz. destruct (Z.eq_dec n 0); [assumption|].
      exfalso. apply Hnz; [lia|exact H0].
    + cbn [strconv.ParseInt].
      inversion Hdig as [|? ? Hd _]; subst.
      assert (Hm : (d =? "-")%char = false).
      { destruct (Ascii.eqb_spec d "-"); [subst; discriminate|reflexivity]. }
      assert (Hp : (d =? "+")%char = false).
      { destruct (Ascii.eqb_spec d "+"); [subst; discriminate|reflexivity]. }
      rewrite Hm, Hp. cbn [orb].
      rewrite (parseDigits_value _ _ Hdig), Hval.
      rewrite Z.mul_0_l, Z.add_0_l, int64b_true; [reflexivity|].
      unfold int64, MinInt64. lia.
Qed.

(** ** The calendar *)

Lemma absYear_spec days :
  days = time.daysSinceEpoch (fst (time.absYear days)) + snd (time.absYear days)
  /\ 0 <= snd (time.absYear days)
       < (if time.isLeap (fst (time.absYear days)) then 366 else 365).
Proof.
  unfold time.absYear, time.daysSinceEpoch, time.isLeap. cbn [fst snd].
  rewrite !Z.shiftr_div_pow2 by lia. change (2 ^ 2) with 4.
  set (n400 := days / 146097).
  set (d0 := days - 146097 * n400).
  assert (H0 : 0 <= d0 < 146097).
  { subst d0 n400. pose proof (Z.div_mod days 146097).
    pose proof (Z.mod_pos_bound days 146097). lia. }
  set (q100 := d0 / 36524).
  assert (Hq100 : 0 <= q100 <= 4 /\ 36524 * q100 <= d0 < 36524 * q100 + 36524).
  { subst q100. pose proof (Z.div_mod d0 36524).
    pose proof (Z.mod_pos_bound d0 36524). lia. }
  set (n100 := q100 - q100 / 4).
  assert (Hn100 : (q100 = 4 /\ n100 = 3) \/ (q100 <= 3 /\ n100 = q100)).
  { subst n100. assert (q100 = 0 \/ q100 = 1 \/ q100 = 2 \/ q100 = 3 \/ q100 = 4) by lia.
    destruct H as [->|[->|[->|[->| ->]]]]; cbn; lia. }
  set (d1 := d0 - 36524 * n100).
  assert (H1 : 0 <= d1 <= 36524 /\ (d1 = 36524 -> n100 = 3)) by lia.
  set (n4 := d1 / 1461).
  assert (Hn4 : 0 <= n4 <= 24 /\ 1461 * n4 <= d1 < 1461 * n4 + 1461).
  { subst n4. pose proof (Z.div_mod d1 1461).
    pose proof (Z.mod_pos_bound d1 1461). lia. }
  set (d2 := d1 - 1461 * n4).
  set (q := d2 / 365).
  assert (Hq : 0 <= q <= 4 /\ 365 * q <= d2 < 365 * q + 365).
  { subst q. pose proof (Z.div_mod d2 365).
    pose proof (Z.mod_pos_bound d2 365). lia. }
  set (n := q - q / 4).
  assert (Hn : (q = 4 /\ n = 3) \/ (q <= 3 /\ n = q)).
  { subst n. assert (q = 0 \/ q = 1 \/ q = 2 \/ q = 3 \/ q = 4) by lia.
    destruct H as [->|[->|[->|[->| ->]]]]; cbn; lia. }
  set (Y := 400 * n400 + 100 * n100 + 4 * n4 + n).
  replace (400 * n400 + 100 * n100 + 4 * n4 + n + 1) with (Y + 1) by lia.
  assert (HY4 : Y / 4 = 100 * n400 + 25 * n100 + n4).
  { symmetry. apply (Z.div_unique Y 4 _ n); lia. }
  assert (HY100 : Y / 100 = 4 * n400 + n100).
  { symmetry. apply (Z.div_unique Y 100 _ (4 * n4 + n)); lia. }
  assert (HY400 : Y / 400 = n400).
  { symmetry. apply (Z.div_unique Y 400 _ (100 * n100 + 4 * n4 + n)); lia. }
  replace (Y + 1 - 1) with Y by lia.
  rewrite HY4, HY100, HY400.
  split; [lia|].
  assert (Hm4 : (Y + 1) mod 4 = (n + 1) mod 4).
  { replace (Y + 1) with (n + 1 + (100 * n400 + 25 * n100 + n4) * 4) by lia.
    apply Z.mod_add. lia. }
  assert (Hm100 : (Y + 1) mod 100 = (4 * n4 + n + 1) mod 100).
  { replace (Y + 1) with (4 * n4 + n + 1 + (4 * n400 + n100) * 100) by lia.
    apply Z.mod_add. lia. }
  assert (Hm400 : (Y + 1) mod 400 = (100 * n100 + 4 * n4 + n + 1) mod 400).
  { replace (Y + 1) with (100 * n100 + 4 * n4 + n + 1 + n400 * 400) by lia.
    apply Z.mod_add. lia. }
  rewrite Hm4, Hm100, Hm400.
  destruct (Z.eq_dec n 3) as [Hn3|Hn3].
  - rewrite Hn3. change ((3 + 1) mod 4 =? 0) with true. cbn [andb].
    destruct (Z.eq_dec n4 24) as [H24|H24].
    + rewrite H24. change ((4 * 24 + 3 + 1) mod 100 =? 0) with true. cbn [negb orb].
      destruct (Z.eq_dec n100 3) as [H3|H3].
      * rewrite H3. change ((100 * 3 + 4 * 24 + 3 + 1) mod 400 =? 0) with true. lia.
      * replace ((100 * n100 + 4 * 24 + 3 + 1) mod 400 =? 0) with false; [lia|].
        symmetry. apply Z.eqb_neq. rewrite Z.mod_small; lia.
    + replace ((4 * n4 + 3 + 1) mod 100 =? 0) with false; [cbn [negb orb]; lia|].
      symmetry. apply Z.eqb_neq. rewrite Z.mod_small; lia.
  - replace ((n + 1) mod 4 =? 0) with false; [cbn [andb]; lia|].
    symmetry. apply Z.eqb_neq. rewrite Z.mod_small; lia.
Qed.

(** A property checked on every integer of an initial segment. *)
Lemma forall_below (P : Z -> bool) (n : nat) :
  forallb P (map Z.of_nat (seq 0 n)) = true ->
  forall x, 0 <= x < Z.of_nat n -> P x = true.
Proof.
  intros H x Hx. rewrite forallb_forall in H. apply H.
  apply in_map_iff. exists (Z.to_nat x). split; [lia|].
  apply in_seq. lia.
Qed.

Lemma absMonthDay_leap year yday :
  time.absMonthDay year yday
  = time.absMonthDay (if time.isLeap year then 4 else 1) yday.
Proof. unfold time.absMonthDay. now destruct (time.isLeap year). Qed.

Lemma daysIn_leap m year :
  time.daysIn m year = time.daysIn m (if time.isLeap year then 4 else 1).
Proof. unfold time.daysIn. now destruct (time.isLeap year). Qed.

Lemma absMonthDay_spec year yday :
  0 <= yday < (if time.isLeap year then 366 else 365) ->
  let (m, d) := time.absMonthDay year yday in
  1 <= m <= 12 /\ 1 <= d <= time.daysIn m year
  /\ time.daysBefore (m - 1)
     + (if time.isLeap year && (3 <=? m) then 1 else 0) + (d - 1) = yday.
Proof.
  intros H.
  assert (Hok : monthDayOK (if time.isLeap year then 4 else 1) yday = true).
  { destruct (time.isLeap year).
    - apply (forall_below (monthDayOK 4) 366); [vm_compute; reflexivity|lia].
    - apply (forall_below (monthDayOK 1) 365); [vm_compute; reflexivity|lia]. }
  unfold monthDayOK in Hok.
  rewrite <- absMonthDay_leap in Hok.
  destruct (time.absMonthDay year yday) as [m d].
  rewrite <- daysIn_leap in Hok.
  assert (Hl : time.isLeap (if time.isLeap year then 4 else 1) = time.isLeap year)
    by now destruct (time.isLeap year).
  rewrite Hl in Hok.
  repeat (apply andb_true_iff in Hok; destruct Hok as [Hok ?]).
  lia.
Qed.

(** [Date] inverts [dateOf] and [clockOf]: the fields of an instant
    give the instant back. *)
Lemma Date_fields (t : time.Time) :
  0 <= time.nsec t < 1000000000 ->
  let '(year, month, day) := time.dateOf t in
  let '(hour, min, s) := time.clockOf t in
  time.Date year month day hour min s (time.nsec t) (time.offset t) = t
  /\ 1 <= month <= 12 /\ 1 <= day <= time.daysIn month year
  /\ 0 <= hour <= 23 /\ 0 <= min <= 59 /\ 0 <= s <= 59
  /\ year = time.Year t.
Proof.
  intros Hns. unfold time.dateOf, time.clockOf, time.Year.
  set (abs := time.locabs t).
  pose proof (absYear_spec (abs / 86400)) as [Hd Hy].
  destruct (time.absYear (abs / 86400)) as [year yday]. cbn [fst snd] in *.
  pose proof (absMonthDay_spec year yday Hy) as Hmd.
  destruct (time.absMonthDay year yday) as [month day].
  destruct Hmd as (Hm & Hday & Hyd).
  pose proof (Z.div_mod abs 86400 ltac:(lia)) as Habs.
  pose proof (Z.mod_pos_bound abs 86400 ltac:(lia)) as Hs.
  set (s0 := abs mod 86400) in *.
  pose proof (Z.div_mod s0 3600 ltac:(lia)) as Hh.
  pose proof (Z.mod_pos_bound s0 3600 ltac:(lia)) as Hh'.
  assert (Hhour : 0 <= s0 / 3600 <= 23).
  { split; [apply Z.div_pos; lia|]. apply Z.lt_succ_r. apply Z.div_lt_upper_bound; lia. }
  set (hour := s0 / 3600) in *.
  set (s1 := s0 - hour * 3600).
  assert (Hs1 : 0 <= s1 < 3600) by (subst s1; lia).
  pose proof (Z.div_mod s1 60 ltac:(lia)) as Hmi.
  pose proof (Z.mod_pos_bound s1 60 ltac:(lia)) as Hmi'.
  assert (Hmin : 0 <= s1 / 60 <= 59).
  { split; [apply Z.div_pos; lia|]. apply Z.lt_succ_r. apply Z.div_lt_upper_bound; lia. }
  set (min := s1 / 60) in *.
  split; [|repeat split; lia].
  unfold time.Date.
  assert (Hm12 : (month - 1) / 12 = 0) by (apply Z.div_small; lia).
  assert (Hmm : (month - 1) mod 12 = month - 1) by (apply Z.mod_small; lia).
  rewrite Hm12, Hmm, Z.add_0_r.
  replace (3 <=? month - 1 + 1) with (3 <=? month) by (f_equal; lia).
  rewrite (Z.div_small (time.nsec t)), (Z.mod_small (time.nsec t)) by lia.
  destruct t as [sec ns off]. cbn [time.nsec time.offset] in *.
  f_equal. unfold time.locabs in abs. cbn [time.sec time.offset] in abs.
  subst abs. lia.
Qed.

(** ** Time as text *)

Lemma checkFrom_spec P n : forall lo,
  checkFrom P n lo = true -> forall x, lo <= x < lo + Z.of_nat n -> P x = true.
Proof.
  induction n as [|n IH]; intros lo H x Hx; [lia|].
  cbn [checkFrom] in H. apply andb_true_iff in H. destruct H as [H0 H1].
  destruct (Z.eq_dec x lo) as [->|Hne]; [exact H0|].
  apply (IH (lo + 1) H1). lia.
Qed.

Lemma sameBytes_eq a b : sameBytes a b = true -> a = b.
Proof. unfold sameBytes. now destruct (list_eq_dec ascii_dec a b). Qed.

Lemma appendInt_2 x : 0 <= x <= 99 -> time.appendInt x 2 = field2 x.
Proof.
  intros H. apply sameBytes_eq.
  apply (checkFrom_spec (fun x => sameBytes (time.appendInt x 2) (field2 x))
           (Z.to_nat 100) 0); [vm_compute; reflexivity|lia].
Qed.

Lemma appendInt_4 x : 0 <= x <= 9999 -> time.appendInt x 4 = field4 x.
Proof.
  intros H. apply sameBytes_eq.
  apply (checkFrom_spec (fun x => sameBytes (time.appendInt x 4) (field4 x))
           (Z.to_nat 10000) 0); [vm_compute; reflexivity|lia].
Qed.

Lemma parseUintLoop_value ds : forall a,
  Forall (fun c => isDigit c = true) ds ->
  time.parseUintLoop ds a = Some (digitsValue ds a).
Proof. exact (parseDigits_value ds). Qed.

Lemma parseUint_field2 x lo hi :
  0 <= x <= 99 -> lo <= x <= hi -> time.parseUint (field2 x) lo hi = Some x.
Proof.
  intros Hx Hr. unfold time.parseUint, field2.
  assert (Hq : 0 <= x / 10 <= 9).
  { split; [apply Z.div_pos; lia|]. apply Z.lt_succ_r, Z.div_lt_upper_bound; lia. }
  pose proof (Z.mod_pos_bound x 10 ltac:(lia)) as Hm.
  rewrite parseUintLoop_value
    by (repeat constructor; apply isDigit_digitChar; lia).
  unfold digitsValue. cbn [fold_left].
  rewrite !digitVal_digitChar by lia.
  replace (0 * 10 + x / 10) with (x / 10) by lia.
  replace (x / 10 * 10 + x mod 10) with x by (pose proof (Z.div_mod x 10); lia).
  replace ((x <? lo) || (hi <? x)) with false; [reflexivity|].
  symmetry. apply orb_false_iff. lia.
Qed.

Lemma parseUint_field4 x lo hi :
  0 <= x <= 9999 -> lo <= x <= hi -> time.parseUint (field4 x) lo hi = Some x.
Proof.
  intros Hx Hr. unfold time.parseUint, field4.
  assert (H1 : 0 <= x / 1000 <= 9).
  { split; [apply Z.div_pos; lia|]. apply Z.lt_succ_r, Z.div_lt_upper_bound; lia. }
  pose proof (Z.mod_pos_bound (x / 100) 10 ltac:(lia)) as H2.
  pose proof (Z.mod_pos_bound (x / 10) 10 ltac:(lia)) as H3.
  pose proof (Z.mod_pos_bound x 10 ltac:(lia)) as H4.
  rewrite parseUintLoop_value
    by (repeat constructor; apply isDigit_digitChar; lia).
  unfold digitsValue. cbn [fold_left].
  rewrite !digitVal_digitChar by lia.
  assert (Hv : (((0 * 10 + x / 1000) * 10 + x / 100 mod 10) * 10 + x / 10 mod 10) * 10
               + x mod 10 = x).
  { pose proof (Z.div_mod x 10 ltac:(lia)).
    pose proof (Z.div_mod (x / 10) 10 ltac:(lia)).
    pose proof (Z.div_mod (x / 100) 10 ltac:(lia)).
    assert (x / 10 / 10 = x / 100) by (rewrite Z.div_div by lia; reflexivity).
    assert (x / 100 / 10 = x / 1000) by (rewrite Z.div_div by lia; reflexivity).
    lia. }
  rewrite Hv.
  replace ((x <? lo) || (hi <? x)) with false; [reflexivity|].
  symmetry. apply orb_false_iff. lia.
Qed.

Lemma plain_digit c : isDigit c = true -> plain c.
Proof.
  unfold isDigit, plain. intros H. apply andb_true_iff in H.
  repeat split; try lia; intros ->; vm_compute in H; destruct H; discriminate.
Qed.

Lemma plain_digitChar d : 0 <= d <= 9 -> plain (digitChar d).
Proof. intros H. apply plain_digit, isDigit_digitChar, H. Qed.

Lemma digitsValue_zeros k : forall l a,
  digitsValue (repeat "0"%char k ++ l) a = digitsValue l (a * 10 ^ Z.of_nat k).
Proof.
  induction k as [|k IH]; intros l a.
  - cbn [repeat app]. f_equal. change (10 ^ Z.of_nat 0) with 1. lia.
  - cbn [repeat app]. change (digitsValue ("0"%char :: ?x) a)
      with (digitsValue x (a * 10 + digitVal "0")).
    rewrite IH. f_equal. change (digitVal "0") with 0.
    rewrite Nat2Z.inj_succ, Z.pow_succ_r by lia. lia.
Qed.

Lemma digitsValue_trailing_zeros k : forall l a,
  digitsValue (l ++ repeat "0"%char k) a = digitsValue l a * 10 ^ Z.of_nat k.
Proof.
  intros l a. rewrite digitsValue_app.
  rewrite <- (app_nil_r (repeat "0"%char k)), digitsValue_zeros. reflexivity.
Qed.

Lemma trimZeros_spec r :
  exists k, r = repeat "0"%char k ++ time.trimZeros r.
Proof.
  induction r as [|c r [k IH]].
  - exists 0%nat. reflexivity.
  - cbn [time.trimZeros]. destruct (Ascii.eqb_spec c "0") as [->|Hne].
    + exists (S k). cbn [repeat app]. now rewrite <- IH.
    + exists 0%nat. reflexivity.
Qed.

Lemma rev_repeat {A} (x : A) k : rev (repeat x k) = repeat x k.
Proof.
  induction k as [|k IH]; [reflexivity|].
  cbn [repeat rev]. rewrite IH. clear IH.
  induction k as [|k IH]; [reflexivity|]. cbn [repeat app]. now rewrite IH.
Qed.

(** The fraction that [appendNano] writes is read back by
    [parseNanoseconds]. *)
Lemma appendNano_spec ns :
  0 <= ns < 1000000000 ->
  (ns = 0 /\ time.appendNano ns = [])
  \/ exists d ds,
       time.appendNano ns = "."%char :: d :: ds
       /\ Forall (fun c => isDigit c = true) (d :: ds)
       /\ time.parseNanoseconds (d :: ds) = ns.
Proof.
  intros Hns. unfold time.appendNano.
  destruct (Z.eqb_spec ns 0) as [->|Hne]; [left; auto|right].
  unfold time.appendInt. rewrite Z.abs_eq by lia.
  replace (ns <? 0) with false by (symmetry; apply Z.ltb_ge; lia).
  cbn [app].
  destruct (formatDigits_spec 20 ns [] 9)
    as (d0 & ds0 & Heq & Hdig & Hlen & Hval & _); [change (10 ^ Z.of_nat 9) with 1000000000; lia|lia|].
  rewrite app_nil_r in Heq. change time.digitsOf with strconv.formatDigits.
  rewrite Heq.
  set (P := repeat "0"%char (9 - List.length (d0 :: ds0)) ++ d0 :: ds0).
  assert (HPlen : List.length P = 9%nat).
  { subst P. rewrite length_app, repeat_length. lia. }
  assert (HPdig : Forall (fun c => isDigit c = true) P).
  { subst P. apply Forall_app. split; [|exact Hdig].
    apply Forall_forall. intros c Hc. apply repeat_spec in Hc. now subst c. }
  assert (HPval : digitsValue P 0 = ns).
  { subst P. rewrite digitsValue_zeros, Hval. lia. }
  destruct (trimZeros_spec (rev P)) as [k Hk].
  set (D := rev (time.trimZeros (rev P))).
  assert (HP : P = D ++ repeat "0"%char k).
  { subst D. rewrite <- (rev_involutive P) at 1. rewrite Hk at 1.
    now rewrite rev_app_distr, rev_repeat. }
  assert (HDdig : Forall (fun c => isDigit c = true) D).
  { rewrite HP in HPdig. apply Forall_app in HPdig. exact (proj1 HPdig). }
  assert (HDlen : (List.length D + k = 9)%nat).
  { rewrite <- HPlen, HP, length_app, repeat_length. reflexivity. }
  assert (HDval : digitsValue D 0 * 10 ^ Z.of_nat k = ns).
  { rewrite <- HPval, HP. symmetry. apply digitsValue_trailing_zeros. }
  destruct D as [|d ds] eqn:ED.
  - exfalso. unfold digitsValue in HDval. cbn [fold_left] in HDval. lia.
  - exists d, ds. split; [reflexivity|]. split; [exact HDdig|].
    unfold time.parseNanoseconds.
    rewrite firstn_all2 by lia.
    rewrite parseUintLoop_value by exact HDdig.
    replace (9 - List.length (d :: ds))%nat with k by lia. exact HDval.
Qed.

Lemma zoneText_spec off :
  off mod 60 = 0 -> -86400 < off < 86400 ->
  (off = 0 /\ zoneText off = ["Z"%char])
  \/ (off <> 0 /\ exists sign hr mm,
        zoneText off = sign :: field2 hr ++ ":"%char :: field2 mm
        /\ (sign = "-"%char \/ sign = "+"%char)
        /\ 0 <= hr <= 23 /\ 0 <= mm <= 59
        /\ (if (sign =? "-")%char then - ((hr * 60 + mm) * 60)
            else (hr * 60 + mm) * 60) = off).
Proof.
  intros Hmod Hr. unfold zoneText.
  destruct (Z.eqb_spec off 0) as [->|Hne]; [left; auto|right].
  split; [exact Hne|].
  apply Z.mod_divide in Hmod; [|lia]. destruct Hmod as [q Hq].
  assert (Hquot : Z.quot off 60 = q) by (rewrite Hq; apply Z.quot_mul; lia).
  rewrite Hquot.
  pose proof (Z.div_mod (Z.abs q) 60 ltac:(lia)) as Hdm.
  pose proof (Z.mod_pos_bound (Z.abs q) 60 ltac:(lia)) as Hm.
  assert (Hh : 0 <= Z.abs q / 60 <= 23).
  { split; [apply Z.div_pos; lia|]. apply Z.lt_succ_r, Z.div_lt_upper_bound; lia. }
  exists (if q <? 0 then "-"%char else "+"%char), (Z.abs q / 60), (Z.abs q mod 60).
  rewrite !appendInt_2 by lia. split; [reflexivity|].
  destruct (Z.ltb_spec q 0); (split; [auto|]); (split; [lia|]); (split; [lia|]);
    cbn [Ascii.eqb Bool.eqb]; lia.
Qed.

Lemma formatRFC3339_shape t :
  marshalable t ->
  exists year month day hour min s,
    time.formatRFC3339 t
    = dateTimeText year month day hour min s
        ++ time.appendNano (time.nsec t) ++ zoneText (time.offset t)
    /\ time.Date year month day hour min s (time.nsec t) (time.offset t) = t
    /\ 0 <= year <= 9999 /\ 1 <= month <= 12
    /\ 1 <= day <= time.daysIn month year
    /\ 0 <= hour <= 23 /\ 0 <= min <= 59 /\ 0 <= s <= 59.
Proof.
  intros (Hns & Hyear & _ & _).
  pose proof (Date_fields t Hns) as Hf. unfold time.formatRFC3339.
  destruct (time.dateOf t) as [[year month] day].
  destruct (time.clockOf t) as [[hour min] s].
  destruct Hf as (HD & Hm & Hd & Hh & Hmi & Hs & Hy). subst year.
  assert (Hd31 : time.daysIn month (time.Year t) <= 31).
  { unfold time.daysIn.
    assert (Hcases : month = 1 \/ month = 2 \/ month = 3 \/ month = 4 \/ month = 5
            \/ month = 6 \/ month = 7 \/ month = 8 \/ month = 9 \/ month = 10
            \/ month = 11 \/ month = 12) by lia.
    destruct (time.isLeap (time.Year t));
      repeat (destruct Hcases as [->|Hcases]; [cbn; lia|]); subst; cbn; lia. }
  exists (time.Year t), month, day, hour, min, s.
  rewrite appendInt_4, !appendInt_2 by lia.
  split; [|repeat split; auto; lia].
  unfold dateTimeText, zoneText. rewrite <- !app_assoc. cbn [app]. reflexivity.
Qed.

Lemma spanDigits_app ds rest :
  Forall (fun c => isDigit c = true) ds ->
  (forall c r, rest = c :: r -> isDigit c = false) ->
  time.spanDigits (ds ++ rest) = (ds, rest).
Proof.
  intros Hds Hrest. induction Hds as [|c ds Hc _ IH]; cbn [app].
  - destruct rest as [|c r]; [reflexivity|].
    cbn [time.spanDigits]. now rewrite (Hrest c r eq_refl).
  - cbn [time.spanDigits]. now rewrite Hc, IH.
Qed.

Lemma zoneText_head off :
  off mod 60 = 0 -> -86400 < off < 86400 ->
  exists c r, zoneText off = c :: r /\ isDigit c = false /\ c <> "."%char
              /\ plain c.
Proof.
  intros Hm Hr. destruct (zoneText_spec off Hm Hr)
    as [[_ ->]|(_ & sign & hr & mm & -> & Hs & _)].
  - eexists _, _. split; [reflexivity|].
    repeat split; try discriminate; vm_compute; discriminate.
  - eexists _, _. split; [reflexivity|].
    destruct Hs as [->| ->]; repeat split; try discriminate;
      vm_compute; discriminate.
Qed.

Lemma parseFraction_appendNano ns off :
  0 <= ns < 1000000000 -> off mod 60 = 0 -> -86400 < off < 86400 ->
  time.parseFraction (time.appendNano ns ++ zoneText off) = (ns, zoneText off).
Proof.
  intros Hns Hm Hr.
  destruct (zoneText_head off Hm Hr) as (c & r & Hz & Hc & Hdot & _).
  destruct (appendNano_spec ns Hns) as [[-> ->]|(d & ds & -> & Hds & Hval)].
  - cbn [app]. rewrite Hz. unfold time.parseFraction.
    destruct r as [|c' r']; [reflexivity|].
    destruct (Ascii.eqb_spec c "."); [contradiction|reflexivity].
  - cbn [app]. unfold time.parseFraction.
    pose proof (Forall_inv Hds) as Hd. cbn beta in Hd.
    change ("." =? ".")%char with true. rewrite Hd. cbn [andb skipn].
    change (d :: ds ++ zoneText off) with ((d :: ds) ++ zoneText off).
    rewrite spanDigits_app; [now rewrite Hval|exact Hds|].
    intros c0 r0 Heq. rewrite Hz in Heq. now injection Heq as <- _.
Qed.

Lemma parseZone_zoneText off :
  off mod 60 = 0 -> -86400 < off < 86400 ->
  time.parseZone (zoneText off) = Some off.
Proof.
  intros Hm Hr. destruct (zoneText_spec off Hm Hr)
    as [[-> ->]|(_ & sign & hr & mm & -> & Hs & Hhr & Hmm & Hoff)];
    [reflexivity|].
  unfold field2. cbn [app time.parseZone].
  change (time.slice (?a :: ?b :: ?c :: ?d :: ?e :: ?f :: []) 1 3) with [b; c].
  change (time.slice (?a :: ?b :: ?c :: ?d :: ?e :: ?f :: []) 4 6) with [e; f].
  fold (field2 hr). fold (field2 mm).
  rewrite !parseUint_field2 by lia.
  change (":" =? ":")%char with true.
  destruct Hs as [->| ->]; cbn [Ascii.eqb Bool.eqb orb andb negb] in *;
    now rewrite Hoff.
Qed.

Lemma parseRFC3339_dateTimeText year month day hour min s tail :
  0 <= year <= 9999 -> 1 <= month <= 12 ->
  1 <= day <= time.daysIn month year -> day <= 99 ->
  0 <= hour <= 23 -> 0 <= min <= 59 -> 0 <= s <= 59 ->
  time.parseRFC3339 (dateTimeText year month day hour min s ++ tail)
  = let (ns, rest) := time.parseFraction tail in
    match time.parseZone rest with
    | Some off => Some (time.Date year month day hour min s ns off)
    | None => None
    end.
Proof.
  intros Hy Hm Hd Hd99 Hh Hmi Hs.
  unfold dateTimeText, field4, field2. rewrite <- !app_assoc. cbn [app].
  unfold time.parseRFC3339.
  cbn [List.length Nat.ltb Nat.leb].
  cbn [time.slice Nat.sub skipn firstn time.isChar nth_error].
  fold (field4 year). fold (field2 month). fold (field2 day).
  fold (field2 hour). fold (field2 min). fold (field2 s).
  rewrite parseUint_field4, !parseUint_field2 by lia.
  reflexivity.
Qed.

(** The text of a marshalable time is accepted by the strict check, is
    read back as the same time, and has no byte that a JSON string
    would have to escape. *)
Lemma parseRFC3339_formatRFC3339 t :
  marshalable t -> time.parseRFC3339 (time.formatRFC3339 t) = Some t.
Proof.
  intros Hm. destruct (formatRFC3339_shape t Hm)
    as (year & month & day & hour & min & s & -> & HD & Hy & Hmo & Hd & Hh & Hmi & Hs).
  destruct Hm as (Hns & _ & Hoff & Hrange).
  assert (Hd99 : day <= 99).
  { unfold time.daysIn in Hd.
    assert (Hcases : month = 1 \/ month = 2 \/ month = 3 \/ month = 4 \/ month = 5
            \/ month = 6 \/ month = 7 \/ month = 8 \/ month = 9 \/ month = 10
            \/ month = 11 \/ month = 12) by lia.
    destruct (time.isLeap year);
      repeat (destruct Hcases as [->|Hcases]; [cbn in Hd; lia|]); subst; cbn in Hd; lia. }
  rewrite parseRFC3339_dateTimeText by lia.
  rewrite parseFraction_appendNano by assumption.
  rewrite parseZone_zoneText by assumption. now rewrite HD.
Qed.

Lemma plain_field2 x : 0 <= x <= 99 -> Forall plain (field2 x).
Proof.
  intros H. unfold field2.
  assert (0 <= x / 10 <= 9).
  { split; [apply Z.div_pos; lia|]. apply Z.lt_succ_r, Z.div_lt_upper_bound; lia. }
  pose proof (Z.mod_pos_bound x 10 ltac:(lia)).
  repeat constructor; apply plain_digitChar; lia.
Qed.

Lemma plain_field4 x : 0 <= x <= 9999 -> Forall plain (field4 x).
Proof.
  intros H. unfold field4.
  assert (0 <= x / 1000 <= 9).
  { split; [apply Z.div_pos; lia|]. apply Z.lt_succ_r, Z.div_lt_upper_bound; lia. }
  pose proof (Z.mod_pos_bound (x / 100) 10 ltac:(lia)).
  pose proof (Z.mod_pos_bound (x / 10) 10 ltac:(lia)).
  pose proof (Z.mod_pos_bound x 10 ltac:(lia)).
  repeat constructor; apply plain_digitChar; lia.
Qed.

Lemma plain_punct c :
  (c = "-" \/ c = "T" \/ c = ":" \/ c = "." \/ c = "Z" \/ c = "+")%char -> plain c.
Proof.
  intros H. decompose [or] H; subst; repeat split; try discriminate;
    vm_compute; discriminate.
Qed.

Lemma plain_zoneText off :
  off mod 60 = 0 -> -86400 < off < 86400 -> Forall plain (zoneText off).
Proof.
  intros Hm Hr. destruct (zoneText_spec off Hm Hr)
    as [[_ ->]|(_ & sign & hr & mm & -> & Hs & Hhr & Hmm & _)].
  - repeat constructor; apply plain_punct; auto 10.
  - constructor; [apply plain_punct; destruct Hs; auto 10|].
    apply Forall_app. split; [apply plain_field2; lia|].
    constructor; [apply plain_punct; auto 10|apply plain_field2; lia].
Qed.

Lemma plain_appendNano ns :
  0 <= ns < 1000000000 -> Forall plain (time.appendNano ns).
Proof.
  intros Hns. destruct (appendNano_spec ns Hns) as [[_ ->]|(d & ds & -> & Hds & _)].
  - constructor.
  - constructor; [apply plain_punct; auto 10|].
    eapply Forall_impl; [|exact Hds]. apply plain_digit.
Qed.

Lemma plain_formatRFC3339 t :
  marshalable t -> Forall plain (time.formatRFC3339 t).
Proof.
  intros Hm. destruct (formatRFC3339_shape t Hm)
    as (year & month & day & hour & min & s & -> & _ & Hy & Hmo & Hd & Hh & Hmi & Hs).
  destruct Hm as (Hns & _ & Hoff & Hrange).
  assert (Hd99 : day <= 99).
  { unfold time.daysIn in Hd.
    assert (Hcases : month = 1 \/ month = 2 \/ month = 3 \/ month = 4 \/ month = 5
            \/ month = 6 \/ month = 7 \/ month = 8 \/ month = 9 \/ month = 10
            \/ month = 11 \/ month = 12) by lia.
    destruct (time.isLeap year);
      repeat (destruct Hcases as [->|Hcases]; [cbn in Hd; lia|]); subst; cbn in Hd; lia. }
  unfold dateTimeText.
  repeat match goal with
         | |- Forall plain (field4 _) => apply plain_field4; lia
         | |- Forall plain (field2 _) => apply plain_field2; lia
         | |- Forall plain (time.appendNano _) => apply plain_appendNano; assumption
         | |- Forall plain (zoneText _) => apply plain_zoneText; assumption
         | |- Forall plain (_ ++ _) => apply Forall_app; split
         | |- Forall plain (_ :: _) =>
             apply Forall_cons; [apply plain_punct; auto 10|]
         end.
Qed.

Lemma byteAt_app_r (x z : list ascii) i :
  time.byteAt (x ++ z) (List.length x + i) = time.byteAt z i.
Proof. unfold time.byteAt. apply app_nth2_plus. Qed.

Lemma skipn_app_r (x z : list ascii) i :
  skipn (List.length x + i) (x ++ z) = skipn i z.
Proof.
  rewrite skipn_app, skipn_all2 by lia.
  replace (List.length x + i - List.length x)%nat with i by lia. reflexivity.
Qed.

(** The strict check of [Time.MarshalJSON] passes. *)
Lemma appendStrictRFC3339_ok t :
  marshalable t ->
  time.appendStrictRFC3339 t = Some (time.formatRFC3339 t).
Proof.
  intros Hm. unfold time.appendStrictRFC3339.
  destruct (formatRFC3339_shape t Hm)
    as (year & month & day & hour & min & s & -> & _ & Hy & _).
  destruct Hm as (Hns & _ & Hoff & Hrange).
  set (nano := time.appendNano (time.nsec t)).
  assert (H4 : time.byteAt (dateTimeText year month day hour min s
                              ++ nano ++ zoneText (time.offset t)) 4 = "-"%char)
    by reflexivity.
  rewrite H4. change (negb ("-" =? "-")%char) with false. cbv iota.
  rewrite app_assoc. set (x := dateTimeText year month day hour min s ++ nano).
  rewrite length_app.
  destruct (zoneText_spec _ Hoff Hrange)
    as [[_ ->]|(_ & sign & hr & mm & -> & Hs & Hhr & Hmm & _)].
  - change (List.length ["Z"%char]) with 1%nat.
    replace (List.length x + 1 - 1)%nat with (List.length x + 0)%nat by lia.
    rewrite byteAt_app_r. reflexivity.
  - set (z := sign :: field2 hr ++ ":"%char :: field2 mm).
    change (List.length z) with 6%nat.
    replace (List.length x + 6 - 1)%nat with (List.length x + 5)%nat by lia.
    replace (List.length x + 6 - 6)%nat with (List.length x + 0)%nat by lia.
    replace (List.length x + 6 - 5)%nat with (List.length x + 1)%nat by lia.
    rewrite !byteAt_app_r, skipn_app_r.
    change (time.byteAt z 5) with (digitChar (mm mod 10)).
    change (time.byteAt z 0) with sign.
    change (skipn 1 z) with (field2 hr ++ ":"%char :: field2 mm).
    pose proof (Z.mod_pos_bound mm 10 ltac:(lia)) as Hm10.
    assert (HZ : (digitChar (mm mod 10) =? "Z")%char = false).
    { destruct (Ascii.eqb_spec (digitChar (mm mod 10)) "Z") as [E|]; [|reflexivity].
      pose proof (isDigit_digitChar (mm mod 10) ltac:(lia)) as Hd.
      rewrite E in Hd. discriminate. }
    rewrite HZ. cbn [negb].
    assert (Hsd : isDigit sign = false) by (destruct Hs as [->| ->]; reflexivity).
    rewrite Hsd. cbn [orb].
    assert (Hn2 : time.num2 (field2 hr ++ ":"%char :: field2 mm) = hr).
    { unfold time.num2, field2. cbn [app time.byteAt nth].
      assert (0 <= hr / 10 <= 9).
      { split; [apply Z.div_pos; lia|]. apply Z.lt_succ_r, Z.div_lt_upper_bound; lia. }
      pose proof (Z.mod_pos_bound hr 10 ltac:(lia)).
      rewrite !digitVal_digitChar by lia. pose proof (Z.div_mod hr 10). lia. }
    rewrite Hn2. replace (24 <=? hr) with false by (symmetry; apply Z.leb_gt; lia).
    reflexivity.
Qed.

(** ** UTF-8 *)

Lemma land_low a b k : 0 <= k -> 0 <= b < 2 ^ k -> Z.land (a * 2 ^ k) b = 0.
Proof.
  intros Hk Hb. apply Z.bits_inj'. intros n Hn.
  rewrite Z.land_spec, Z.bits_0.
  destruct (Z.lt_ge_cases n k) as [Hlt|Hge].
  - now rewrite Z.mul_pow2_bits_low.
  - rewrite <- (Z.mod_small b (2 ^ k)) by lia.
    rewrite Z.mod_pow2_bits_high by lia. apply andb_false_r.
Qed.

(** Bit fields as arithmetic, for a field of [k] bits and [p = 2 ^ k]. *)
Lemma lor_low a b k p :
  p = 2 ^ k -> 0 <= k -> 0 <= b < p -> Z.lor (a * p) b = a * p + b.
Proof.
  intros -> Hk Hb. pose proof (Z.add_lor_land (a * 2 ^ k) b) as H.
  rewrite (land_low a b k Hk Hb) in H. lia.
Qed.

Lemma land_mask a k p m :
  p = 2 ^ k -> m = p - 1 -> 0 <= k -> Z.land a m = a mod p.
Proof.
  intros -> -> Hk. rewrite <- Z.land_ones by lia. f_equal.
  rewrite Z.ones_equiv. lia.
Qed.

Lemma lor_tag tag k p x :
  p = 2 ^ k -> 0 <= k -> 0 <= x < p -> tag mod p = 0 -> Z.lor tag x = tag + x.
Proof.
  intros Hp Hk Hx Ht. apply Z.mod_divide in Ht; [|lia]. destruct Ht as [q ->].
  now apply (lor_low q x k p).
Qed.

Lemma shiftr_field hi lo k p :
  p = 2 ^ k -> 0 <= k -> 0 <= lo < p -> Z.shiftr (hi * p + lo) k = hi.
Proof.
  intros -> Hk Hlo. rewrite Z.shiftr_div_pow2 by lia.
  symmetry. apply (Z.div_unique _ _ hi lo); lia.
Qed.

Lemma land_field hi lo k p m :
  p = 2 ^ k -> m = p - 1 -> 0 <= k -> 0 <= lo < p ->
  Z.land (hi * p + lo) m = lo.
Proof.
  intros Hp Hm Hk Hlo. rewrite (land_mask _ k p m Hp Hm Hk).
  symmetry. apply (Z.mod_unique _ _ hi lo); lia.
Qed.

Lemma cont_bits b : 128 <= b <= 191 -> Z.land b 63 = b - 128.
Proof.
  intros H. rewrite (land_mask b 6 64 63) by field_side.
  symmetry. apply (Z.mod_unique b 64 2); lia.
Qed.

(** The rune of a two-byte encoding, arithmetically. *)
Lemma rune2 p0 b1 :
  192 <= p0 <= 223 -> 128 <= b1 <= 191 ->
  Z.lor (Z.shiftl (Z.land p0 31) 6) (Z.land b1 63)
  = (p0 - 192) * 64 + (b1 - 128).
Proof.
  intros H0 H1. rewrite (cont_bits b1 H1).
  rewrite (land_mask p0 5 32 31), Z.shiftl_mul_pow2 by field_side.
  replace (p0 mod 32) with (p0 - 192)
    by (apply (Z.mod_unique p0 32 6); lia).
  change (2 ^ 6) with 64. apply (lor_low _ _ 6); field_side.
Qed.

Lemma rune3 p0 b1 b2 :
  224 <= p0 <= 239 -> 128 <= b1 <= 191 -> 128 <= b2 <= 191 ->
  Z.lor (Z.lor (Z.shiftl (Z.land p0 15) 12) (Z.shiftl (Z.land b1 63) 6))
        (Z.land b2 63)
  = (p0 - 224) * 4096 + (b1 - 128) * 64 + (b2 - 128).
Proof.
  intros H0 H1 H2. rewrite (cont_bits b1 H1), (cont_bits b2 H2).
  rewrite (land_mask p0 4 16 15), !Z.shiftl_mul_pow2 by field_side.
  replace (p0 mod 16) with (p0 - 224)
    by (apply (Z.mod_unique p0 16 14); lia).
  change (2 ^ 12) with 4096. change (2 ^ 6) with 64.
  rewrite (lor_low (p0 - 224) ((b1 - 128) * 64) 12 4096) by field_side.
  replace ((p0 - 224) * 4096 + (b1 - 128) * 64)
    with (((p0 - 224) * 64 + (b1 - 128)) * 64) by lia.
  rewrite (lor_low _ (b2 - 128) 6 64) by field_side. lia.
Qed.

Lemma rune4 p0 b1 b2 b3 :
  240 <= p0 <= 247 -> 128 <= b1 <= 191 -> 128 <= b2 <= 191 -> 128 <= b3 <= 191 ->
  Z.lor (Z.lor (Z.lor (Z.shiftl (Z.land p0 7) 18) (Z.shiftl (Z.land b1 63) 12))
               (Z.shiftl (Z.land b2 63) 6))
        (Z.land b3 63)
  = (p0 - 240) * 262144 + (b1 - 128) * 4096 + (b2 - 128) * 64 + (b3 - 128).
Proof.
  intros H0 H1 H2 H3.
  rewrite (cont_bits b1 H1), (cont_bits b2 H2), (cont_bits b3 H3).
  rewrite (land_mask p0 3 8 7), !Z.shiftl_mul_pow2 by field_side.
  replace (p0 mod 8) with (p0 - 240)
    by (apply (Z.mod_unique p0 8 30); lia).
  change (2 ^ 18) with 262144. change (2 ^ 12) with 4096. change (2 ^ 6) with 64.
  rewrite (lor_low (p0 - 240) ((b1 - 128) * 4096) 18 262144) by field_side.
  replace ((p0 - 240) * 262144 + (b1 - 128) * 4096)
    with (((p0 - 240) * 64 + (b1 - 128)) * 4096) by lia.
  rewrite (lor_low _ ((b2 - 128) * 64) 12 4096) by field_side.
  replace (((p0 - 240) * 64 + (b1 - 128)) * 4096 + (b2 - 128) * 64)
    with ((((p0 - 240) * 64 + (b1 - 128)) * 64 + (b2 - 128)) * 64) by lia.
  rewrite (lor_low _ (b3 - 128) 6 64) by field_side. lia.
Qed.

Lemma EncodeRune2 x y :
  2 <= x <= 31 -> 0 <= y <= 63 ->
  utf8.EncodeRune (x * 64 + y) = [byteOf (192 + x); byteOf (128 + y)].
Proof.
  intros Hx Hy. unfold utf8.EncodeRune.
  replace ((0 <=? x * 64 + y) && (x * 64 + y <=? 127)) with false
    by (symmetry; apply andb_false_iff; right; apply Z.leb_gt; lia).
  replace ((0 <=? x * 64 + y) && (x * 64 + y <=? 2047)) with true
    by (symmetry; apply andb_true_iff; split; apply Z.leb_le; lia).
  rewrite (shiftr_field x y 6 64), (land_field x y 6 64 63) by field_side.
  rewrite (lor_tag 192 6 64 x), (lor_tag 128 6 64 y) by field_side.
  reflexivity.
Qed.

Lemma EncodeRune3 x y z :
  0 <= x <= 15 -> 0 <= y <= 63 -> 0 <= z <= 63 ->
  2048 <= x * 4096 + y * 64 + z ->
  ~ (55296 <= x * 4096 + y * 64 + z <= 57343) ->
  utf8.EncodeRune (x * 4096 + y * 64 + z)
  = [byteOf (224 + x); byteOf (128 + y); byteOf (128 + z)].
Proof.
  intros Hx Hy Hz Hlo Hsur. unfold utf8.EncodeRune, utf8.MaxRune.
  set (r := x * 4096 + y * 64 + z) in *.
  replace ((0 <=? r) && (r <=? 127)) with false
    by (symmetry; apply andb_false_iff; right; apply Z.leb_gt; lia).
  replace ((0 <=? r) && (r <=? 2047)) with false
    by (symmetry; apply andb_false_iff; right; apply Z.leb_gt; lia).
  replace ((r <? 0) || (1114111 <? r) || (55296 <=? r) && (r <=? 57343)) with false.
  2:{ symmetry. apply orb_false_iff. split; [apply orb_false_iff; split|].
      - apply Z.ltb_ge. lia.
      - apply Z.ltb_ge. subst r. lia.
      - apply andb_false_iff. destruct (Z.le_gt_cases 55296 r);
          [right; apply Z.leb_gt; lia|left; apply Z.leb_gt; lia]. }
  replace (r <=? 65535) with true by (symmetry; apply Z.leb_le; subst r; lia).
  assert (E12 : Z.shiftr r 12 = x).
  { subst r. replace (x * 4096 + y * 64 + z) with (x * 4096 + (y * 64 + z)) by lia.
    apply (shiftr_field _ _ 12 4096); field_side. }
  assert (E6 : Z.shiftr r 6 = x * 64 + y).
  { subst r. replace (x * 4096 + y * 64 + z) with ((x * 64 + y) * 64 + z) by lia.
    apply (shiftr_field _ _ 6 64); field_side. }
  assert (E0 : Z.land r 63 = z).
  { subst r. replace (x * 4096 + y * 64 + z) with ((x * 64 + y) * 64 + z) by lia.
    apply (land_field _ _ 6 64); field_side. }
  rewrite E12, E6, E0.
  rewrite (land_field x y 6 64 63) by field_side.
  rewrite (lor_tag 224 4 16 x), (lor_tag 128 6 64 y), (lor_tag 128 6 64 z)
    by field_side.
  reflexivity.
Qed.

Lemma EncodeRune4 x y z w :
  0 <= x <= 4 -> 0 <= y <= 63 -> 0 <= z <= 63 -> 0 <= w <= 63 ->
  65536 <= x * 262144 + y * 4096 + z * 64 + w <= 1114111 ->
  utf8.EncodeRune (x * 262144 + y * 4096 + z * 64 + w)
  = [byteOf (240 + x); byteOf (128 + y); byteOf (128 + z); byteOf (128 + w)].
Proof.
  intros Hx Hy Hz Hw Hr. unfold utf8.EncodeRune, utf8.MaxRune.
  set (r := x * 262144 + y * 4096 + z * 64 + w) in *.
  replace ((0 <=? r) && (r <=? 127)) with false
    by (symmetry; apply andb_false_iff; right; apply Z.leb_gt; lia).
  replace ((0 <=? r) && (r <=? 2047)) with false
    by (symmetry; apply andb_false_iff; right; apply Z.leb_gt; lia).
  replace ((r <? 0) || (1114111 <? r) || (55296 <=? r) && (r <=? 57343)) with false.
  2:{ symmetry. apply orb_false_iff. split; [apply orb_false_iff; split|].
      - apply Z.ltb_ge. lia.
      - apply Z.ltb_ge. lia.
      - apply andb_false_iff. right. apply Z.leb_gt. lia. }
  replace (r <=? 65535) with false by (symmetry; apply Z.leb_gt; lia).
  assert (E18 : Z.shiftr r 18 = x).
  { subst r. replace (x * 262144 + y * 4096 + z * 64 + w)
      with (x * 262144 + (y * 4096 + z * 64 + w)) by lia.
    apply (shiftr_field _ _ 18 262144); field_side. }
  assert (E12 : Z.shiftr r 12 = x * 64 + y).
  { subst r. replace (x * 262144 + y * 4096 + z * 64 + w)
      with ((x * 64 + y) * 4096 + (z * 64 + w)) by lia.
    apply (shiftr_field _ _ 12 4096); field_side. }
  assert (E6 : Z.shiftr r 6 = (x * 64 + y) * 64 + z).
  { subst r. replace (x * 262144 + y * 4096 + z * 64 + w)
      with (((x * 64 + y) * 64 + z) * 64 + w) by lia.
    apply (shiftr_field _ _ 6 64); field_side. }
  assert (E0 : Z.land r 63 = w).
  { subst r. replace (x * 262144 + y * 4096 + z * 64 + w)
      with (((x * 64 + y) * 64 + z) * 64 + w) by lia.
    apply (land_field _ _ 6 64); field_side. }
  rewrite E18, E12, E6, E0.
  rewrite (land_field x y 6 64 63) by field_side.
  rewrite (land_field (x * 64 + y) z 6 64 63) by field_side.
  rewrite (lor_tag 240 3 8 x), (lor_tag 128 6 64 y), (lor_tag 128 6 64 z),
    (lor_tag 128 6 64 w) by field_side.
  reflexivity.
Qed.

Lemma first_spec p0 sz lo hi :
  utf8.first p0 = Some (sz, lo, hi) ->
  128 <= lo /\ hi <= 191 /\
  ((sz = 2%nat /\ 194 <= p0 <= 223)
   \/ (sz = 3%nat /\ 224 <= p0 <= 239
       /\ (p0 = 224 -> 160 <= lo) /\ (p0 = 237 -> hi <= 159))
   \/ (sz = 4%nat /\ 240 <= p0 <= 244
       /\ (p0 = 240 -> 144 <= lo) /\ (p0 = 244 -> hi <= 143))).
Proof.
  unfold utf8.first.
  repeat match goal with
         | |- context [if ?c then _ else _] => destruct c eqn:?
         end;
    intros H; inversion H; subst; clear H;
    repeat match goal with
           | H : (_ && _) = true |- _ => apply andb_true_iff in H; destruct H
           | H : (_ && _) = false |- _ => apply andb_false_iff in H
           end;
    lia.
Qed.

Lemma between_spec lo hi c :
  utf8.between lo hi c = true -> lo <= byteVal c <= hi.
Proof. unfold utf8.between. intros H. apply andb_true_iff in H. lia. Qed.

(** A multi-byte encoding that [DecodeRune] accepts: the bytes it
    covers are not ASCII, they alone determine the result, and
    [EncodeRune] gives them back. *)
Lemma DecodeRune_multibyte c0 rest r size :
  128 <= byteVal c0 ->
  utf8.DecodeRune (c0 :: rest) = (r, size) ->
  (r, size) <> (utf8.RuneError, 1%nat) ->
  exists chunk rest',
    c0 :: rest = chunk ++ rest'
    /\ List.length chunk = size
    /\ Forall (fun c => 128 <= byteVal c) chunk
    /\ utf8.EncodeRune r = chunk
    /\ forall tail, utf8.DecodeRune (chunk ++ tail) = (r, size).
Proof.
  intros H0 Hdec Hne. unfold utf8.DecodeRune in Hdec. cbv zeta in Hdec.
  replace (byteVal c0 <? 128) with false in Hdec
    by (symmetry; apply Z.ltb_ge; lia).
  destruct (utf8.first (byteVal c0)) as [[[sz lo] hi]|] eqn:Hf;
    [|pair_eq Hdec; contradiction].
  destruct (first_spec _ _ _ _ Hf) as (Hlo & Hhi & Hcase).
  destruct rest as [|c1 p2]; [pair_eq Hdec; contradiction|].
  destruct (utf8.between lo hi c1) eqn:Hb1; simpl negb in Hdec; cbv iota in Hdec;
    [|pair_eq Hdec; contradiction].
  pose proof (between_spec _ _ _ Hb1) as Hc1.
  destruct Hcase as [[-> Hp]|[(-> & Hp & Hlo' & Hhi')|(-> & Hp & Hlo' & Hhi')]].
  - (* two bytes *)
    change (2 <=? 2)%nat with true in Hdec. cbv iota in Hdec.
    pair_eq Hdec.
    exists [c0; c1], p2. split; [reflexivity|]. split; [reflexivity|].
    split; [repeat constructor; lia|].
    rewrite rune2 by lia. split.
    + rewrite EncodeRune2 by lia.
      replace (192 + (byteVal c0 - 192)) with (byteVal c0) by lia.
      replace (128 + (byteVal c1 - 128)) with (byteVal c1) by lia.
      now rewrite !byteOf_byteVal.
    + intros tail. cbn [app]. unfold utf8.DecodeRune. cbv zeta.
      replace (byteVal c0 <? 128) with false by (symmetry; apply Z.ltb_ge; lia).
      rewrite Hf, Hb1. simpl negb. cbv iota.
      change (2 <=? 2)%nat with true. cbv iota. now rewrite rune2 by lia.
  - (* three bytes *)
    change (3 <=? 2)%nat with false in Hdec.
    change (3 <=? 3)%nat with true in Hdec. cbv iota in Hdec.
    destruct p2 as [|c2 p3]; [pair_eq Hdec; contradiction|].
    destruct (utf8.between 128 191 c2) eqn:Hb2; simpl negb in Hdec; cbv iota in Hdec;
      [|pair_eq Hdec; contradiction].
    pose proof (between_spec _ _ _ Hb2) as Hc2.
    pair_eq Hdec.
    exists [c0; c1; c2], p3. split; [reflexivity|]. split; [reflexivity|].
    split; [repeat constructor; lia|].
    rewrite rune3 by lia. split.
    + rewrite EncodeRune3 by lia.
      replace (224 + (byteVal c0 - 224)) with (byteVal c0) by lia.
      replace (128 + (byteVal c1 - 128)) with (byteVal c1) by lia.
      replace (128 + (byteVal c2 - 128)) with (byteVal c2) by lia.
      now rewrite !byteOf_byteVal.
    + intros tail. cbn [app]. unfold utf8.DecodeRune. cbv zeta.
      replace (byteVal c0 <? 128) with false by (symmetry; apply Z.ltb_ge; lia).
      rewrite Hf, Hb1, Hb2. simpl negb. cbv iota.
      change (3 <=? 2)%nat with false. change (3 <=? 3)%nat with true.
      cbv iota. now rewrite rune3 by lia.
  - (* four bytes *)
    change (4 <=? 2)%nat with false in Hdec.
    change (4 <=? 3)%nat with false in Hdec. cbv iota in Hdec.
    destruct p2 as [|c2 p3]; [pair_eq Hdec; contradiction|].
    destruct (utf8.between 128 191 c2) eqn:Hb2; simpl negb in Hdec; cbv iota in Hdec;
      [|pair_eq Hdec; contradiction].
    pose proof (between_spec _ _ _ Hb2) as Hc2.
    destruct p3 as [|c3 p4]; [pair_eq Hdec; contradiction|].
    destruct (utf8.between 128 191 c3) eqn:Hb3; simpl negb in Hdec; cbv iota in Hdec;
      [|pair_eq Hdec; contradiction].
    pose proof (between_spec _ _ _ Hb3) as Hc3.
    pair_eq Hdec.
    exists [c0; c1; c2; c3], p4. split; [reflexivity|]. split; [reflexivity|].
    split; [repeat constructor; lia|].
    rewrite rune4 by lia. split.
    + rewrite EncodeRune4 by lia.
      replace (240 + (byteVal c0 - 240)) with (byteVal c0) by lia.
      replace (128 + (byteVal c1 - 128)) with (byteVal c1) by lia.
      replace (128 + (byteVal c2 - 128)) with (byteVal c2) by lia.
      replace (128 + (byteVal c3 - 128)) with (byteVal c3) by lia.
      now rewrite !byteOf_byteVal.
    + intros tail. cbn [app]. unfold utf8.DecodeRune. cbv zeta.
      replace (byteVal c0 <? 128) with false by (symmetry; apply Z.ltb_ge; lia).
      rewrite Hf, Hb1, Hb2, Hb3. simpl negb. cbv iota.
      change (4 <=? 2)%nat with false. change (4 <=? 3)%nat with false.
      cbv iota. now rewrite rune4 by lia.
Qed.

(** ** JSON strings *)

Lemma plain_eqb c :
  plain c ->
  (c =? dquote)%char = false /\ (c =? backslash)%char = false
  /\ (byteVal c <? 32) = false.
Proof.
  intros (Hq & Hb & Hc). repeat split.
  - now apply Ascii.eqb_neq.
  - now apply Ascii.eqb_neq.
  - apply Z.ltb_ge. lia.
Qed.

(** The scanner runs through bytes that need no escape. *)
Lemma scanString_plain chunk tail :
  Forall plain chunk ->
  json.scanString (chunk ++ tail)
  = match json.scanString tail with
    | Some (raw, r) => Some (chunk ++ raw, r)
    | None => None
    end.
Proof.
  intros H. induction H as [|c chunk Hc _ IH]; cbn [app].
  - now destruct (json.scanString tail) as [[raw r]|].
  - cbn [json.scanString]. destruct (plain_eqb c Hc) as (-> & -> & ->).
    rewrite IH. now destruct (json.scanString tail) as [[raw r]|].
Qed.

Lemma scanString_closed chunk tail :
  Forall plain chunk ->
  json.scanString (chunk ++ dquote :: tail) = Some (chunk, tail).
Proof.
  intros H. rewrite (scanString_plain _ _ H). cbn [json.scanString].
  change (dquote =? dquote)%char with true. cbv iota. now rewrite app_nil_r.
Qed.

Lemma quoteByte_scan b tail :
  byteVal b < 128 ->
  json.scanString (quoteByte b ++ tail)
  = match json.scanString tail with
    | Some (raw, r) => Some (quoteByte b ++ raw, r)
    | None => None
    end.
Proof.
  intros H.
  destruct b as [[] [] [] [] [] [] [] []];
    try (exfalso; vm_compute in H; discriminate H);
    cbv -[json.scanString];
    cbn [json.scanString]; cbv -[json.scanString];
    destruct (json.scanString tail) as [[raw r]|]; reflexivity.
Qed.

Lemma quoteByte_unquote b fuel tail :
  byteVal b < 128 ->
  json.unquoteLoop (S fuel) (quoteByte b ++ tail)
  = match json.unquoteLoop fuel tail with
    | Some t => Some (b :: t)
    | None => None
    end.
Proof.
  intros H.
  destruct b as [[] [] [] [] [] [] [] []];
    try (exfalso; vm_compute in H; discriminate H);
    cbv -[json.unquoteLoop];
    cbn [json.unquoteLoop]; cbv -[json.unquoteLoop];
    destruct (json.unquoteLoop fuel tail) as [t|]; reflexivity.
Qed.

Lemma high_plain c : 128 <= byteVal c -> plain c.
Proof.
  intros H. repeat split; try lia; intros ->; vm_compute in H; now apply H.
Qed.

Lemma high_chunk_plain chunk :
  Forall (fun c => 128 <= byteVal c) chunk -> Forall plain chunk.
Proof. intros H. eapply Forall_impl; [|exact H]. apply high_plain. Qed.

Lemma skipn_chunk {A} (chunk rest : list A) :
  skipn (List.length chunk) (chunk ++ rest) = rest.
Proof.
  rewrite skipn_app, skipn_all, Nat.sub_diag. reflexivity.
Qed.

Lemma firstn_chunk {A} (chunk rest : list A) :
  firstn (List.length chunk) (chunk ++ rest) = chunk.
Proof.
  rewrite firstn_app, firstn_all, Nat.sub_diag, firstn_O. apply app_nil_r.
Qed.

(** The decoder copies a multi-byte encoding. *)
Lemma unquoteLoop_chunk chunk r tail fuel :
  chunk <> [] ->
  Forall (fun c => 128 <= byteVal c) chunk ->
  utf8.EncodeRune r = chunk ->
  utf8.DecodeRune (chunk ++ tail) = (r, List.length chunk) ->
  json.unquoteLoop (S fuel) (chunk ++ tail)
  = match json.unquoteLoop fuel tail with
    | Some t => Some (chunk ++ t)
    | None => None
    end.
Proof.
  intros Hne Hhigh Henc Hdec.
  destruct chunk as [|c0 chunk']; [contradiction|].
  pose proof (Forall_inv Hhigh) as H0. cbn beta in H0.
  destruct (plain_eqb c0 (high_plain c0 H0)) as (Hq & Hb & Hc).
  change ((c0 :: chunk') ++ tail) with (c0 :: (chunk' ++ tail)) in *.
  cbn [json.unquoteLoop]. rewrite Hb, Hq, Hc. cbn [orb].
  replace (byteVal c0 <? 128) with false by (symmetry; apply Z.ltb_ge; lia).
  rewrite Hdec, Henc.
  change (c0 :: chunk' ++ tail) with ((c0 :: chunk') ++ tail).
  now rewrite skipn_chunk.
Qed.

(** The escapes of the line and paragraph separators. *)
Lemma separator_escape r chunk fuel :
  r = 8232 \/ r = 8233 ->
  utf8.EncodeRune r = chunk ->
  (forall tail,
     json.unquoteLoop (S fuel)
       (backslash :: bytes "u202" ++ json.hexChar (Z.land r 15) :: tail)
     = match json.unquoteLoop fuel tail with
       | Some t => Some (chunk ++ t)
       | None => None
       end)
  /\ forall X,
       json.scanString
         (backslash :: bytes "u202" ++ json.hexChar (Z.land r 15) :: X)
       = match json.scanString X with
         | Some (raw, r') =>
             Some (backslash :: bytes "u202" ++ json.hexChar (Z.land r 15) :: raw,
                   r')
         | None => None
         end.
Proof.
  intros [-> | ->] <-; split; intros X;
    cbv -[json.unquoteLoop json.scanString];
    cbn [json.unquoteLoop json.scanString];
    cbv -[json.unquoteLoop json.scanString];
    try destruct (json.unquoteLoop fuel X) as [t|];
    try destruct (json.scanString X) as [[raw r']|]; reflexivity.
Qed.

Lemma EncodeRune_nonempty r : utf8.EncodeRune r <> [].
Proof.
  unfold utf8.EncodeRune.
  repeat match goal with
         | |- context [if ?c then _ else _] => destruct c
         end; discriminate.
Qed.

Lemma not_error_pair r size :
  (r =? utf8.RuneError) && (size =? 1)%nat = false ->
  (r, size) <> (utf8.RuneError, 1%nat).
Proof.
  intros H E. injection E as -> ->. discriminate H.
Qed.

(** On valid UTF-8 the encoder's text is a string literal that the
    scanner accepts and the decoder reads back; a literal is never
    shorter than the string. *)
Lemma quoteLoop_roundtrip n : forall s f1 fv f2,
  (List.length s <= n)%nat ->
  (List.length s <= f1)%nat -> (List.length s <= fv)%nat ->
  (List.length s <= f2)%nat ->
  utf8.validLoop fv s = true ->
  (forall X, json.scanString (json.quoteLoop f1 s ++ dquote :: X)
             = Some (json.quoteLoop f1 s, X))
  /\ json.unquoteLoop f2 (json.quoteLoop f1 s) = Some s
  /\ (List.length s <= List.length (json.quoteLoop f1 s))%nat.
Proof.
  induction n as [|n IH]; intros s f1 fv f2 Hn H1 Hv H2 Hvalid.
  - destruct s; [|cbn in Hn; lia].
    destruct f1, f2; repeat split; cbn; auto.
  - destruct s as [|b rest].
    { destruct f1, f2; repeat split; cbn; auto. }
    cbn [List.length] in *.
    destruct f1 as [|f1]; [lia|]. destruct fv as [|fv]; [lia|].
    destruct f2 as [|f2]; [lia|].
    cbn [json.quoteLoop utf8.validLoop] in *.
    destruct (Z.ltb_spec (byteVal b) 128) as [Hlow|Hhigh].
    + destruct (IH rest f1 fv f2) as (IHs & IHu & IHl); try lia; [exact Hvalid|].
      fold (quoteByte b). repeat split.
      * intros X. rewrite <- app_assoc, quoteByte_scan, IHs by exact Hlow.
        reflexivity.
      * rewrite quoteByte_unquote, IHu by exact Hlow. reflexivity.
      * rewrite length_app.
        assert (1 <= List.length (quoteByte b))%nat; [|lia].
        unfold quoteByte, json.escapeByte.
        repeat match goal with
               | |- context [if ?c then _ else _] => destruct c
               end; cbn; lia.
    + destruct (utf8.DecodeRune (b :: rest)) as [r size] eqn:Hdec.
      destruct ((r =? utf8.RuneError) && (size =? 1)%nat) eqn:Herr;
        [discriminate|].
      destruct (DecodeRune_multibyte b rest r size ltac:(lia) Hdec
                  (not_error_pair _ _ Herr))
        as (chunk & rest' & Hsplit & Hlen & Hhi & Henc & Hdec').
      rewrite Hsplit in *. subst size.
      rewrite skipn_chunk in *. rewrite firstn_chunk.
      assert (Hcl : (1 <= List.length chunk)%nat).
      { destruct chunk; [|cbn; lia]. exfalso. exact (EncodeRune_nonempty r Henc). }
      assert (Hrest : (List.length (chunk ++ rest') = List.length chunk + List.length rest')%nat)
        by apply length_app.
      assert (Hbr : (List.length (chunk ++ rest') = S (List.length rest))%nat)
        by (rewrite <- Hsplit; reflexivity).
      destruct (IH rest' f1 fv f2) as (IHs & IHu & IHl); try lia; [exact Hvalid|].
      assert (Hcne : chunk <> []) by (intros ->; cbn in Hcl; lia).
      destruct ((r =? 8232) || (r =? 8233)) eqn:Hsep.
      * assert (Hr : r = 8232 \/ r = 8233).
        { apply orb_true_iff in Hsep. destruct Hsep as [E|E];
            apply Z.eqb_eq in E; auto. }
        destruct (separator_escape r chunk f2 Hr Henc) as [Hu Hs].
        repeat split.
        -- intros X. rewrite <- app_comm_cons, <- app_assoc, <- app_comm_cons.
           rewrite Hs, IHs. reflexivity.
        -- rewrite Hu, IHu. reflexivity.
        -- cbn [List.length]. rewrite (length_app (bytes "u202")).
           change (List.length (bytes "u202")) with 4%nat. cbn [List.length].
           assert (List.length chunk <= 4)%nat; [|lia].
           rewrite <- Henc. destruct Hr as [-> | ->]; cbn; lia.
      * repeat split.
        -- intros X. rewrite <- app_assoc.
           rewrite (scanString_plain chunk _ (high_chunk_plain _ Hhi)), IHs.
           reflexivity.
        -- rewrite (unquoteLoop_chunk chunk r _ f2 Hcne Hhi Henc (Hdec' _)), IHu.
           reflexivity.
        -- rewrite !length_app. lia.
Qed.

Lemma quote_roundtrip s :
  utf8.Valid s = true ->
  (forall X, json.scanString (json.quote s ++ dquote :: X) = Some (json.quote s, X))
  /\ json.unquote (json.quote s) = Some s.
Proof.
  intros Hv. unfold json.quote, json.unquote, utf8.Valid in *.
  destruct (quoteLoop_roundtrip (List.length s) s (List.length s) (List.length s)
              (List.length s) ltac:(lia) ltac:(lia) ltac:(lia) ltac:(lia) Hv)
    as (Hs & _ & Hl).
  split; [exact Hs|].
  apply (quoteLoop_roundtrip (List.length s) s (List.length s) (List.length s));
    auto.
Qed.

(** ** The parser on the encoder's text *)

Lemma skipSpace_stop c tail :
  json.isSpace c = false -> json.skipSpace (c :: tail) = c :: tail.
Proof. intros H. cbn [json.skipSpace]. now rewrite H. Qed.

Lemma skipSpace_spaces k : forall tail,
  json.skipSpace (List.concat (repeat [SP; SP] k) ++ tail) = json.skipSpace tail.
Proof. induction k as [|k IH]; intros tail; [reflexivity|]. cbn. apply IH. Qed.

Lemma skipSpace_newline k tail :
  json.skipSpace (json.newline k ++ tail) = json.skipSpace tail.
Proof. unfold json.newline. cbn. apply skipSpace_spaces. Qed.

Lemma delimited_comma r : delimited (","%char :: r).
Proof. exists ","%char, r. auto. Qed.

Lemma delimited_newline k r : delimited (json.newline k ++ r).
Proof. unfold json.newline. eexists _, _. split; [reflexivity|auto]. Qed.

Lemma spanDigits_json ds rest :
  Forall (fun c => isDigit c = true) ds ->
  (forall c r, rest = c :: r -> isDigit c = false) ->
  json.spanDigits (ds ++ rest) = (ds, rest).
Proof. exact (spanDigits_app ds rest). Qed.

Lemma scanFrac_none c r :
  (c =? ".")%char = false -> json.scanFrac (c :: r) = Some ([], c :: r).
Proof. intros H. unfold json.scanFrac. now rewrite H. Qed.

Lemma scanExp_none c r :
  ((c =? "e") || (c =? "E"))%char = false ->
  json.scanExp (c :: r) = Some ([], c :: r).
Proof. intros H. unfold json.scanExp. now rewrite H. Qed.

Lemma scanNumber_FormatInt n tail :
  int64 n -> delimited tail ->
  json.scanNumber (strconv.FormatInt n ++ tail) = Some (strconv.FormatInt n, tail)
  /\ exists c r, strconv.FormatInt n = c :: r
                 /\ ((c =? "-")%char || isDigit c) = true
                 /\ json.isSpace c = false
                 /\ (c =? "[")%char = false /\ (c =? "{")%char = false
                 /\ (c =? dquote)%char = false.
Proof.
  intros Hn (c & r & -> & Hc).
  destruct (FormatInt_shape n Hn) as (sign & d & ds & Heq & Hsign & Hdig & Hzero & _).
  pose proof (Forall_inv Hdig) as Hd. cbn beta in Hd.
  pose proof (Forall_inv_tail Hdig) as Hds.
  assert (Hcd : isDigit c = false) by (destruct Hc as [-> | ->]; reflexivity).
  assert (Hcdot : (c =? ".")%char = false) by (destruct Hc as [-> | ->]; reflexivity).
  assert (Hce : ((c =? "e") || (c =? "E"))%char = false)
    by (destruct Hc as [-> | ->]; reflexivity).
  assert (Hdm : (d =? "-")%char = false).
  { destruct (Ascii.eqb_spec d "-") as [->|]; [discriminate Hd|reflexivity]. }
  assert (Htail : json.scanNumber ((d :: ds) ++ c :: r) = Some (d :: ds, c :: r)).
  { unfold json.scanNumber. cbn [app]. rewrite Hdm, Hd.
    destruct (Ascii.eqb_spec d "0") as [->|Hnz].
    - rewrite (Hzero eq_refl). cbn [app].
      rewrite (scanFrac_none _ _ Hcdot), (scanExp_none _ _ Hce). reflexivity.
    - rewrite spanDigits_json; [|exact Hds|].
      + rewrite (scanFrac_none _ _ Hcdot), (scanExp_none _ _ Hce).
        cbn [app]. now rewrite !app_nil_r.
      + intros c0 r0 E. now injection E as <- _. }
  assert (Hdprops : json.isSpace d = false /\ (d =? "[")%char = false
                    /\ (d =? "{")%char = false /\ (d =? dquote)%char = false).
  { unfold isDigit in Hd. apply andb_true_iff in Hd.
    repeat split;
      match goal with
      | |- json.isSpace _ = false =>
          unfold json.isSpace;
          repeat (apply orb_false_iff; split)
      | _ => idtac
      end;
      apply Ascii.eqb_neq; intros ->; vm_compute in Hd; destruct Hd; discriminate. }
  destruct Hdprops as (Hsp & Hb1 & Hb2 & Hb3).
  rewrite Heq. destruct Hsign as [-> | ->].
  - cbn [app] in *. split; [exact Htail|].
    exists d, ds. rewrite Hd, orb_true_r. auto 10.
  - split.
    + change (["-"%char] ++ d :: ds) with ("-"%char :: (d :: ds)).
      cbn [app]. unfold json.scanNumber.
      change ("-" =? "-")%char with true. cbv iota.
      unfold json.scanNumber in Htail. cbn [app] in Htail. rewrite Hdm in Htail.
      destruct (isDigit d); [|discriminate].
      destruct (if (d =? "0")%char then _ else _) as [int s2].
      destruct (json.scanFrac s2) as [[frac s3]|]; [|discriminate].
      destruct (json.scanExp s3) as [[exp s4]|]; [|discriminate].
      injection Htail as <- <-. reflexivity.
    + exists "-"%char, (d :: ds). repeat split.
Qed.

Lemma skipSpace_SP tail : json.skipSpace (SP :: tail) = json.skipSpace tail.
Proof. reflexivity. Qed.

Lemma parseValue_number f d n tail :
  int64 n -> delimited tail ->
  json.parseValue (S f) d (SP :: strconv.FormatInt n ++ tail)
  = Some (json.Number (strconv.FormatInt n), tail).
Proof.
  intros Hn Ht. destruct (scanNumber_FormatInt n tail Hn Ht)
    as (Hscan & c & r & Heq & Hnum & Hsp & Hb1 & Hb2 & Hb3).
  cbn [json.parseValue]. rewrite skipSpace_SP.
  rewrite Heq in *. cbn [app] in *. rewrite (skipSpace_stop _ _ Hsp).
  cbv beta iota. rewrite Hb1, Hb2, Hb3, Hnum, Hscan. reflexivity.
Qed.

Lemma parseValue_string f d raw tail :
  (forall X, json.scanString (raw ++ dquote :: X) = Some (raw, X)) ->
  json.parseValue (S f) d (SP :: dquote :: raw ++ dquote :: tail)
  = Some (json.Str raw, tail).
Proof.
  intros Hscan. cbn [json.parseValue]. rewrite skipSpace_SP.
  rewrite skipSpace_stop by reflexivity. cbv beta iota.
  change (dquote =? "[")%char with false. change (dquote =? "{")%char with false.
  change (dquote =? dquote)%char with true. cbv iota.
  now rewrite Hscan.
Qed.

Lemma parseValue_bool f d (b : bool) tail :
  json.parseValue (S f) d
    (SP :: (if b then bytes "true" else bytes "false") ++ tail)
  = Some (json.Boolean b, tail).
Proof. destruct b; reflexivity. Qed.

(** One member of an object in the encoder's text, [vr] being the text
    of its value and what follows. *)
Lemma parseMembers_member pv n k key v vr rest :
  Forall plain key ->
  pv (SP :: vr) = Some (v, rest) ->
  json.parseMembers pv (S n)
    (json.newline k ++ dquote :: key ++ dquote :: ":"%char :: SP :: vr)
  = match json.skipSpace rest with
    | c :: r4 =>
        if (c =? ",")%char then
          match json.parseMembers pv n r4 with
          | Some (ms, r5) => Some ((key, v) :: ms, r5)
          | None => None
          end
        else if (c =? "}")%char then Some ([(key, v)], r4)
        else None
    | [] => None
    end.
Proof.
  intros Hkey Hv. cbn [json.parseMembers].
  rewrite skipSpace_newline, skipSpace_stop by reflexivity.
  cbv beta iota. change (dquote =? dquote)%char with true. cbn [negb]. cbv iota.
  rewrite (scanString_closed key _ Hkey).
  rewrite skipSpace_stop by reflexivity. cbv beta iota.
  change (":" =? ":")%char with true. cbn [negb]. cbv iota.
  rewrite Hv. reflexivity.
Qed.

Lemma parseValue_newline f d k s :
  json.parseValue (S f) d (json.newline k ++ s) = json.parseValue (S f) d s.
Proof.
  cbn [json.parseValue]. now rewrite skipSpace_newline.
Qed.

Lemma parseValue_object f d k c r :
  d < json.maxNestingDepth -> json.isSpace c = false -> (c =? "}")%char = false ->
  json.parseValue (S f) d ("{"%char :: json.newline k ++ c :: r)
  = match json.parseMembers (json.parseValue f (d + 1)) f
            (json.newline k ++ c :: r) with
    | Some (ms, r2) => Some (json.Object ms, r2)
    | None => None
    end.
Proof.
  intros Hd Hc Hb. cbn [json.parseValue].
  rewrite skipSpace_stop by reflexivity. cbv beta iota.
  change ("{" =? "[")%char with false. change ("{" =? "{")%char with true.
  cbv iota. replace (json.maxNestingDepth <=? d) with false
    by (symmetry; apply Z.leb_gt; exact Hd).
  rewrite skipSpace_newline, (skipSpace_stop _ _ Hc). cbv beta iota.
  now rewrite Hb.
Qed.

Lemma plain_bytes_id : Forall plain (bytes "id").
Proof. repeat constructor; try discriminate; vm_compute; discriminate. Qed.

Lemma plain_bytes_title : Forall plain (bytes "title").
Proof. repeat constructor; try discriminate; vm_compute; discriminate. Qed.

Lemma plain_bytes_done : Forall plain (bytes "done").
Proof. repeat constructor; try discriminate; vm_compute; discriminate. Qed.

Lemma plain_bytes_deadline : Forall plain (bytes "deadline").
Proof. repeat constructor; try discriminate; vm_compute; discriminate. Qed.

Lemma encodeTask_storable t :
  storable t -> encodeTask t = Some (taskValue t).
Proof.
  intros (_ & _ & Hm). unfold encodeTask.
  now rewrite (appendStrictRFC3339_ok _ Hm).
Qed.

Lemma encodeTasks_storable tasks :
  Forall storable tasks -> encodeTasks tasks = Some (map taskValue tasks).
Proof.
  intros H. induction H as [|t tasks Ht _ IH]; [reflexivity|].
  cbn [encodeTasks map]. now rewrite (encodeTask_storable t Ht), IH.
Qed.

#[local] Opaque json.newline bytes strconv.FormatInt json.quote time.formatRFC3339.

(** The parser reads the text of a task's object back. *)
Lemma parseValue_task t f tail :
  storable t -> (5 <= f)%nat ->
  json.parseValue f 1 (json.newline 1 ++ json.printIndent 1 (taskValue t) ++ tail)
  = Some (taskValue t, tail).
Proof.
  intros (Hid & Htitle & Hdl) Hf.
  destruct f as [|f]; [lia|].
  destruct (quote_roundtrip (bytes (Title t)) Htitle) as [Hscan _].
  pose proof (plain_formatRFC3339 _ Hdl) as Hplain.
  rewrite parseValue_newline.
  unfold taskValue. cbn [json.printIndent].
  repeat (rewrite <- app_assoc || rewrite <- app_comm_cons || rewrite app_nil_l).
  rewrite parseValue_object by reflexivity.
  destruct f as [|[|[|[|f]]]]; try lia.
  set (pv := json.parseValue (S (S (S (S f)))) (1 + 1)).
  (* id *)
  erewrite parseMembers_member;
    [|exact plain_bytes_id
     |apply parseValue_number; [exact Hid|apply delimited_comma]].
  rewrite skipSpace_stop by reflexivity. cbv beta iota.
  change ("," =? ",")%char with true. cbv iota.
  (* title *)
  erewrite parseMembers_member;
    [|exact plain_bytes_title|apply parseValue_string; exact Hscan].
  rewrite skipSpace_stop by reflexivity. cbv beta iota.
  change ("," =? ",")%char with true. cbv iota.
  (* done *)
  erewrite parseMembers_member;
    [|exact plain_bytes_done|apply parseValue_bool].
  rewrite skipSpace_stop by reflexivity. cbv beta iota.
  change ("," =? ",")%char with true. cbv iota.
  (* deadline *)
  erewrite parseMembers_member;
    [|exact plain_bytes_deadline
     |apply parseValue_string; intros X; apply scanString_closed; exact Hplain].
  rewrite skipSpace_newline.
  rewrite skipSpace_stop by reflexivity. cbv beta iota.
  change ("}" =? ",")%char with false. change ("}" =? "}")%char with true.
  cbv iota. reflexivity.
Qed.

#[local] Transparent json.newline bytes strconv.FormatInt json.quote time.formatRFC3339.

Lemma printIndent_array depth e es :
  json.printIndent depth (json.Array (e :: es))
  = "["%char :: json.newline (S depth) ++ json.printIndent (S depth) e
      ++ moreElements (S depth) es ++ json.newline depth ++ ["]"%char].
Proof.
  cbn [json.printIndent]. do 4 f_equal.
  induction es as [|e' es IH]; [reflexivity|].
  cbn [moreElements]. now rewrite <- IH.
Qed.

Lemma taskValue_head t :
  exists r, json.printIndent 1 (taskValue t) = "{"%char :: r
            /\ (4 <= List.length r)%nat.
Proof.
  unfold taskValue. cbn [json.printIndent]. eexists. split; [reflexivity|].
  rewrite length_app. cbn [List.length]. rewrite length_app. cbn [List.length]. lia.
Qed.

Lemma parseValue_array f d k c r :
  d < json.maxNestingDepth -> json.isSpace c = false -> (c =? "]")%char = false ->
  json.parseValue (S f) d ("["%char :: json.newline k ++ c :: r)
  = match json.parseElements (json.parseValue f (d + 1)) f
            (json.newline k ++ c :: r) with
    | Some (vs, r2) => Some (json.Array vs, r2)
    | None => None
    end.
Proof.
  intros Hd Hc Hb. cbn [json.parseValue].
  rewrite skipSpace_stop by reflexivity. cbv beta iota.
  change ("[" =? "[")%char with true.
  cbv iota. replace (json.maxNestingDepth <=? d) with false
    by (symmetry; apply Z.leb_gt; exact Hd).
  rewrite skipSpace_newline, (skipSpace_stop _ _ Hc). cbv beta iota.
  now rewrite Hb.
Qed.

Lemma parseElements_tasks f tasks : forall n t tail,
  Forall storable (t :: tasks) -> (5 <= f)%nat -> (List.length tasks < n)%nat ->
  json.parseElements (json.parseValue f 1) n
    (json.newline 1 ++ json.printIndent 1 (taskValue t)
       ++ moreElements 1 (map taskValue tasks)
       ++ json.newline 0 ++ "]"%char :: tail)
  = Some (map taskValue (t :: tasks), tail).
Proof.
  induction tasks as [|t' tasks IH]; intros n t tail Hall Hf Hn;
    (destruct n as [|n]; [cbn in Hn; lia|]);
    pose proof (Forall_inv Hall) as Ht;
    cbn [json.parseElements]; rewrite (parseValue_task t f _ Ht Hf).
  - cbn [map moreElements app]. rewrite skipSpace_newline.
    rewrite skipSpace_stop by reflexivity. reflexivity.
  - cbn [map moreElements]. rewrite <- app_comm_cons.
    rewrite skipSpace_stop by reflexivity. cbv beta iota.
    change ("," =? ",")%char with true. cbv iota.
    rewrite <- !app_assoc.
    rewrite (IH n t' tail (Forall_inv_tail Hall) Hf); [reflexivity|].
    cbn [List.length] in Hn. lia.
Qed.

Lemma moreElements_length depth es :
  (List.length es <= List.length (moreElements depth es))%nat.
Proof.
  induction es as [|e es IH]; [reflexivity|].
  cbn [moreElements List.length]. rewrite !length_app. lia.
Qed.

(** The parser reads the text of a collection back. *)
Lemma Parse_tasks tasks :
  Forall storable tasks ->
  json.Parse (json.printIndent 0 (json.Array (map taskValue tasks)))
  = Some (json.Array (map taskValue tasks)).
Proof.
  intros Hall. destruct tasks as [|t tasks]; [reflexivity|].
  cbn [map]. rewrite printIndent_array. unfold json.Parse.
  destruct (taskValue_head t) as (r & Hr & Hlen).
  cbn [List.length].
  set (f := S (List.length _)).
  assert (Hfuel : (5 <= f /\ List.length tasks < f)%nat).
  { subst f. rewrite !length_app, Hr.
    pose proof (moreElements_length 1 (map taskValue tasks)) as Hm.
    rewrite length_map in Hm. cbn [List.length]. lia. }
  clearbody f.
  rewrite Hr. rewrite <- app_comm_cons.
  rewrite parseValue_array by reflexivity.
  rewrite app_comm_cons, <- Hr. change (0 + 1) with 1.
  rewrite (parseElements_tasks f tasks f t [] Hall); [reflexivity|lia|lia].
Qed.

(** ** The decoder on the encoder's value *)

Section Decoding.

Variable lenient : list ascii -> option time.Time.

Lemma decodeTask_taskValue t saved :
  storable t -> decodeTask lenient (taskValue t) saved = inl (t, saved).
Proof.
  intros (Hid & Htitle & Hdl).
  destruct (FormatInt_shape (ID t) Hid) as (_ & _ & _ & _ & _ & _ & _ & Hint).
  destruct (quote_roundtrip (bytes (Title t)) Htitle) as [_ Hunq].
  pose proof (parseRFC3339_formatRFC3339 _ Hdl) as Htime.
  unfold taskValue, decodeTask. cbn [decodeMembers].
  change (json.unquote (bytes "id")) with (Some (bytes "id")).
  change (json.unquote (bytes "title")) with (Some (bytes "title")).
  change (json.unquote (bytes "done")) with (Some (bytes "done")).
  change (json.unquote (bytes "deadline")) with (Some (bytes "deadline")).
  cbv iota beta.
  change (lookupField (bytes "id")) with (Some fID).
  change (lookupField (bytes "title")) with (Some fTitle).
  change (lookupField (bytes "done")) with (Some fDone).
  change (lookupField (bytes "deadline")) with (Some fDeadline).
  cbv iota beta.
  unfold bind, decodeInt, decodeString, decodeBool, decodeTime,
    parseStrictRFC3339, ret.
  rewrite Hint, Hunq, Htime. cbn [ID Title Done Deadline zeroTask].
  unfold gostring, bytes. rewrite string_of_list_ascii_of_string.
  now destruct t.
Qed.

Lemma decodeElements_taskValues tasks : forall saved,
  Forall storable tasks ->
  decodeElements lenient (map taskValue tasks) saved = inl (tasks, saved).
Proof.
  induction tasks as [|t tasks IH]; intros saved Hall; [reflexivity|].
  cbn [map decodeElements]. unfold bind at 1.
  rewrite (decodeTask_taskValue t saved (Forall_inv Hall)).
  unfold bind at 1. rewrite (IH saved (Forall_inv_tail Hall)). reflexivity.
Qed.

(** [Unmarshal] undoes [MarshalIndent] on storable tasks. *)
Lemma Unmarshal_MarshalIndent tasks :
  Forall storable tasks ->
  exists data, MarshalIndent tasks = inl data
               /\ Unmarshal lenient data = inl tasks.
Proof.
  intros Hall. unfold MarshalIndent. rewrite (encodeTasks_storable _ Hall).
  eexists. split; [reflexivity|].
  unfold Unmarshal. rewrite (Parse_tasks _ Hall). cbn [decodeTasks].
  now rewrite (decodeElements_taskValues tasks None Hall).
Qed.

(** C2 (as amended).  For a collection of storable tasks and a disk
    that takes the write, [saveTasks] succeeds and [loadTasks] on the
    disk it leaves returns the collection: the same identifiers,
    titles, completion flags and deadlines in the same order. *)
Theorem save_load_roundtrip (d : os.Disk) (tasks : list Task) :
  Forall storable tasks ->
  os.writeFails d = None ->
  exists d', saveTasks d tasks = (d', None)
             /\ loadTasks lenient d' = inl tasks.
Proof.
  intros Hall Hw. destruct (Unmarshal_MarshalIndent tasks Hall) as (data & Hm & Hu).
  exists (os.mkDisk (os.Content data) None). split.
  - unfold saveTasks, os.WriteFile. now rewrite Hm, Hw.
  - unfold loadTasks, os.ReadFile. cbn [os.tasks_txt]. now rewrite Hu.
Qed.

End Decoding.

Lemma save_load_roundtrip_witness :
  let tasks := [mkTask 1 "Buy milk" true time.zero;
                mkTask 2 "Call <dentist>" false (parseDeadline "2024-03-15")] in
  exists d', saveTasks (os.mkDisk os.Missing None) tasks = (d', None)
             /\ loadTasks strictOnly d' = inl tasks.
Proof.
  intros tasks.
  apply (save_load_roundtrip strictOnly (os.mkDisk os.Missing None) tasks);
    [|reflexivity].
  repeat constructor; vm_compute; intuition discriminate.
Defined.

(** C2 fails as stated for a title that is not valid UTF-8: the encoder
    replaces each invalid byte by U+FFFD, so the collection read back
    has another title. *)
Lemma save_load_invalid_utf8 :
  let tasks := [mkTask 1 invalidTitle false time.zero] in
  let d' := fst (saveTasks (os.mkDisk os.Missing None) tasks) in
  snd (saveTasks (os.mkDisk os.Missing None) tasks) = None
  /\ loadTasks strictOnly d'
     = inl [mkTask 1 (String "239" (String "191" (String "189" ""))) false
              time.zero]
  /\ loadTasks strictOnly d' <> inl tasks.
Proof.
  intros tasks d'. split; [reflexivity|]. split; [vm_compute; reflexivity|].
  vm_compute. discriminate.
Qed.

(** ** Identifiers *)

Lemma wrap64_id z : int64 z -> wrap64 z = z.
Proof.
  unfold int64, MinInt64, MaxInt64, wrap64. intros H.
  change (2 ^ 63) with 9223372036854775808.
  change (2 ^ 64) with 18446744073709551616.
  rewrite Z.mod_small; lia.
Qed.

Lemma maxLoop_spec rest : forall a,
  a <= maxLoop a rest /\
  (forall t, In t rest -> ID t <= maxLoop a rest) /\
  (maxLoop a rest = a \/ exists t, In t rest /\ ID t = maxLoop a rest).
Proof.
  induction rest as [|t rest IH]; intros a; simpl.
  - split; [lia|]. split; [intros t []|now left].
  - destruct (Z.gtb_spec (ID t) a) as [Hgt|Hle].
    + destruct (IH (ID t)) as (H1 & H2 & H3). split; [lia|]. split.
      * intros x [<-|Hx]; [exact H1|now apply H2].
      * right. destruct H3 as [->|(x & Hx & Hid)]; [exists t; auto|exists x; auto].
    + destruct (IH a) as (H1 & H2 & H3). split; [exact H1|]. split.
      * intros x [<-|Hx]; [lia|now apply H2].
      * destruct H3 as [->|(x & Hx & Hid)]; [now left|right; exists x; auto].
Qed.

Lemma maxLoop_isMaxID t0 rest : isMaxID (t0 :: rest) (maxLoop (ID t0) rest).
Proof.
  destruct (maxLoop_spec rest (ID t0)) as (H1 & H2 & H3). split.
  - destruct H3 as [->|(x & Hx & Hid)]; [exists t0|exists x]; simpl; auto.
  - intros x [<-|Hx]; [exact H1|now apply H2].
Qed.

Lemma isMaxID_unique tasks m m' : isMaxID tasks m -> isMaxID tasks m' -> m = m'.
Proof.
  intros [(t & Ht & <-) Hm] [(t' & Ht' & <-) Hm'].
  specialize (Hm _ Ht'). specialize (Hm' _ Ht). lia.
Qed.

Lemma nextID_spec tasks m :
  priorMax tasks m -> MinInt64 <= m -> m < MaxInt64 -> nextID tasks = m + 1.
Proof.
  intros [[-> ->]|Hmax] Hlo Hhi; [reflexivity|].
  destruct tasks as [|t0 rest].
  - destruct Hmax as [(t & [] & _) _].
  - simpl. rewrite (isMaxID_unique _ _ _ (maxLoop_isMaxID t0 rest) Hmax).
    apply wrap64_id. unfold int64. lia.
Qed.

Lemma priorMax_snoc tasks m t :
  priorMax tasks m -> m < ID t -> priorMax (tasks ++ [t]) (ID t).
Proof.
  intros Hm Hlt. right. split.
  - exists t. split; [apply in_or_app; right; now left|reflexivity].
  - intros x Hx. apply in_app_or in Hx. destruct Hx as [Hx|[<-|[]]]; [|lia].
    destruct Hm as [[-> _]|[_ Hm]]; [destruct Hx|]. specialize (Hm _ Hx). lia.
Qed.

Lemma addAll_ids reqs : forall tasks m,
  priorMax tasks m -> MinInt64 <= m ->
  m + Z.of_nat (List.length reqs) <= MaxInt64 ->
  snd (addAll tasks reqs)
  = map (fun k => m + 1 + Z.of_nat k) (seq 0 (List.length reqs)).
Proof.
  induction reqs as [|[title deadline] reqs IH]; intros tasks m Hm Hlo Hhi.
  - reflexivity.
  - cbn [addAll addTask List.length] in *.
    assert (Hn : nextID tasks = m + 1) by (apply nextID_spec; auto; lia).
    rewrite Hn.
    specialize (IH (tasks ++ [mkTask (m + 1) title false (parseDeadline deadline)])
                  (m + 1)).
    destruct (addAll _ reqs) as [final ids]. cbn [snd] in *.
    rewrite IH.
    + cbn [seq map]. f_equal; [lia|].
      rewrite <- seq_shift, map_map. apply map_ext. intros k. lia.
    + apply (priorMax_snoc tasks m (mkTask (m + 1) title false _)); auto. simpl. lia.
    + lia.
    + lia.
Qed.

Lemma affine_run_sorted m n : forall k,
  StronglySorted Z.lt (map (fun i => m + 1 + Z.of_nat i) (seq k n)).
Proof.
  induction n as [|n IH]; intros k; cbn [seq map]; constructor.
  - apply IH.
  - apply Forall_forall. intros x Hx. apply in_map_iff in Hx.
    destruct Hx as (i & <- & Hi). apply in_seq in Hi. lia.
Qed.

(** C1 (as amended).  For a collection whose largest identifier [m]
    (0 when it is empty) is below the largest [int], [addTask] hands out
    [m + 1] (so 1 on the empty collection) and appends the new task; a
    run of [n] adds with [m + n] still an [int] hands out
    [m + 1, ..., m + n], a strictly increasing sequence. *)
Theorem addTask_identifiers (tasks : list Task) (m : Z) :
  priorMax tasks m -> MinInt64 <= m ->
  (m < MaxInt64 ->
   forall title deadline,
     addTask tasks title deadline
     = (tasks ++ [mkTask (m + 1) title false (parseDeadline deadline)], m + 1))
  /\
  (forall reqs,
     m + Z.of_nat (List.length reqs) <= MaxInt64 ->
     snd (addAll tasks reqs)
     = map (fun k => m + 1 + Z.of_nat k) (seq 0 (List.length reqs))
     /\ StronglySorted Z.lt (snd (addAll tasks reqs))).
Proof.
  intros Hm Hlo. split.
  - intros Hhi title deadline. unfold addTask.
    now rewrite (nextID_spec tasks m Hm Hlo Hhi).
  - intros reqs Hhi. rewrite (addAll_ids reqs tasks m Hm Hlo Hhi).
    split; [reflexivity|apply affine_run_sorted].
Qed.

Lemma addTask_identifiers_witness :
  let tasks := [mkTask 4 "a" false time.zero; mkTask 7 "b" true time.zero;
                mkTask 2 "c" false time.zero] in
  addTask tasks "d" "2024-03-15"
  = (tasks ++ [mkTask 8 "d" false (parseDeadline "2024-03-15")], 8)
  /\ snd (addAll tasks [("d", ""); ("e", "x"); ("f", "")]%string) = [8; 9; 10].
Proof.
  intros tasks.
  assert (Hm : priorMax tasks 7).
  { right. split.
    - exists (mkTask 7 "b" true time.zero). split; [right; left; reflexivity|reflexivity].
    - intros t [<-|[<-|[<-|[]]]]; simpl; lia. }
  assert (Hlo : MinInt64 <= 7) by (unfold MinInt64; lia).
  destruct (addTask_identifiers tasks 7 Hm Hlo) as [H1 H2]. split.
  - apply H1. unfold MaxInt64. lia.
  - destruct (H2 [("d", ""); ("e", "x"); ("f", "")]%string) as [H _].
    + unfold MaxInt64. simpl. lia.
    + exact H.
Defined.

(** C1 fails as stated at the largest [int]: the sum wraps around, and
    the identifier handed out is the smallest [int], below every
    identifier of the collection. *)
Lemma addTask_identifier_wraps :
  let tasks := [mkTask 9223372036854775807 "a" false time.zero] in
  isMaxID tasks 9223372036854775807
  /\ snd (addTask tasks "b" "") = -9223372036854775808
  /\ snd (addTask tasks "b" "") <> 9223372036854775807 + 1
  /\ ~ 9223372036854775807 < snd (addTask tasks "b" "").
Proof.
  intros tasks. split; [|split; [|split]].
  - split.
    + exists (mkTask 9223372036854775807 "a" false time.zero).
      split; [left; reflexivity|reflexivity].
    + intros t [<-|[]]. simpl. lia.
  - reflexivity.
  - vm_compute. discriminate.
  - vm_compute. discriminate.
Qed.

(** ** Removing and completing *)

Lemma deleteLoop_absent tasks id rest : forall i,
  absent id rest -> deleteLoop tasks id i rest = (tasks, false).
Proof.
  induction rest as [|t rest IH]; intros i Habs; simpl; [reflexivity|].
  destruct (Z.eqb_spec (ID t) id) as [Heq|_].
  - exfalso. apply (Habs t); simpl; auto.
  - apply IH. intros x Hx. apply Habs. now right.
Qed.

Lemma markLoop_absent tasks id rest : forall i,
  absent id rest -> markLoop tasks id i rest = (tasks, false).
Proof.
  induction rest as [|t rest IH]; intros i Habs; simpl; [reflexivity|].
  destruct (Z.eqb_spec (ID t) id) as [Heq|_].
  - exfalso. apply (Habs t); simpl; auto.
  - apply IH. intros x Hx. apply Habs. now right.
Qed.

Lemma markDone_absent tasks id :
  absent id tasks -> markDone tasks id = (tasks, false).
Proof. apply markLoop_absent. Qed.

(** C3.  When no task has identifier [id], [deleteTask] and [markDone]
    both report [found = false] and return the collection they were
    given. *)
Theorem not_found_unchanged (tasks : list Task) (id : Z) :
  absent id tasks ->
  deleteTask tasks id = (tasks, false) /\ markDone tasks id = (tasks, false).
Proof.
  intros Habs. split.
  - now apply deleteLoop_absent.
  - now apply markLoop_absent.
Qed.

Lemma not_found_unchanged_witness :
  let tasks := [mkTask 1 "a" false time.zero; mkTask 3 "b" true time.zero] in
  deleteTask tasks 2 = (tasks, false) /\ markDone tasks 2 = (tasks, false).
Proof.
  intros tasks. apply (not_found_unchanged tasks 2).
  intros t [<-|[<-|[]]]; simpl; lia.
Defined.

(** Every collection either has no task with identifier [id], or splits
    at the first such task. *)
Lemma first_match (id : Z) (tasks : list Task) :
  absent id tasks \/
  exists front t back,
    tasks = front ++ t :: back /\ absent id front /\ ID t = id.
Proof.
  induction tasks as [|x tasks IH].
  - left. intros t [].
  - destruct (Z.eq_dec (ID x) id) as [Heq|Hne].
    + right. exists [], x, tasks. repeat split; auto. intros t [].
    + destruct IH as [Habs|(front & t & back & -> & Habs & Hid)].
      * left. intros t [<-|Ht]; auto.
      * right. exists (x :: front), t, back. repeat split; auto.
        intros y [<-|Hy]; auto.
Qed.

Lemma store_middle (pre : list Task) v t back :
  store (List.length pre) v (pre ++ t :: back) = pre ++ v :: back.
Proof.
  unfold store.
  rewrite firstn_app, firstn_all, Nat.sub_diag, firstn_O, app_nil_r.
  replace (S (List.length pre)) with (List.length pre + 1)%nat by lia.
  rewrite skipn_app, skipn_all2 by lia.
  replace (List.length pre + 1 - List.length pre)%nat with 1%nat by lia.
  reflexivity.
Qed.

Lemma markLoop_found id front : forall pre t back,
  absent id front -> ID t = id ->
  markLoop (pre ++ front ++ t :: back) id (List.length pre) (front ++ t :: back)
  = (pre ++ front ++ setDone t :: back, true).
Proof.
  induction front as [|x front IH]; intros pre t back Habs Hid; simpl.
  - rewrite <- Hid, Z.eqb_refl. now rewrite store_middle.
  - destruct (Z.eqb_spec (ID x) id) as [Heq|_].
    + exfalso. apply (Habs x); simpl; auto.
    + specialize (IH (pre ++ [x]) t back).
      rewrite <- !app_assoc, length_app, Nat.add_1_r in IH. simpl in IH.
      apply IH; auto. intros y Hy. apply Habs. now right.
Qed.

Lemma markDone_found id front t back :
  absent id front -> ID t = id ->
  markDone (front ++ t :: back) id = (front ++ setDone t :: back, true).
Proof.
  intros Habs Hid. exact (markLoop_found id front [] t back Habs Hid).
Qed.

Lemma find_first id front t back :
  absent id front -> ID t = id ->
  find (fun x => ID x =? id) (front ++ t :: back) = Some t.
Proof.
  intros Habs Hid. induction front as [|x front IH]; simpl.
  - now rewrite <- Hid, Z.eqb_refl.
  - destruct (Z.eqb_spec (ID x) id) as [Heq|_].
    + exfalso. apply (Habs x); simpl; auto.
    + apply IH. intros y Hy. apply Habs. now right.
Qed.

Lemma find_absent id tasks :
  absent id tasks -> find (fun x => ID x =? id) tasks = None.
Proof.
  intros Habs. induction tasks as [|x tasks IH]; simpl; [reflexivity|].
  destruct (Z.eqb_spec (ID x) id) as [Heq|_].
  - exfalso. apply (Habs x); simpl; auto.
  - apply IH. intros y Hy. apply Habs. now right.
Qed.

Lemma setDone_done t : Done t = true -> setDone t = t.
Proof. destruct t as [i ti d dl]. simpl. now intros ->. Qed.

Lemma setDone_idem t : setDone (setDone t) = setDone t.
Proof. reflexivity. Qed.

Lemma unique_match id front t0 back t :
  NoDup (map ID (front ++ t0 :: back)) ->
  absent id front -> ID t0 = id ->
  In t (front ++ t0 :: back) -> ID t = id -> t = t0.
Proof.
  intros Hnd Habs Hid Hin Ht. apply in_app_or in Hin.
  destruct Hin as [Hin|[Heq|Hin]].
  - exfalso. exact (Habs t Hin Ht).
  - now symmetry.
  - exfalso. rewrite map_app in Hnd. cbn [map] in Hnd.
    apply NoDup_remove_2 in Hnd. apply Hnd. apply in_or_app. right.
    rewrite Hid, <- Ht. now apply in_map.
Qed.

(** C8.  [markDone] is idempotent.  In a collection with unique
    identifiers, as the specification has it, that contains a task
    with identifier [id] which is already done, [markDone] returns the
    collection unchanged with [found = true] (second part).  This
    holds because [markDone] acts on the first task with identifier
    [id]: when that task is done the collection comes back unchanged
    (first part); and on every collection a second [markDone] with the
    same identifier changes nothing more (third part). *)
Theorem markDone_idempotent (tasks : list Task) (id : Z) :
  (forall t, find (fun x => ID x =? id) tasks = Some t -> Done t = true ->
             markDone tasks id = (tasks, true))
  /\ (NoDup (map ID tasks) ->
      forall t, In t tasks -> ID t = id -> Done t = true ->
                markDone tasks id = (tasks, true))
  /\ markDone (fst (markDone tasks id)) id = markDone tasks id.
Proof.
  destruct (first_match id tasks)
    as [Habs|(front & t & back & -> & Habs & Hid)].
  - split; [|split].
    + intros t Hfind. rewrite (find_absent _ _ Habs) in Hfind. discriminate.
    + intros _ t Hin Ht. exfalso. exact (Habs t Hin Ht).
    + rewrite (markDone_absent tasks id Habs). simpl.
      now apply markDone_absent.
  - split; [|split].
    + intros t' Hfind Hdone. rewrite (find_first _ _ _ _ Habs Hid) in Hfind.
      injection Hfind as <-. rewrite (markDone_found _ _ _ _ Habs Hid).
      now rewrite (setDone_done _ Hdone).
    + intros Hnd t' Hin Ht' Hdone.
      rewrite (unique_match id front t back t' Hnd Habs Hid Hin Ht') in Hdone.
      rewrite (markDone_found _ _ _ _ Habs Hid).
      now rewrite (setDone_done _ Hdone).
    + rewrite (markDone_found _ _ _ _ Habs Hid). simpl.
      rewrite (markDone_found id front (setDone t) back Habs Hid).
      now rewrite setDone_idem.
Qed.

Lemma markDone_idempotent_witness :
  let tasks := [mkTask 1 "a" false time.zero; mkTask 2 "b" true time.zero] in
  NoDup (map ID tasks) /\ markDone tasks 2 = (tasks, true).
Proof.
  intros tasks.
  assert (Hnd : NoDup (map ID tasks)).
  { repeat constructor; simpl; intuition discriminate. }
  split; [exact Hnd|].
  apply (proj1 (proj2 (markDone_idempotent tasks 2)) Hnd
           (mkTask 2 "b" true time.zero)); [right; left|..]; reflexivity.
Defined.

(** The second part needs the unique identifiers: in a collection
    outside the invariant, with two tasks of identifier 1 of which the
    second is done, [markDone] completes the first one. *)
Lemma markDone_duplicate_changes :
  let tasks := [mkTask 1 "a" false time.zero; mkTask 1 "b" true time.zero] in
  In (mkTask 1 "b" true time.zero) tasks
  /\ markDone tasks 1
     = ([mkTask 1 "a" true time.zero; mkTask 1 "b" true time.zero], true)
  /\ fst (markDone tasks 1) <> tasks.
Proof.
  intros tasks. split; [right; left; reflexivity|]. split; [reflexivity|].
  simpl. discriminate.
Qed.

(** C9.  [markDone] either finds no task and returns the collection, or
    replaces the first task [t] with identifier [id] by [t] with its
    completion flag set, in place.  So the collection keeps its length
    and order, every task keeps its identifier, title and deadline, and
    every task with another identifier is unchanged. *)
Theorem markDone_frame (tasks : list Task) (id : Z) :
  ((markDone tasks id = (tasks, false) /\ absent id tasks) \/
   exists front t back,
     tasks = front ++ t :: back /\ absent id front /\ ID t = id /\
     markDone tasks id = (front ++ setDone t :: back, true))
  /\ List.length (fst (markDone tasks id)) = List.length tasks
  /\ forall i t, nth_error tasks i = Some t ->
       exists t', nth_error (fst (markDone tasks id)) i = Some t' /\
         ID t' = ID t /\ Title t' = Title t /\ Deadline t' = Deadline t /\
         (ID t <> id -> t' = t) /\ (t' = t \/ t' = setDone t).
Proof.
  destruct (first_match id tasks)
    as [Habs|(front & t & back & -> & Habs & Hid)].
  - rewrite (markDone_absent tasks id Habs).
    split; [left; auto|]. split; [reflexivity|].
    intros i t Ht. exists t. simpl. repeat split; auto.
  - rewrite (markDone_found _ _ _ _ Habs Hid). split.
    + right. exists front, t, back. auto.
    + split; [cbn [fst]; now rewrite !length_app|].
      intros i x Hx. cbn [fst].
      destruct (Nat.lt_ge_cases i (List.length front)) as [Hlt|Hge].
      * rewrite nth_error_app1 in Hx |- * by assumption.
        exists x. repeat split; auto.
      * rewrite nth_error_app2 in Hx |- * by assumption.
        destruct (i - List.length front)%nat as [|k]; simpl in *.
        -- injection Hx as <-. exists (setDone t). repeat split; auto.
           intros Hne. contradiction.
        -- exists x. repeat split; auto.
Qed.

Lemma markDone_frame_witness :
  let tasks := [mkTask 1 "a" false time.zero; mkTask 2 "b" false time.zero;
                mkTask 3 "c" true time.zero] in
  markDone tasks 2
  = ([mkTask 1 "a" false time.zero; mkTask 2 "b" true time.zero;
      mkTask 3 "c" true time.zero], true)
  /\ exists t', nth_error (fst (markDone tasks 2)) 0 = Some t'
                /\ t' = mkTask 1 "a" false time.zero.
Proof.
  intros tasks. split; [reflexivity|].
  destruct (proj2 (proj2 (markDone_frame tasks 2)) 0%nat
              (mkTask 1 "a" false time.zero) eq_refl)
    as (t' & Hnth & _ & _ & _ & Hsame & _).
  exists t'. split; [exact Hnth|]. apply Hsame. simpl. lia.
Defined.

(** ** Loading *)

(** C4.  [loadTasks] returns the empty collection, and no error, when
    [tasks.txt] does not exist; when the file is there and its content
    is not a JSON text, or is one that does not decode into tasks, it
    returns the decoder's error, and [main] reports it and exits with
    status 1 whatever the command. *)
Theorem load_missing_or_corrupt (lenient : list ascii -> option time.Time)
  (d : os.Disk) :
  (os.tasks_txt d = os.Missing -> loadTasks lenient d = inl [])
  /\ (forall data err,
        os.tasks_txt d = os.Content data ->
        Unmarshal lenient data = inr err ->
        loadTasks lenient d = inr err
        /\ forall Args,
             main lenient d Args
             = mkResult 1 [Printf ("Error loading tasks: %v" ++ nl) [argV err]] d)
  /\ (forall data,
        os.tasks_txt d = os.Content data ->
        json.Parse data = None ->
        loadTasks lenient d = inr SyntaxError).
Proof.
  split; [|split].
  - intros H. unfold loadTasks, os.ReadFile. now rewrite H.
  - intros data err H Herr.
    assert (Hl : loadTasks lenient d = inr err).
    { unfold loadTasks, os.ReadFile. rewrite H, Herr. reflexivity. }
    split; [exact Hl|]. intros Args. unfold main. now rewrite Hl.
  - intros data H Hp. unfold loadTasks, os.ReadFile, Unmarshal.
    now rewrite H, Hp.
Qed.

Lemma load_missing_or_corrupt_witness :
  loadTasks strictOnly (os.mkDisk os.Missing None) = inl []
  /\ loadTasks strictOnly (os.mkDisk (os.Content (bytes "[{}")) None)
     = inr SyntaxError
  /\ status (main strictOnly (os.mkDisk (os.Content (bytes "{}")) None)
               ["todo"; "list"]%string) = 1.
Proof.
  split; [|split].
  - apply (proj1 (load_missing_or_corrupt strictOnly (os.mkDisk os.Missing None))).
    reflexivity.
  - apply (proj2 (proj2 (load_missing_or_corrupt strictOnly
                           (os.mkDisk (os.Content (bytes "[{}")) None)))
             (bytes "[{}")); reflexivity.
  - destruct (proj1 (proj2 (load_missing_or_corrupt strictOnly
                              (os.mkDisk (os.Content (bytes "{}")) None)))
                (bytes "{}") UnmarshalTypeError eq_refl eq_refl) as [_ H].
    rewrite H. reflexivity.
Defined.

(** ** Deadlines *)

Lemma parseDeadline_unparsable deadline :
  time.ParseDate deadline = None -> parseDeadline deadline = time.zero.
Proof.
  intros H. unfold parseDeadline. rewrite H. now destruct (deadline =? "")%string.
Qed.

(** C5.  A deadline argument that is not empty and does not parse as a
    date [YYYY-MM-DD] does not make the command fail: [addTask] appends
    the new task with the zero time as its deadline, and the whole run
    of [add] is the run of [add] without a deadline argument. *)
Theorem add_lenient_deadline (lenient : list ascii -> option time.Time)
  (tasks : list Task) (title deadline : string) :
  deadline <> ""%string ->
  time.ParseDate deadline = None ->
  addTask tasks title deadline
  = (tasks ++ [mkTask (nextID tasks) title false time.zero], nextID tasks)
  /\ time.IsZero (Deadline (mkTask (nextID tasks) title false time.zero)) = true
  /\ forall d prog,
       main lenient d [prog; "add"; title; deadline]%string
       = main lenient d [prog; "add"; title]%string.
Proof.
  intros _ Hparse. split; [|split].
  - unfold addTask. now rewrite (parseDeadline_unparsable _ Hparse).
  - reflexivity.
  - intros d prog. unfold main. destruct (loadTasks lenient d) as [loaded|err];
      [|reflexivity].
    cbn -[addTask saveTasks]. unfold addTask.
    now rewrite (parseDeadline_unparsable _ Hparse).
Qed.

Lemma add_lenient_deadline_witness :
  addTask [] "Buy milk" "tomorrow"
  = ([mkTask 1 "Buy milk" false time.zero], 1)
  /\ status (main strictOnly (os.mkDisk os.Missing None)
               ["todo"; "add"; "Buy milk"; "2024-02-30"]%string) = 0.
Proof.
  split.
  - apply (add_lenient_deadline strictOnly [] "Buy milk" "tomorrow");
      [discriminate|reflexivity].
  - rewrite (proj2 (proj2 (add_lenient_deadline strictOnly [] "Buy milk"
                             "2024-02-30" ltac:(discriminate) eq_refl))).
    reflexivity.
Defined.

(** C10.  The date [0001-01-01] parses, to the zero time: [addTask]
    with it builds the very task that [addTask] without a deadline
    builds, the [list] command prints that task without a deadline, and
    the whole run of [add] with it is the run of [add] without a
    deadline argument. *)
Theorem zero_date_is_no_deadline (tasks : list Task) (title : string) :
  time.ParseDate "0001-01-01" = Some time.zero
  /\ addTask tasks title "0001-01-01" = addTask tasks title ""
  /\ (forall t, In t (skipn (List.length tasks)
                        (fst (addTask tasks title "0001-01-01"))) ->
        Deadline t = time.zero
        /\ listLine t
           = Printf ("#%d: %s [%s]%s" ++ nl)
               [argD (nextID tasks); argS title;
                argS (red ++ "Not Done" ++ reset)%string; argS ""])
  /\ (forall lenient d prog,
        main lenient d [prog; "add"; title; "0001-01-01"]%string
        = main lenient d [prog; "add"; title]%string).
Proof.
  split; [reflexivity|]. split; [reflexivity|]. split.
  - intros t. unfold addTask. cbn [fst].
    rewrite skipn_app, skipn_all, Nat.sub_diag. cbn [skipn app].
    intros [<-|[]]. split; reflexivity.
  - intros lenient d prog. unfold main.
    destruct (loadTasks lenient d) as [loaded|err]; reflexivity.
Qed.

Lemma zero_date_is_no_deadline_witness :
  let t := mkTask 1 "Buy milk" false time.zero in
  fst (addTask [] "Buy milk" "0001-01-01") = [t]
  /\ listLine t
     = Printf ("#%d: %s [%s]%s" ++ nl)
         [argD 1; argS "Buy milk"; argS (red ++ "Not Done" ++ reset)%string;
          argS ""].
Proof.
  intros t. split; [reflexivity|].
  apply (proj1 (proj2 (proj2 (zero_date_is_no_deadline [] "Buy milk"))) t).
  left. reflexivity.
Defined.

(** ** Titles *)

(** C6 (as amended).  [add] stores the title argument as it is given:
    the task it appends has that title, so a collection of tasks with
    non-empty titles stays one exactly when the argument is not empty.
    The command is refused only when the title argument is missing. *)
Theorem add_keeps_title (tasks : list Task) (title deadline : string) :
  (exists t, fst (addTask tasks title deadline) = tasks ++ [t]
             /\ Title t = title)
  /\ (Forall nonEmptyTitle tasks ->
      (title <> ""%string <->
       Forall nonEmptyTitle (fst (addTask tasks title deadline))))
  /\ (forall prog,
        dispatch "add" tasks [prog; "add"]%string
        = Exit 1 (Println "Error: Task title is required" :: printUsage))
  /\ (forall prog,
        dispatch "add" tasks [prog; "add"; title]%string
        = Go (fst (addTask tasks title ""))
             [Printf ("%sAdded task #%d:%s %s" ++ nl)
                [argS green; argD (nextID tasks); argS reset; argS title]]).
Proof.
  split; [|split; [|split]].
  - eexists. split; reflexivity.
  - intros Hall. unfold addTask. cbn [fst]. rewrite Forall_app. split.
    + intros Hne. split; [exact Hall|]. constructor; [exact Hne|constructor].
    + intros [_ H]. now inversion H.
  - reflexivity.
  - reflexivity.
Qed.

Lemma add_keeps_title_witness :
  let tasks := [mkTask 1 "a" false time.zero] in
  Forall nonEmptyTitle (fst (addTask tasks "b" "")).
Proof.
  intros tasks.
  apply (proj1 (proj1 (proj2 (add_keeps_title tasks "b" ""))
                  ltac:(repeat constructor; discriminate))).
  discriminate.
Defined.

(** C6 fails as stated: [add] with an empty title argument succeeds,
    and the store then holds a task whose title is the empty string. *)
Lemma add_empty_title :
  let r := main strictOnly (os.mkDisk os.Missing None)
             ["todo"; "add"; ""]%string in
  status r = 0
  /\ loadTasks strictOnly (disk r) = inl [mkTask 1 "" false time.zero]
  /\ ~ Forall nonEmptyTitle (fst (addTask [] "" "")).
Proof.
  intros r. split; [vm_compute; reflexivity|]. split; [vm_compute; reflexivity|].
  intros H. inversion H as [|t l Ht _]. now apply Ht.
Qed.

(** ** Exit status of [list] and [clear] *)

(** C7 (as amended).  [list] exits with status 0 exactly when loading
    succeeds, and never touches the disk; [clear] exits with status 0
    exactly when loading succeeds and the write of the emptied
    collection does; otherwise both exit with status 1. *)
Theorem list_clear_status (lenient : list ascii -> option time.Time)
  (d : os.Disk) (prog : string) (more : list string) :
  status (main lenient d (prog :: "list" :: more)%string)
  = (match loadTasks lenient d with inl _ => 0 | inr _ => 1 end)
  /\ disk (main lenient d (prog :: "list" :: more)%string) = d
  /\ status (main lenient d (prog :: "clear" :: more)%string)
     = (match loadTasks lenient d, os.writeFails d with
        | inl _, None => 0
        | _, _ => 1
        end)
  /\ (status (main lenient d (prog :: "clear" :: more)%string) = 0 ->
      os.tasks_txt (disk (main lenient d (prog :: "clear" :: more)%string))
      = os.Content (bytes "[]")).
Proof.
  unfold main. destruct (loadTasks lenient d) as [tasks|err].
  - split; [|split; [|split]].
    + cbn. now destruct tasks.
    + cbn. now destruct tasks.
    + cbn. unfold os.WriteFile. now destruct (os.writeFails d).
    + cbn. unfold os.WriteFile. destruct (os.writeFails d); cbn;
        [discriminate|reflexivity].
  - cbn. repeat split. discriminate.
Qed.

(** C7 fails as stated: [list] exits with status 1 on a store that
    cannot be decoded or read, and [clear] does when the store cannot
    be read or written. *)
Lemma list_clear_exit_nonzero :
  status (main strictOnly (os.mkDisk (os.Content (bytes "[{}")) None)
            ["todo"; "list"]%string) = 1
  /\ status (main strictOnly (os.mkDisk os.Unreadable None)
               ["todo"; "list"]%string) = 1
  /\ status (main strictOnly (os.mkDisk (os.Content (bytes "oops")) None)
               ["todo"; "clear"]%string) = 1
  /\ status (main strictOnly (os.mkDisk os.Missing (Some os.Missing))
               ["todo"; "clear"]%string) = 1.
Proof. repeat split. Qed.

Lemma list_clear_status_witness :
  let d := os.mkDisk os.Missing None in
  status (main strictOnly d ["todo"; "list"]%string) = 0
  /\ status (main strictOnly d ["todo"; "clear"]%string) = 0
  /\ os.tasks_txt (disk (main strictOnly d ["todo"; "clear"]%string))
     = os.Content (bytes "[]").
Proof.
  intros d.
  destruct (list_clear_status strictOnly d "todo" []) as (Hl & _ & Hc & Hw).
  split; [exact Hl|]. split; [exact Hc|]. apply Hw. exact Hc.
Defined.

(** * Further properties *)

(** ** Further properties of the task operations *)

Lemma remove_middle (pre : list Task) t back :
  firstn (List.length pre) (pre ++ t :: back)
    ++ skipn (S (List.length pre)) (pre ++ t :: back)
  = pre ++ back.
Proof.
  rewrite firstn_app, firstn_all, Nat.sub_diag, firstn_O, app_nil_r.
  replace (S (List.length pre)) with (List.length pre + 1)%nat by lia.
  rewrite skipn_app, skipn_all2 by lia.
  replace (List.length pre + 1 - List.length pre)%nat with 1%nat by lia.
  reflexivity.
Qed.

Lemma deleteLoop_found id front : forall pre t back,
  absent id front -> ID t = id ->
  deleteLoop (pre ++ front ++ t :: back) id (List.length pre) (front ++ t :: back)
  = (pre ++ front ++ back, true).
Proof.
  induction front as [|x front IH]; intros pre t back Habs Hid;
    cbn [deleteLoop app].
  - rewrite <- Hid, Z.eqb_refl. now rewrite remove_middle.
  - destruct (Z.eqb_spec (ID x) id) as [Heq|_].
    + exfalso. apply (Habs x); simpl; auto.
    + specialize (IH (pre ++ [x]) t back).
      rewrite <- !app_assoc, length_app, Nat.add_1_r in IH. simpl in IH.
      apply IH; auto. intros y Hy. apply Habs. now right.
Qed.

Lemma deleteTask_found id front t back :
  absent id front -> ID t = id ->
  deleteTask (front ++ t :: back) id = (front ++ back, true).
Proof.
  intros Habs Hid. exact (deleteLoop_found id front [] t back Habs Hid).
Qed.

Lemma removeFirst_absent id tasks : absent id tasks -> removeFirst id tasks = tasks.
Proof.
  induction tasks as [|x tasks IH]; intros Habs; simpl; [reflexivity|].
  destruct (Z.eqb_spec (ID x) id) as [Heq|_].
  - exfalso. apply (Habs x); simpl; auto.
  - f_equal. apply IH. intros y Hy. apply Habs. now right.
Qed.

Lemma removeFirst_found id front t back :
  absent id front -> ID t = id ->
  removeFirst id (front ++ t :: back) = front ++ back.
Proof.
  intros Habs Hid. induction front as [|x front IH]; simpl.
  - now rewrite <- Hid, Z.eqb_refl.
  - destruct (Z.eqb_spec (ID x) id) as [Heq|_].
    + exfalso. apply (Habs x); simpl; auto.
    + f_equal. apply IH. intros y Hy. apply Habs. now right.
Qed.

Lemma markFirst_absent id tasks : absent id tasks -> markFirst id tasks = tasks.
Proof.
  induction tasks as [|x tasks IH]; intros Habs; simpl; [reflexivity|].
  destruct (Z.eqb_spec (ID x) id) as [Heq|_].
  - exfalso. apply (Habs x); simpl; auto.
  - f_equal. apply IH. intros y Hy. apply Habs. now right.
Qed.

Lemma markFirst_found id front t back :
  absent id front -> ID t = id ->
  markFirst id (front ++ t :: back) = front ++ setDone t :: back.
Proof.
  intros Habs Hid. induction front as [|x front IH]; simpl.
  - now rewrite <- Hid, Z.eqb_refl.
  - destruct (Z.eqb_spec (ID x) id) as [Heq|_].
    + exfalso. apply (Habs x); simpl; auto.
    + f_equal. apply IH. intros y Hy. apply Habs. now right.
Qed.

(** The loops of [deleteTask] and [markDone], which work by index on
    the whole slice, compute [removeFirst] and [markFirst]. *)
Lemma deleteTask_removeFirst tasks id :
  fst (deleteTask tasks id) = removeFirst id tasks.
Proof.
  destruct (first_match id tasks)
    as [Habs|(front & t & back & -> & Habs & Hid)].
  - unfold deleteTask. rewrite (deleteLoop_absent _ _ _ _ Habs).
    now rewrite removeFirst_absent.
  - rewrite (deleteTask_found _ _ _ _ Habs Hid).
    now rewrite (removeFirst_found _ _ _ _ Habs Hid).
Qed.

Lemma markDone_markFirst tasks id :
  fst (markDone tasks id) = markFirst id tasks.
Proof.
  destruct (first_match id tasks)
    as [Habs|(front & t & back & -> & Habs & Hid)].
  - rewrite (markDone_absent _ _ Habs). now rewrite markFirst_absent.
  - rewrite (markDone_found _ _ _ _ Habs Hid).
    now rewrite (markFirst_found _ _ _ _ Habs Hid).
Qed.

Lemma absent_existsb id tasks :
  absent id tasks <-> existsb (fun t => ID t =? id) tasks = false.
Proof.
  split.
  - intros Habs. destruct (existsb _ tasks) eqn:E; [|reflexivity].
    apply existsb_exists in E. destruct E as (t & Hin & Ht).
    exfalso. apply (Habs t Hin). lia.
  - intros E t Hin Hid.
    assert (H : existsb (fun t => ID t =? id) tasks = true).
    { apply existsb_exists. exists t. split; [exact Hin|lia]. }
    congruence.
Qed.

Lemma deleteTask_flag tasks id :
  snd (deleteTask tasks id) = existsb (fun t => ID t =? id) tasks.
Proof.
  destruct (first_match id tasks)
    as [Habs|(front & t & back & -> & Habs & Hid)].
  - unfold deleteTask. rewrite (deleteLoop_absent _ _ _ _ Habs).
    symmetry. now apply absent_existsb.
  - rewrite (deleteTask_found _ _ _ _ Habs Hid). symmetry.
    apply existsb_exists. exists t. split; [|cbn; lia].
    apply in_or_app. right. now left.
Qed.

Lemma markDone_flag tasks id :
  snd (markDone tasks id) = existsb (fun t => ID t =? id) tasks.
Proof.
  destruct (first_match id tasks)
    as [Habs|(front & t & back & -> & Habs & Hid)].
  - rewrite (markDone_absent _ _ Habs). symmetry. now apply absent_existsb.
  - rewrite (markDone_found _ _ _ _ Habs Hid). symmetry.
    apply existsb_exists. exists t. split; [|cbn; lia].
    apply in_or_app. right. now left.
Qed.

(** X1.  [deleteTask] either finds no task with identifier [id] and
    returns the collection, or removes the first task with that
    identifier and nothing else: the tasks before it and the tasks
    after it stay, in their order, and the collection is one task
    shorter exactly when the flag is true. *)
Theorem deleteTask_first_match (tasks : list Task) (id : Z) :
  ((absent id tasks /\ deleteTask tasks id = (tasks, false)) \/
   exists front t back,
     tasks = front ++ t :: back /\ absent id front /\ ID t = id /\
     deleteTask tasks id = (front ++ back, true))
  /\ List.length (fst (deleteTask tasks id))
     = (List.length tasks - (if snd (deleteTask tasks id) then 1 else 0))%nat.
Proof.
  destruct (first_match id tasks)
    as [Habs|(front & t & back & -> & Habs & Hid)].
  - unfold deleteTask. rewrite (deleteLoop_absent _ _ _ _ Habs). split.
    + left. auto.
    + cbn [fst snd]. lia.
  - rewrite (deleteTask_found _ _ _ _ Habs Hid). split.
    + right. exists front, t, back. auto.
    + cbn [fst snd]. rewrite !length_app. cbn [List.length]. lia.
Qed.

(** X2.  The flag that [deleteTask] and [markDone] return is true
    exactly when some task of the collection has the identifier; the
    two flags always agree. *)
Theorem found_iff_present (tasks : list Task) (id : Z) :
  (snd (deleteTask tasks id) = true <-> exists t, In t tasks /\ ID t = id)
  /\ (snd (markDone tasks id) = true <-> exists t, In t tasks /\ ID t = id)
  /\ snd (deleteTask tasks id) = snd (markDone tasks id).
Proof.
  rewrite deleteTask_flag, markDone_flag.
  assert (H : existsb (fun t => ID t =? id) tasks = true
              <-> exists t, In t tasks /\ ID t = id).
  { rewrite existsb_exists. split; intros (t & Hin & Ht); exists t; split; auto; lia. }
  repeat split; apply H.
Qed.

Lemma found_iff_present_witness :
  snd (markDone [mkTask 1 "a" false time.zero; mkTask 2 "b" false time.zero] 2)
  = true.
Proof.
  apply (proj2 (proj1 (proj2 (found_iff_present
                                [mkTask 1 "a" false time.zero;
                                 mkTask 2 "b" false time.zero] 2)))).
  exists (mkTask 2 "b" false time.zero). split; [right; now left|reflexivity].
Defined.

Lemma withIdent_removeFirst_same id tasks :
  withIdent id (removeFirst id tasks) = tl (withIdent id tasks).
Proof.
  unfold withIdent. induction tasks as [|x tasks IH]; simpl; [reflexivity|].
  destruct (ID x =? id) eqn:E; [reflexivity|].
  simpl. now rewrite E.
Qed.

Lemma withIdent_removeFirst_other id id' tasks :
  id' <> id -> withIdent id' (removeFirst id tasks) = withIdent id' tasks.
Proof.
  intros Hne. unfold withIdent.
  induction tasks as [|x tasks IH]; simpl; [reflexivity|].
  destruct (Z.eqb_spec (ID x) id) as [Heq|Hx].
  - replace (ID x =? id') with false by (symmetry; apply Z.eqb_neq; lia).
    reflexivity.
  - simpl. now rewrite IH.
Qed.

Lemma withoutIdent_removeFirst id tasks :
  withoutIdent id (removeFirst id tasks) = withoutIdent id tasks.
Proof.
  unfold withoutIdent.
  induction tasks as [|x tasks IH]; cbn [removeFirst filter]; [reflexivity|].
  destruct (ID x =? id) eqn:E; cbn [negb filter]; [reflexivity|].
  rewrite E. cbn [negb]. now rewrite IH.
Qed.

(** X3.  [deleteTask] returns the collection without its first task
    with identifier [id], every other task in its place.  So it
    removes one task at most: of the tasks with identifier [id] it
    drops the first and keeps the others, and the tasks with another
    identifier are the same, in the same order among themselves,
    whatever their identifiers. *)
Theorem deleteTask_one_occurrence (tasks : list Task) (id : Z) :
  fst (deleteTask tasks id) = removeFirst id tasks
  /\ withIdent id (fst (deleteTask tasks id)) = tl (withIdent id tasks)
  /\ withoutIdent id (fst (deleteTask tasks id)) = withoutIdent id tasks
  /\ forall id', id' <> id ->
       withIdent id' (fst (deleteTask tasks id)) = withIdent id' tasks.
Proof.
  rewrite deleteTask_removeFirst. split; [reflexivity|]. split; [|split].
  - apply withIdent_removeFirst_same.
  - apply withoutIdent_removeFirst.
  - intros id' Hne. now apply withIdent_removeFirst_other.
Qed.

Lemma deleteTask_one_occurrence_witness :
  let tasks := [mkTask 1 "a" false time.zero; mkTask 2 "b" false time.zero;
                mkTask 1 "c" true time.zero] in
  fst (deleteTask tasks 1)
  = [mkTask 2 "b" false time.zero; mkTask 1 "c" true time.zero]
  /\ withIdent 2 (fst (deleteTask tasks 1)) = withIdent 2 tasks.
Proof.
  intros tasks.
  destruct (deleteTask_one_occurrence tasks 1) as (Hexact & _ & _ & Hother).
  split; [exact Hexact|]. apply (Hother 2). lia.
Defined.

Lemma NoDup_map_remove (front back : list Task) t :
  NoDup (map ID (front ++ t :: back)) ->
  NoDup (map ID (front ++ back)) /\ absent (ID t) (front ++ back).
Proof.
  rewrite !map_app. cbn [map]. intros H. split.
  - now apply NoDup_remove_1 in H.
  - apply NoDup_remove_2 in H. intros x Hx Hid. apply H.
    rewrite <- map_app, <- Hid. now apply in_map.
Qed.

(** X4.  With unique identifiers [deleteTask] leaves no task with
    identifier [id]: a second [deleteTask] and a [markDone] with it
    find nothing, and every task with another identifier is still
    there. *)
Theorem deleteTask_unique_gone (tasks : list Task) (id : Z) :
  NoDup (map ID tasks) ->
  absent id (fst (deleteTask tasks id))
  /\ deleteTask (fst (deleteTask tasks id)) id = (fst (deleteTask tasks id), false)
  /\ markDone (fst (deleteTask tasks id)) id = (fst (deleteTask tasks id), false)
  /\ forall t, In t tasks -> ID t <> id -> In t (fst (deleteTask tasks id)).
Proof.
  intros Hnd.
  assert (Habs' : absent id (fst (deleteTask tasks id))).
  { destruct (first_match id tasks)
      as [Habs|(front & t & back & -> & Habs & Hid)].
    - unfold deleteTask. now rewrite (deleteLoop_absent _ _ _ _ Habs).
    - rewrite (deleteTask_found _ _ _ _ Habs Hid). cbn [fst].
      rewrite <- Hid. now apply NoDup_map_remove. }
  split; [exact Habs'|]. split; [|split].
  - unfold deleteTask at 1. now apply deleteLoop_absent.
  - now apply markDone_absent.
  - intros x Hin Hne.
    destruct (first_match id tasks)
      as [Habs|(front & t & back & -> & Habs & Hid)].
    + unfold deleteTask. now rewrite (deleteLoop_absent _ _ _ _ Habs).
    + rewrite (deleteTask_found _ _ _ _ Habs Hid). cbn [fst].
      apply in_app_or in Hin. apply in_or_app.
      destruct Hin as [Hin|[Heq|Hin]]; auto. subst x. contradiction.
Qed.

Lemma deleteTask_unique_gone_witness :
  let tasks := [mkTask 1 "a" false time.zero; mkTask 2 "b" false time.zero] in
  absent 1 (fst (deleteTask tasks 1)).
Proof.
  intros tasks. apply (deleteTask_unique_gone tasks 1).
  repeat constructor; simpl; intuition lia.
Defined.

Lemma belowMax_nextID tasks :
  belowMax tasks -> forall t, In t tasks -> ID t < nextID tasks.
Proof.
  intros Hb. destruct tasks as [|t0 rest]; [intros t []|].
  pose proof (maxLoop_isMaxID t0 rest) as [(tm & Htm & Hm) Hle].
  assert (Hr : MinInt64 <= maxLoop (ID t0) rest < MaxInt64).
  { rewrite <- Hm. now apply Hb. }
  cbn [nextID]. rewrite wrap64_id by (unfold int64; lia).
  intros t Ht. specialize (Hle t Ht). lia.
Qed.

Lemma map_ID_markFirst id tasks : map ID (markFirst id tasks) = map ID tasks.
Proof.
  induction tasks as [|x tasks IH]; simpl; [reflexivity|].
  destruct (ID x =? id); simpl; [reflexivity|now rewrite IH].
Qed.

(** X5.  Unique identifiers are kept: [addTask] keeps them unique as
    long as every identifier is an [int] below the largest one,
    [deleteTask] keeps them unique, [markDone] leaves the identifiers
    as they are, and [clearTasks] has none. *)
Theorem unique_ids_preserved (tasks : list Task) :
  NoDup (map ID tasks) ->
  (belowMax tasks ->
   forall title deadline, NoDup (map ID (fst (addTask tasks title deadline))))
  /\ (forall id, NoDup (map ID (fst (deleteTask tasks id))))
  /\ (forall id, map ID (fst (markDone tasks id)) = map ID tasks)
  /\ NoDup (map ID clearTasks).
Proof.
  intros Hnd. split; [|split; [|split]].
  - intros Hb title deadline. unfold addTask. cbn [fst].
    rewrite map_app. cbn [map ID].
    apply NoDup_rev in Hnd. rewrite <- (rev_involutive (map ID tasks ++ _)).
    apply NoDup_rev. rewrite rev_app_distr. cbn [rev app].
    constructor; [|exact Hnd].
    rewrite <- in_rev. intros Hin. apply in_map_iff in Hin.
    destruct Hin as (t & Hid & Hin).
    pose proof (belowMax_nextID tasks Hb t Hin). lia.
  - intros id.
    destruct (first_match id tasks)
      as [Habs|(front & t & back & -> & Habs & Hid)].
    + unfold deleteTask. now rewrite (deleteLoop_absent _ _ _ _ Habs).
    + rewrite (deleteTask_found _ _ _ _ Habs Hid). cbn [fst].
      now apply NoDup_map_remove in Hnd.
  - intros id. rewrite markDone_markFirst. apply map_ID_markFirst.
  - constructor.
Qed.

Lemma unique_ids_preserved_witness :
  let tasks := [mkTask 1 "a" false time.zero; mkTask 5 "b" false time.zero] in
  NoDup (map ID (fst (addTask tasks "c" ""))).
Proof.
  intros tasks.
  apply (proj1 (unique_ids_preserved tasks
                  ltac:(repeat constructor; simpl; intuition lia))).
  intros t [<-|[<-|[]]]; simpl; unfold MinInt64, MaxInt64; lia.
Defined.

(** X6.  With every identifier below the largest [int], deleting the
    task that [addTask] has just added gives the collection back, and
    the next [addTask] hands out the same identifier again:
    identifiers are reused. *)
Theorem add_then_delete (tasks : list Task) (title deadline : string) :
  belowMax tasks ->
  let (added, newID) := addTask tasks title deadline in
  deleteTask added newID = (tasks, true)
  /\ forall title' deadline',
       snd (addTask (fst (deleteTask added newID)) title' deadline') = newID.
Proof.
  intros Hb. unfold addTask.
  assert (Habs : absent (nextID tasks) tasks).
  { intros t Hin. pose proof (belowMax_nextID tasks Hb t Hin). lia. }
  assert (Hdel : deleteTask (tasks ++ [mkTask (nextID tasks) title false
                                          (parseDeadline deadline)])
                   (nextID tasks) = (tasks, true)).
  { rewrite (deleteTask_found (nextID tasks) tasks
               (mkTask (nextID tasks) title false (parseDeadline deadline))
               [] Habs eq_refl).
    now rewrite app_nil_r. }
  split; [exact Hdel|]. intros title' deadline'. now rewrite Hdel.
Qed.

Lemma add_then_delete_witness :
  let tasks := [mkTask 1 "a" false time.zero; mkTask 5 "b" false time.zero] in
  deleteTask (fst (addTask tasks "c" "")) 6 = (tasks, true).
Proof.
  intros tasks.
  assert (Hb : belowMax tasks).
  { intros t [<-|[<-|[]]]; simpl; unfold MinInt64, MaxInt64; lia. }
  exact (proj1 (add_then_delete tasks "c" "" Hb)).
Defined.

Lemma removeFirst_comm a b tasks :
  removeFirst a (removeFirst b tasks) = removeFirst b (removeFirst a tasks).
Proof.
  induction tasks as [|x tasks IH]; simpl; [reflexivity|].
  destruct (ID x =? b) eqn:Eb, (ID x =? a) eqn:Ea; simpl;
    rewrite ?Ea, ?Eb; try reflexivity.
  - apply Z.eqb_eq in Ea, Eb. now subst.
  - now rewrite IH.
Qed.

Lemma markFirst_comm a b tasks :
  markFirst a (markFirst b tasks) = markFirst b (markFirst a tasks).
Proof.
  induction tasks as [|x tasks IH]; simpl; [reflexivity|].
  destruct (ID x =? b) eqn:Eb, (ID x =? a) eqn:Ea; simpl;
    rewrite ?Ea, ?Eb; try reflexivity.
  now rewrite IH.
Qed.

Lemma remove_mark_comm a b tasks :
  a <> b ->
  removeFirst a (markFirst b tasks) = markFirst b (removeFirst a tasks).
Proof.
  intros Hne. induction tasks as [|x tasks IH]; simpl; [reflexivity|].
  destruct (Z.eqb_spec (ID x) b) as [Eb|Eb], (Z.eqb_spec (ID x) a) as [Ea|Ea]; simpl.
  - lia.
  - destruct (Z.eqb_spec (ID x) a); [lia|].
    destruct (Z.eqb_spec (ID x) b); [reflexivity|lia].
  - destruct (Z.eqb_spec (ID x) a); [reflexivity|lia].
  - destruct (Z.eqb_spec (ID x) a); [lia|].
    destruct (Z.eqb_spec (ID x) b); [lia|]. now rewrite IH.
Qed.

Lemma remove_mark_same a tasks :
  removeFirst a (markFirst a tasks) = removeFirst a tasks.
Proof.
  induction tasks as [|x tasks IH]; simpl; [reflexivity|].
  destruct (ID x =? a) eqn:Ea; simpl; rewrite Ea; [reflexivity|now rewrite IH].
Qed.

(** X7.  Two [deleteTask]s commute, two [markDone]s commute, a
    [deleteTask] and a [markDone] with different identifiers commute,
    and [markDone] followed by [deleteTask] with the same identifier
    is [deleteTask] alone. *)
Theorem operations_commute (tasks : list Task) (a b : Z) :
  fst (deleteTask (fst (deleteTask tasks b)) a)
  = fst (deleteTask (fst (deleteTask tasks a)) b)
  /\ fst (markDone (fst (markDone tasks b)) a)
     = fst (markDone (fst (markDone tasks a)) b)
  /\ (a <> b ->
      fst (deleteTask (fst (markDone tasks b)) a)
      = fst (markDone (fst (deleteTask tasks a)) b))
  /\ fst (deleteTask (fst (markDone tasks a)) a) = fst (deleteTask tasks a).
Proof.
  repeat (rewrite deleteTask_removeFirst || rewrite markDone_markFirst).
  split; [apply removeFirst_comm|]. split; [apply markFirst_comm|].
  split; [apply remove_mark_comm|apply remove_mark_same].
Qed.

Lemma operations_commute_witness :
  let tasks := [mkTask 1 "a" false time.zero; mkTask 2 "b" false time.zero] in
  fst (deleteTask (fst (markDone tasks 2)) 1)
  = fst (markDone (fst (deleteTask tasks 1)) 2).
Proof.
  intros tasks.
  apply (proj1 (proj2 (proj2 (operations_commute tasks 1 2)))). lia.
Defined.

Lemma nextID_max t0 rest m :
  isMaxID (t0 :: rest) m -> nextID (t0 :: rest) = wrap64 (m + 1).
Proof.
  intros Hm. cbn [nextID].
  now rewrite (isMaxID_unique _ _ _ (maxLoop_isMaxID t0 rest) Hm).
Qed.

(** X8.  The identifier that [addTask] hands out depends on the
    identifiers in the collection only: two collections with the same
    identifiers, in whatever order and however often, get the same
    new identifier. *)
Theorem nextID_depends_on_ids (tasks tasks' : list Task) :
  (forall id, In id (map ID tasks) <-> In id (map ID tasks')) ->
  nextID tasks = nextID tasks'
  /\ forall title deadline,
       snd (addTask tasks title deadline) = snd (addTask tasks' title deadline).
Proof.
  intros Hsame.
  assert (Hn : nextID tasks = nextID tasks').
  { destruct tasks as [|t0 rest], tasks' as [|t0' rest'].
    - reflexivity.
    - exfalso. apply (proj2 (Hsame (ID t0'))). now left.
    - exfalso. apply (proj1 (Hsame (ID t0))). now left.
    - rewrite (nextID_max t0 rest _ (maxLoop_isMaxID t0 rest)).
      symmetry. apply nextID_max.
      destruct (maxLoop_isMaxID t0 rest) as [(t & Ht & Hid) Hle]. split.
      + assert (Hin : In (maxLoop (ID t0) rest) (map ID (t0' :: rest'))).
        { apply Hsame. rewrite <- Hid. now apply in_map. }
        apply in_map_iff in Hin. destruct Hin as (t' & Hid' & Ht').
        exists t'. split; assumption.
      + intros t' Ht'.
        assert (Hin : In (ID t') (map ID (t0 :: rest))).
        { apply Hsame. now apply in_map. }
        apply in_map_iff in Hin. destruct Hin as (x & Hx & Hxin).
        rewrite <- Hx. now apply Hle. }
  split; [exact Hn|]. intros title deadline. exact Hn.
Qed.

Lemma nextID_depends_on_ids_witness :
  nextID [mkTask 2 "a" false time.zero; mkTask 5 "b" true time.zero]
  = nextID [mkTask 5 "c" false time.zero; mkTask 2 "d" false time.zero;
            mkTask 5 "e" false time.zero].
Proof.
  apply (nextID_depends_on_ids
           [mkTask 2 "a" false time.zero; mkTask 5 "b" true time.zero]
           [mkTask 5 "c" false time.zero; mkTask 2 "d" false time.zero;
            mkTask 5 "e" false time.zero]).
  intros id. cbn. intuition.
Defined.

(** ** The calendar, from dates to instants *)

Lemma div_step y k :
  0 < k -> y / k = (y - 1) / k + (if y mod k =? 0 then 1 else 0).
Proof.
  intros Hk. pose proof (Z.div_mod y k ltac:(lia)) as Hy.
  pose proof (Z.mod_pos_bound y k Hk) as Hr.
  destruct (Z.eqb_spec (y mod k) 0) as [H0|H0].
  - symmetry. assert (E : (y - 1) / k = y / k - 1).
    { symmetry. apply (Z.div_unique (y - 1) k (y / k - 1) (k - 1)); lia. }
    lia.
  - assert (E : (y - 1) / k = y / k).
    { symmetry. apply (Z.div_unique (y - 1) k (y / k) (y mod k - 1)); lia. }
    lia.
Qed.

Lemma daysSinceEpoch_step y :
  time.daysSinceEpoch (y + 1) = time.daysSinceEpoch y + yearLength y.
Proof.
  unfold time.daysSinceEpoch, yearLength, time.isLeap.
  replace (y + 1 - 1) with y by lia.
  rewrite (div_step y 4), (div_step y 100), (div_step y 400) by lia.
  assert (H100 : y mod 100 = 0 -> y mod 4 = 0).
  { intros H. pose proof (Z.div_mod y 100 ltac:(lia)) as E. rewrite H in E.
    replace y with (0 + (25 * (y / 100)) * 4) by lia.
    rewrite Z.mod_add by lia. reflexivity. }
  assert (H400 : y mod 400 = 0 -> y mod 100 = 0).
  { intros H. pose proof (Z.div_mod y 400 ltac:(lia)) as E. rewrite H in E.
    replace y with (0 + (4 * (y / 400)) * 100) by lia.
    rewrite Z.mod_add by lia. reflexivity. }
  destruct (Z.eqb_spec (y mod 4) 0), (Z.eqb_spec (y mod 100) 0),
    (Z.eqb_spec (y mod 400) 0); cbn [andb orb negb]; try lia;
    exfalso; auto.
Qed.

Lemma yearLength_pos y : 365 <= yearLength y <= 366.
Proof. unfold yearLength. destruct (time.isLeap y); lia. Qed.

Lemma daysSinceEpoch_later n : forall y,
  time.daysSinceEpoch y + yearLength y
  <= time.daysSinceEpoch (y + 1 + Z.of_nat n).
Proof.
  induction n as [|n IH]; intros y.
  - rewrite Z.add_0_r, daysSinceEpoch_step. lia.
  - replace (y + 1 + Z.of_nat (S n)) with ((y + 1 + Z.of_nat n) + 1) by lia.
    rewrite daysSinceEpoch_step. specialize (IH y).
    pose proof (yearLength_pos (y + 1 + Z.of_nat n)). lia.
Qed.

Lemma daysSinceEpoch_lt y y' :
  y < y' -> time.daysSinceEpoch y + yearLength y <= time.daysSinceEpoch y'.
Proof.
  intros H. replace y' with (y + 1 + Z.of_nat (Z.to_nat (y' - y - 1))) by lia.
  apply daysSinceEpoch_later.
Qed.

(** [absYear] finds the year and the day of the year of every day. *)
Lemma absYear_unique y yd :
  0 <= yd < yearLength y ->
  time.absYear (time.daysSinceEpoch y + yd) = (y, yd).
Proof.
  intros Hyd. pose proof (absYear_spec (time.daysSinceEpoch y + yd)) as [Hd Hr].
  destruct (time.absYear _) as [y' yd']. cbn [fst snd] in *.
  fold (yearLength y') in Hr.
  destruct (Z.lt_trichotomy y y') as [Hlt|[Heq|Hgt]].
  - pose proof (daysSinceEpoch_lt y y' Hlt). lia.
  - subst y'. f_equal. lia.
  - pose proof (daysSinceEpoch_lt y' y Hgt). lia.
Qed.

Lemma yearLength_leap year :
  yearLength year = yearLength (if time.isLeap year then 4 else 1).
Proof. unfold yearLength. now destruct (time.isLeap year). Qed.

Lemma yearDay_leap year m d :
  yearDay year m d = yearDay (if time.isLeap year then 4 else 1) m d.
Proof. unfold yearDay. now destruct (time.isLeap year). Qed.

(** [absMonthDay] finds the month and the day of every day of a year. *)
Lemma absMonthDay_unique year m d :
  1 <= m <= 12 -> 1 <= d <= time.daysIn m year ->
  0 <= yearDay year m d < yearLength year
  /\ time.absMonthDay year (yearDay year m d) = (m, d).
Proof.
  intros Hm Hd.
  assert (Hd31 : d <= 31).
  { unfold time.daysIn in Hd.
    assert (Hcases : m = 1 \/ m = 2 \/ m = 3 \/ m = 4 \/ m = 5 \/ m = 6
            \/ m = 7 \/ m = 8 \/ m = 9 \/ m = 10 \/ m = 11 \/ m = 12) by lia.
    destruct (time.isLeap year);
      repeat (destruct Hcases as [->|Hcases]; [cbn in Hd; lia|]); subst; cbn in Hd; lia. }
  set (md := (m - 1) * 32 + d).
  assert (Hq : md / 32 + 1 = m).
  { assert (md / 32 = m - 1); [|lia].
    symmetry. apply (Z.div_unique md 32 (m - 1) d); subst md; lia. }
  assert (Hr : md mod 32 = d).
  { symmetry. apply (Z.mod_unique md 32 (m - 1) d); subst md; lia. }
  assert (Hok : dayOK (if time.isLeap year then 4 else 1) md = true).
  { destruct (time.isLeap year).
    - apply (forall_below (dayOK 4) 384); [vm_compute; reflexivity|subst md; lia].
    - apply (forall_below (dayOK 1) 384); [vm_compute; reflexivity|subst md; lia]. }
  unfold dayOK in Hok. rewrite Hq, Hr in Hok.
  rewrite <- daysIn_leap, <- yearDay_leap, <- absMonthDay_leap,
    <- yearLength_leap in Hok.
  replace ((1 <=? d) && (d <=? time.daysIn m year)) with true in Hok
    by (symmetry; apply andb_true_iff; lia).
  destruct (time.absMonthDay year (yearDay year m d)) as [m' d'].
  repeat (apply andb_true_iff in Hok; destruct Hok as [Hok ?]).
  split; [lia|]. f_equal; lia.
Qed.

(** [dateOf] and [clockOf] invert [Date]: an instant built from the
    fields of a day and a time of the day has those fields. *)
Lemma fields_Date year month day hour min s ns off :
  1 <= month <= 12 -> 1 <= day <= time.daysIn month year ->
  0 <= hour <= 23 -> 0 <= min <= 59 -> 0 <= s <= 59 ->
  0 <= ns < 1000000000 ->
  let t := time.Date year month day hour min s ns off in
  time.dateOf t = (year, month, day)
  /\ time.clockOf t = (hour, min, s)
  /\ time.Year t = year
  /\ time.nsec t = ns /\ time.offset t = off.
Proof.
  intros Hm Hd Hh Hmi Hs Hns.
  destruct (absMonthDay_unique year month day Hm Hd) as [Hyd Hmd].
  set (days := time.daysSinceEpoch year + yearDay year month day).
  set (clock := hour * 3600 + min * 60 + s).
  assert (Hc : 0 <= clock < 86400) by (subst clock; lia).
  assert (HD : time.Date year month day hour min s ns off
               = time.mkTime (days * 86400 + clock - off) ns off).
  { unfold time.Date.
    assert (Hm12 : (month - 1) / 12 = 0) by (apply Z.div_small; lia).
    assert (Hmm : (month - 1) mod 12 = month - 1) by (apply Z.mod_small; lia).
    rewrite Hm12, Hmm, Z.add_0_r.
    replace (3 <=? month - 1 + 1) with (3 <=? month) by (f_equal; lia).
    rewrite (Z.div_small ns), (Z.mod_small ns) by lia.
    cbv zeta. f_equal. subst days clock. unfold yearDay. lia. }
  cbv zeta. rewrite HD. cbn [time.nsec time.offset].
  assert (Habs : time.locabs (time.mkTime (days * 86400 + clock - off) ns off)
                 = days * 86400 + clock).
  { unfold time.locabs. cbn [time.sec time.offset]. lia. }
  assert (Hdiv : (days * 86400 + clock) / 86400 = days).
  { symmetry. apply (Z.div_unique _ 86400 days clock); lia. }
  assert (Hmod : (days * 86400 + clock) mod 86400 = clock).
  { symmetry. apply (Z.mod_unique _ 86400 days clock); lia. }
  unfold time.dateOf, time.clockOf, time.Year.
  rewrite Habs, Hdiv, Hmod. subst days.
  rewrite (absYear_unique year _ Hyd). cbn [fst]. rewrite Hmd.
  split; [reflexivity|]. split; [|auto].
  assert (Hq : clock / 3600 = hour).
  { symmetry. apply (Z.div_unique clock 3600 hour (min * 60 + s)); subst clock; lia. }
  rewrite Hq.
  assert (Hq' : (clock - hour * 3600) / 60 = min).
  { symmetry. apply (Z.div_unique _ 60 min s); subst clock; lia. }
  rewrite Hq'. f_equal. subst clock. lia.
Qed.

Lemma digitChar_digitVal c : isDigit c = true -> digitChar (digitVal c) = c.
Proof.
  intros H. unfold digitChar, digitVal.
  replace (48 + (byteVal c - 48)) with (byteVal c) by lia.
  apply byteOf_byteVal.
Qed.

Lemma digitVal_range c : isDigit c = true -> 0 <= digitVal c <= 9.
Proof. unfold isDigit, digitVal. lia. Qed.

Lemma field2_digits a b :
  isDigit a = true -> isDigit b = true ->
  field2 (digitVal a * 10 + digitVal b) = [a; b].
Proof.
  intros Ha Hb. pose proof (digitVal_range a Ha). pose proof (digitVal_range b Hb).
  unfold field2.
  assert (Hq : (digitVal a * 10 + digitVal b) / 10 = digitVal a).
  { symmetry. apply (Z.div_unique _ 10 _ (digitVal b)); lia. }
  assert (Hr : (digitVal a * 10 + digitVal b) mod 10 = digitVal b).
  { symmetry. apply (Z.mod_unique _ 10 (digitVal a) _); lia. }
  now rewrite Hq, Hr, !digitChar_digitVal.
Qed.

Lemma field4_digits a b c d :
  isDigit a = true -> isDigit b = true -> isDigit c = true -> isDigit d = true ->
  field4 (((digitVal a * 10 + digitVal b) * 10 + digitVal c) * 10 + digitVal d)
  = [a; b; c; d].
Proof.
  intros Ha Hb Hc Hd.
  pose proof (digitVal_range a Ha) as Ra. pose proof (digitVal_range b Hb) as Rb.
  pose proof (digitVal_range c Hc) as Rc. pose proof (digitVal_range d Hd) as Rd.
  set (x := ((digitVal a * 10 + digitVal b) * 10 + digitVal c) * 10 + digitVal d).
  unfold field4.
  assert (H1 : x / 1000 = digitVal a).
  { symmetry.
    apply (Z.div_unique x 1000 _ (digitVal b * 100 + digitVal c * 10 + digitVal d));
      subst x; lia. }
  assert (H2 : x / 100 = digitVal a * 10 + digitVal b).
  { symmetry. apply (Z.div_unique x 100 _ (digitVal c * 10 + digitVal d)); subst x; lia. }
  assert (H3 : x / 10 = (digitVal a * 10 + digitVal b) * 10 + digitVal c).
  { symmetry. apply (Z.div_unique x 10 _ (digitVal d)); subst x; lia. }
  assert (H4 : x mod 10 = digitVal d).
  { symmetry. apply (Z.mod_unique x 10 (x / 10) _); subst x; lia. }
  assert (H5 : x / 100 mod 10 = digitVal b).
  { rewrite H2. symmetry. apply (Z.mod_unique _ 10 (digitVal a) _); lia. }
  assert (H6 : x / 10 mod 10 = digitVal c).
  { rewrite H3. symmetry.
    apply (Z.mod_unique _ 10 (digitVal a * 10 + digitVal b) _); lia. }
  now rewrite H1, H4, H5, H6, !digitChar_digitVal.
Qed.

Lemma getnum2_inv s n rest :
  time.getnum2 s = Some (n, rest) ->
  exists a b, s = a :: b :: rest /\ isDigit a = true /\ isDigit b = true
              /\ n = digitVal a * 10 + digitVal b.
Proof.
  unfold time.getnum2. destruct s as [|a [|b r]]; try discriminate.
  destruct (isDigit a) eqn:Ha, (isDigit b) eqn:Hb; try discriminate.
  cbn [andb]. intros H. injection H as <- <-. exists a, b. auto.
Qed.

Lemma skipDash_inv s rest :
  time.skipDash s = Some rest -> s = "-"%char :: rest.
Proof.
  unfold time.skipDash. destruct s as [|c r]; [discriminate|].
  destruct (Ascii.eqb_spec c "-"); [|discriminate].
  intros H. injection H as <-. now subst.
Qed.

(** What [ParseDate] accepts is the text of a day of the calendar. *)
Lemma ParseDate_inv value t :
  time.ParseDate value = Some t ->
  exists year month day,
    validDate year month day
    /\ value = dateText year month day
    /\ t = time.Date year month day 0 0 0 0 0.
Proof.
  unfold time.ParseDate. intros H.
  rewrite <- (string_of_list_ascii_of_string value).
  destruct (list_ascii_of_string value) as [|y1 [|y2 [|y3 [|y4 rest]]]];
    try discriminate.
  destruct (isDigit y1) eqn:H1; [|discriminate].
  destruct (isDigit y2) eqn:H2; [|discriminate].
  destruct (isDigit y3) eqn:H3; [|discriminate].
  destruct (isDigit y4) eqn:H4; [|discriminate].
  cbn [andb] in H.
  destruct (time.skipDash rest) as [rest1|] eqn:E1; [|discriminate].
  apply skipDash_inv in E1. subst rest.
  destruct (time.getnum2 rest1) as [[month rest2]|] eqn:E2; [|discriminate].
  apply getnum2_inv in E2. destruct E2 as (m1 & m2 & -> & Hm1 & Hm2 & Hmonth).
  destruct ((month <=? 0) || (12 <? month)) eqn:Hmr; [discriminate|].
  apply orb_false_iff in Hmr.
  destruct (time.skipDash rest2) as [rest3|] eqn:E3; [|discriminate].
  apply skipDash_inv in E3. subst rest2.
  destruct (time.getnum2 rest3) as [[day rest4]|] eqn:E4; [|discriminate].
  apply getnum2_inv in E4. destruct E4 as (d1 & d2 & -> & Hd1 & Hd2 & Hday).
  destruct rest4; [|discriminate].
  set (year := ((digitVal y1 * 10 + digitVal y2) * 10 + digitVal y3) * 10
               + digitVal y4) in *.
  destruct ((day <? 1) || (time.daysIn month year <? day)) eqn:Hdr; [discriminate|].
  apply orb_false_iff in Hdr. injection H as <-.
  pose proof (digitVal_range y1 H1). pose proof (digitVal_range y2 H2).
  pose proof (digitVal_range y3 H3). pose proof (digitVal_range y4 H4).
  exists year, month, day. split; [|split; [|reflexivity]].
  - unfold validDate. subst year. lia.
  - unfold dateText, gostring. f_equal. subst year month day.
    now rewrite field4_digits, !field2_digits.
Qed.

Lemma daysIn_bound m year : 1 <= m <= 12 -> 28 <= time.daysIn m year <= 31.
Proof.
  intros Hm. unfold time.daysIn.
  assert (Hcases : m = 1 \/ m = 2 \/ m = 3 \/ m = 4 \/ m = 5 \/ m = 6
          \/ m = 7 \/ m = 8 \/ m = 9 \/ m = 10 \/ m = 11 \/ m = 12) by lia.
  destruct (time.isLeap year);
    repeat (destruct Hcases as [->|Hcases]; [cbn; lia|]); subst; cbn; lia.
Qed.

Lemma field2_value x :
  0 <= x <= 99 ->
  exists a b, field2 x = [a; b] /\ isDigit a = true /\ isDigit b = true
              /\ digitVal a * 10 + digitVal b = x.
Proof.
  intros Hx. unfold field2.
  assert (Hq : 0 <= x / 10 <= 9).
  { split; [apply Z.div_pos; lia|]. apply Z.lt_succ_r, Z.div_lt_upper_bound; lia. }
  pose proof (Z.mod_pos_bound x 10 ltac:(lia)) as Hm.
  exists (digitChar (x / 10)), (digitChar (x mod 10)).
  rewrite !isDigit_digitChar, !digitVal_digitChar by lia.
  repeat split. pose proof (Z.div_mod x 10 ltac:(lia)). lia.
Qed.

Lemma field4_value x :
  0 <= x <= 9999 ->
  exists a b c d,
    field4 x = [a; b; c; d]
    /\ isDigit a = true /\ isDigit b = true /\ isDigit c = true /\ isDigit d = true
    /\ ((digitVal a * 10 + digitVal b) * 10 + digitVal c) * 10 + digitVal d = x.
Proof.
  intros Hx. unfold field4.
  assert (H1 : 0 <= x / 1000 <= 9).
  { split; [apply Z.div_pos; lia|]. apply Z.lt_succ_r, Z.div_lt_upper_bound; lia. }
  pose proof (Z.mod_pos_bound (x / 100) 10 ltac:(lia)) as H2.
  pose proof (Z.mod_pos_bound (x / 10) 10 ltac:(lia)) as H3.
  pose proof (Z.mod_pos_bound x 10 ltac:(lia)) as H4.
  exists (digitChar (x / 1000)), (digitChar (x / 100 mod 10)),
    (digitChar (x / 10 mod 10)), (digitChar (x mod 10)).
  rewrite !isDigit_digitChar, !digitVal_digitChar by lia.
  repeat split.
  pose proof (Z.div_mod x 10 ltac:(lia)).
  pose proof (Z.div_mod (x / 10) 10 ltac:(lia)).
  pose proof (Z.div_mod (x / 100) 10 ltac:(lia)).
  assert (x / 10 / 10 = x / 100) by (rewrite Z.div_div by lia; reflexivity).
  assert (x / 100 / 10 = x / 1000) by (rewrite Z.div_div by lia; reflexivity).
  lia.
Qed.

(** [ParseDate] accepts the text of every day of the calendar. *)
Lemma ParseDate_dateText year month day :
  validDate year month day ->
  time.ParseDate (dateText year month day)
  = Some (time.Date year month day 0 0 0 0 0).
Proof.
  intros (Hy & Hm & Hd). pose proof (daysIn_bound month year Hm) as Hb.
  unfold time.ParseDate, dateText, gostring.
  rewrite list_ascii_of_string_of_list_ascii.
  destruct (field4_value year Hy) as (a & b & c & d & -> & Ha & Hb' & Hc & Hd' & Hyv).
  destruct (field2_value month ltac:(lia)) as (m1 & m2 & -> & Hm1 & Hm2 & Hmv).
  destruct (field2_value day ltac:(lia)) as (d1 & d2 & -> & Hd1 & Hd2 & Hdv).
  cbn [app]. rewrite Ha, Hb', Hc, Hd'. cbn [andb].
  cbn [time.skipDash]. change ("-" =? "-")%char with true. cbv iota.
  cbn [time.getnum2]. rewrite Hm1, Hm2. cbn [andb]. rewrite Hmv.
  replace ((month <=? 0) || (12 <? month)) with false
    by (symmetry; apply orb_false_iff; lia).
  cbn [time.skipDash]. change ("-" =? "-")%char with true. cbv iota.
  cbn [time.getnum2]. rewrite Hd1, Hd2. cbn [andb]. rewrite Hdv, Hyv.
  replace ((day <? 1) || (time.daysIn month year <? day)) with false
    by (symmetry; apply orb_false_iff; lia).
  reflexivity.
Qed.

Lemma FormatDate_Date year month day :
  validDate year month day ->
  time.FormatDate (time.Date year month day 0 0 0 0 0) = dateText year month day.
Proof.
  intros (Hy & Hm & Hd). pose proof (daysIn_bound month year Hm) as Hb.
  destruct (fields_Date year month day 0 0 0 0 0) as (Hf & _); try lia.
  unfold time.FormatDate. rewrite Hf.
  now rewrite appendInt_4, !appendInt_2 by lia.
Qed.

Lemma Date_marshalable year month day :
  validDate year month day -> marshalable (time.Date year month day 0 0 0 0 0).
Proof.
  intros (Hy & Hm & Hd).
  destruct (fields_Date year month day 0 0 0 0 0) as (_ & _ & HY & Hn & Ho); try lia.
  unfold marshalable. rewrite HY, Hn, Ho. repeat split; lia.
Qed.

Lemma zero_marshalable : marshalable time.zero.
Proof. unfold marshalable. cbn. repeat split; lia. Qed.

Lemma parseDeadline_marshalable deadline : marshalable (parseDeadline deadline).
Proof.
  unfold parseDeadline. destruct (deadline =? "")%string; [apply zero_marshalable|].
  destruct (time.ParseDate deadline) as [t|] eqn:E; [|apply zero_marshalable].
  apply ParseDate_inv in E. destruct E as (y & m & d & Hv & _ & ->).
  now apply Date_marshalable.
Qed.

Lemma Date_zero year month day :
  validDate year month day ->
  time.IsZero (time.Date year month day 0 0 0 0 0) = true ->
  year = 1 /\ month = 1 /\ day = 1.
Proof.
  intros (Hy & Hm & Hd) Hz. pose proof (daysIn_bound month year Hm) as Hb.
  destruct (fields_Date year month day 0 0 0 0 0) as (Hf & _ & _ & Hn & Ho); try lia.
  set (t := time.Date year month day 0 0 0 0 0) in *.
  assert (Ht : t = time.zero).
  { destruct t as [sec ns off]. unfold time.IsZero in Hz. cbn in Hz, Hn, Ho.
    apply andb_true_iff in Hz. destruct Hz as [Hs _].
    apply Z.eqb_eq in Hs. subst. reflexivity. }
  rewrite Ht in Hf. vm_compute in Hf. injection Hf as <- <- <-. auto.
Qed.

(** X9.  The deadline argument of [addTask]: [time.Parse] with the
    layout [2006-01-02] accepts exactly the texts [YYYY-MM-DD] of the
    days of the calendar with a year from 0000 to 9999 (February 29 in
    leap years only), and yields midnight UTC of that day. *)
Theorem deadline_dates_accepted (value : string) (t : time.Time) :
  time.ParseDate value = Some t
  <-> exists year month day,
        validDate year month day
        /\ value = dateText year month day
        /\ t = time.Date year month day 0 0 0 0 0.
Proof.
  split; [apply ParseDate_inv|].
  intros (y & m & d & Hv & -> & ->). now apply ParseDate_dateText.
Qed.

Lemma deadline_dates_accepted_witness :
  time.ParseDate "2024-02-29" = Some (time.Date 2024 2 29 0 0 0 0 0).
Proof.
  apply (proj2 (deadline_dates_accepted "2024-02-29" (time.Date 2024 2 29 0 0 0 0 0))).
  exists 2024, 2, 29. split; [|split; reflexivity].
  unfold validDate. vm_compute. intuition discriminate.
Defined.

(** X10.  A deadline that parses is listed as it was typed:
    [Format] with the same layout gives the argument back; the
    deadline is the zero time for [0001-01-01] only; and for every
    other date the line that [list] prints for the new task ends with
    the deadline as typed. *)
Theorem deadline_listed_as_typed (tasks : list Task) (title deadline : string)
  (t : time.Time) :
  time.ParseDate deadline = Some t ->
  time.FormatDate t = deadline
  /\ (time.IsZero t = true <-> deadline = "0001-01-01"%string)
  /\ (deadline <> "0001-01-01"%string ->
      forall task, In task (skipn (List.length tasks)
                              (fst (addTask tasks title deadline))) ->
        listLine task
        = Printf ("#%d: %s [%s]%s" ++ nl)
            [argD (nextID tasks); argS title;
             argS (red ++ "Not Done" ++ reset)%string;
             argS (" (Deadline: " ++ deadline ++ ")")%string]).
Proof.
  intros Hp. pose proof Hp as Hp'.
  apply ParseDate_inv in Hp'. destruct Hp' as (y & m & d & Hv & Htext & Ht).
  assert (Hfmt : time.FormatDate t = deadline).
  { subst t deadline. now apply FormatDate_Date. }
  assert (Hz : time.IsZero t = true <-> deadline = "0001-01-01"%string).
  { split.
    - intros Hzero. subst t. destruct (Date_zero y m d Hv Hzero) as (-> & -> & ->).
      subst deadline. reflexivity.
    - intros ->.
      assert (E : time.ParseDate "0001-01-01" = Some time.zero) by reflexivity.
      rewrite E in Hp. injection Hp as <-. reflexivity. }
  split; [exact Hfmt|]. split; [exact Hz|].
  intros Hne task. unfold addTask. cbn [fst].
  rewrite skipn_app, skipn_all, Nat.sub_diag. cbn [skipn app].
  intros [<-|[]]. unfold listLine. cbn [Done Deadline ID Title].
  unfold parseDeadline.
  destruct (String.eqb_spec deadline "") as [E|_].
  { subst deadline. discriminate. }
  rewrite Hp.
  destruct (time.IsZero t) eqn:Ez.
  - exfalso. apply Hne. now apply Hz.
  - cbn [negb]. now rewrite Hfmt.
Qed.

Lemma deadline_listed_as_typed_witness :
  time.FormatDate (time.Date 2024 2 29 0 0 0 0 0) = "2024-02-29"%string.
Proof.
  apply (deadline_listed_as_typed [] "a" "2024-02-29" _ eq_refl).
Defined.

(** ** The store across runs *)

Lemma wrap64_int64 z : int64 (wrap64 z).
Proof.
  unfold int64, wrap64, MinInt64, MaxInt64.
  change (2 ^ 63) with 9223372036854775808.
  change (2 ^ 64) with 18446744073709551616.
  pose proof (Z.mod_pos_bound (z + 9223372036854775808) 18446744073709551616
                ltac:(lia)).
  lia.
Qed.

Lemma nextID_int64 tasks : int64 (nextID tasks).
Proof.
  destruct tasks as [|t0 rest]; cbn [nextID].
  - unfold int64, MinInt64, MaxInt64. lia.
  - apply wrap64_int64.
Qed.

Lemma setDone_storable t : storable t -> storable (setDone t).
Proof. intros H. exact H. Qed.

Lemma markFirst_storable id tasks :
  Forall storable tasks -> Forall storable (markFirst id tasks).
Proof.
  intros H. induction H as [|t tasks Ht Hall IH]; cbn [markFirst]; [constructor|].
  destruct (ID t =? id); constructor; auto.
Qed.

Lemma removeFirst_storable id tasks :
  Forall storable tasks -> Forall storable (removeFirst id tasks).
Proof.
  intros H. induction H as [|t tasks Ht Hall IH]; cbn [removeFirst]; [constructor|].
  destruct (ID t =? id); [exact Hall|constructor; auto].
Qed.

Lemma addTask_storable tasks title deadline :
  Forall storable tasks -> utf8.ValidString title = true ->
  Forall storable (fst (addTask tasks title deadline)).
Proof.
  intros Hall Hv. unfold addTask. cbn [fst]. apply Forall_app. split; [exact Hall|].
  constructor; [|constructor]. split; [|split]; cbn [ID Title Deadline].
  - apply nextID_int64.
  - exact Hv.
  - apply parseDeadline_marshalable.
Qed.

(** X11.  The commands keep a collection storable: [addTask] with a
    title that is valid UTF-8 (whatever the deadline argument),
    [deleteTask], [markDone] and [clearTasks] turn storable tasks into
    storable tasks, so that what they leave is written and read back
    unchanged. *)
Theorem storable_preserved (tasks : list Task) :
  Forall storable tasks ->
  (forall title deadline,
     utf8.ValidString title = true ->
     Forall storable (fst (addTask tasks title deadline)))
  /\ (forall id, Forall storable (fst (deleteTask tasks id)))
  /\ (forall id, Forall storable (fst (markDone tasks id)))
  /\ Forall storable clearTasks.
Proof.
  intros Hall. split; [|split; [|split]].
  - intros title deadline Hv. now apply addTask_storable.
  - intros id. rewrite deleteTask_removeFirst. now apply removeFirst_storable.
  - intros id. rewrite markDone_markFirst. now apply markFirst_storable.
  - constructor.
Qed.

Lemma storable_preserved_witness :
  Forall storable (fst (addTask [mkTask 1 "a" false time.zero] "b" "2024-02-29")).
Proof.
  apply (proj1 (storable_preserved [mkTask 1 "a" false time.zero]
                  ltac:(repeat constructor; vm_compute; intuition discriminate))).
  reflexivity.
Defined.

(** Saving storable tasks on a disk that takes the write leaves a file
    that loads as these tasks. *)
Lemma saveTasks_storable d tasks :
  Forall storable tasks -> os.writeFails d = None ->
  exists data,
    saveTasks d tasks = (written data, None)
    /\ forall lenient, loadTasks lenient (written data) = inl tasks.
Proof.
  intros Hall Hw.
  destruct (Unmarshal_MarshalIndent strictOnly tasks Hall) as (data & Hm & _).
  exists data. split.
  - unfold saveTasks, os.WriteFile. now rewrite Hm, Hw.
  - intros lenient.
    destruct (Unmarshal_MarshalIndent lenient tasks Hall) as (data' & Hm' & Hu).
    rewrite Hm in Hm'. injection Hm' as <-.
    unfold loadTasks, os.ReadFile, written. cbn [os.tasks_txt]. now rewrite Hu.
Qed.

(** X12.  On a store of storable tasks that takes the write, [add]
    with a title that is valid UTF-8 exits with status 0 and prints
    the new identifier; the next run loads the old tasks followed by
    the new one, and [list] then prints the old lines followed by the
    line of the new task. *)
Theorem add_then_list (lenient : list ascii -> option time.Time)
  (d : os.Disk) (tasks : list Task) (prog title deadline : string) :
  loadTasks lenient d = inl tasks ->
  Forall storable tasks ->
  utf8.ValidString title = true ->
  os.writeFails d = None ->
  let r := main lenient d [prog; "add"; title; deadline]%string in
  let new := mkTask (nextID tasks) title false (parseDeadline deadline) in
  status r = 0
  /\ stdout r = [addedLine (nextID tasks) title]
  /\ loadTasks lenient (disk r) = inl (tasks ++ [new])
  /\ main lenient (disk r) [prog; "list"]%string
     = mkResult 0 (Println "Tasks:" :: map listLine tasks ++ [listLine new])
         (disk r).
Proof.
  intros Hload Hall Hv Hw r new.
  assert (Hall' : Forall storable (tasks ++ [new])).
  { exact (addTask_storable tasks title deadline Hall Hv). }
  destruct (saveTasks_storable d _ Hall' Hw) as (data & Hsave & Hback).
  assert (Hr : r = mkResult 0 [addedLine (nextID tasks) title] (written data)).
  { subst r. unfold main. rewrite Hload.
    cbn -[addTask saveTasks]. unfold addTask. fold new. now rewrite Hsave. }
  rewrite Hr. cbn [status stdout disk].
  split; [reflexivity|]. split; [reflexivity|]. split; [apply Hback|].
  unfold main. rewrite Hback. cbn.
  destruct (tasks ++ [new]) as [|t ts] eqn:E.
  - destruct tasks; discriminate.
  - rewrite <- E, map_app. reflexivity.
Qed.

Lemma add_then_list_witness :
  let r := main strictOnly (os.mkDisk os.Missing None)
             ["todo"; "add"; "Buy milk"; "2024-02-29"]%string in
  status r = 0
  /\ loadTasks strictOnly (disk r)
     = inl [mkTask 1 "Buy milk" false (parseDeadline "2024-02-29")].
Proof.
  intros r.
  destruct (add_then_list strictOnly (os.mkDisk os.Missing None) []
              "todo" "Buy milk" "2024-02-29" eq_refl (Forall_nil _) eq_refl eq_refl)
    as (Hs & _ & Hl & _).
  split; [exact Hs|exact Hl].
Defined.

Lemma markDone_pair tasks id :
  markDone tasks id = (markFirst id tasks, existsb (fun t => ID t =? id) tasks).
Proof.
  rewrite (surjective_pairing (markDone tasks id)).
  now rewrite markDone_markFirst, markDone_flag.
Qed.

Lemma deleteTask_pair tasks id :
  deleteTask tasks id
  = (removeFirst id tasks, existsb (fun t => ID t =? id) tasks).
Proof.
  rewrite (surjective_pairing (deleteTask tasks id)).
  now rewrite deleteTask_removeFirst, deleteTask_flag.
Qed.





Lemma removeFirst_gone id tasks :
  NoDup (map ID tasks) ->
  existsb (fun t => ID t =? id) (removeFirst id tasks) = false.
Proof.
  intros Hnd. apply absent_existsb. rewrite <- deleteTask_removeFirst.
  destruct (first_match id tasks)
    as [Habs|(front & t & back & -> & Habs & Hid)].
  - unfold deleteTask. now rewrite (deleteLoop_absent _ _ _ _ Habs).
  - rewrite (deleteTask_found _ _ _ _ Habs Hid). cbn [fst].
    rewrite <- Hid. now apply NoDup_map_remove.
Qed.

(** X14.  On a store of storable tasks with unique identifiers that
    takes the write, [delete] for an identifier that some task has
    exits with status 0; the next run loads the collection without
    that task, and a second [delete] or a [done] with the same
    argument reports that the task is not found, exits with status 1
    and leaves the store as it is. *)
Theorem delete_twice (lenient : list ascii -> option time.Time)
  (d : os.Disk) (tasks : list Task) (prog a : string) (id : Z) :
  loadTasks lenient d = inl tasks ->
  Forall storable tasks ->
  NoDup (map ID tasks) ->
  os.writeFails d = None ->
  strconv.Atoi a = Some id ->
  snd (deleteTask tasks id) = true ->
  let r := main lenient d [prog; "delete"; a]%string in
  status r = 0
  /\ loadTasks lenient (disk r) = inl (fst (deleteTask tasks id))
  /\ main lenient (disk r) [prog; "delete"; a]%string
     = mkResult 1 [notFoundLine id] (disk r)
  /\ main lenient (disk r) [prog; "done"; a]%string
     = mkResult 1 [notFoundLine id] (disk r).
Proof.
  intros Hload Hall Hnd Hw Ha Hfound r.
  rewrite deleteTask_pair in Hfound. cbn [snd] in Hfound.
  assert (Hall' : Forall storable (removeFirst id tasks))
    by now apply removeFirst_storable.
  destruct (saveTasks_storable d _ Hall' Hw) as (data & Hsave & Hback).
  assert (Hr : r = mkResult 0
                     [Printf ("%sDeleted task #%d%s" ++ nl)
                        [argS red; argD id; argS reset]] (written data)).
  { subst r. unfold main. rewrite Hload.
    cbn -[deleteTask saveTasks strconv.Atoi]. rewrite Ha, deleteTask_pair, Hfound.
    cbn -[saveTasks]. now rewrite Hsave. }
  rewrite Hr. cbn [status disk]. rewrite deleteTask_pair. cbn [fst].
  split; [reflexivity|]. split; [apply Hback|].
  pose proof (removeFirst_gone id tasks Hnd) as Hgone.
  split; unfold main; rewrite Hback;
    cbn -[deleteTask markDone saveTasks strconv.Atoi]; rewrite Ha.
  - rewrite deleteTask_pair, Hgone. reflexivity.
  - rewrite markDone_pair, Hgone. reflexivity.
Qed.

Lemma delete_twice_witness :
  let d := disk (main strictOnly (os.mkDisk os.Missing None)
                   ["todo"; "add"; "a"]%string) in
  let r := main strictOnly d ["todo"; "delete"; "1"]%string in
  status r = 0
  /\ status (main strictOnly (disk r) ["todo"; "delete"; "1"]%string) = 1.
Proof.
  intros d r.
  destruct (delete_twice strictOnly d [mkTask 1 "a" false time.zero]
              "todo" "1" 1 eq_refl
              ltac:(repeat constructor; vm_compute; intuition discriminate)
              ltac:(repeat constructor; simpl; intuition)
              eq_refl eq_refl eq_refl) as (Hs & _ & Hd & _).
  split; [exact Hs|]. fold d in Hd. fold r in Hd. now rewrite Hd.
Defined.

Lemma encodeTasks_marshalable tasks :
  Forall (fun t => marshalable (Deadline t)) tasks ->
  exists vs, encodeTasks tasks = Some vs.
Proof.
  intros H. induction H as [|t tasks Ht _ [vs IH]]; [now exists []|].
  cbn [encodeTasks]. unfold encodeTask.
  rewrite (appendStrictRFC3339_ok _ Ht), IH. eexists. reflexivity.
Qed.

(** Only a deadline can make the encoder fail. *)
Lemma saveTasks_marshalable d tasks :
  Forall (fun t => marshalable (Deadline t)) tasks ->
  os.writeFails d = None ->
  exists data, saveTasks d tasks = (written data, None).
Proof.
  intros H Hw. destruct (encodeTasks_marshalable tasks H) as [vs Hvs].
  unfold saveTasks, MarshalIndent, os.WriteFile. rewrite Hvs, Hw.
  eexists. reflexivity.
Qed.

(** X15.  After [clear] on a store that loads and takes the write,
    the next run loads the empty collection: [list] reports that there
    are no tasks, and [add] succeeds and numbers its task 1 again. *)
Theorem clear_then_add (lenient : list ascii -> option time.Time)
  (d : os.Disk) (tasks : list Task) (prog title : string) (more : list string) :
  loadTasks lenient d = inl tasks ->
  os.writeFails d = None ->
  let r := main lenient d [prog; "clear"]%string in
  status r = 0
  /\ loadTasks lenient (disk r) = inl []
  /\ main lenient (disk r) [prog; "list"]%string
     = mkResult 0 [Println (yellow ++ "No tasks found" ++ reset)] (disk r)
  /\ status (main lenient (disk r) (prog :: "add" :: title :: more)%string) = 0
  /\ stdout (main lenient (disk r) (prog :: "add" :: title :: more)%string)
     = [addedLine 1 title].
Proof.
  intros Hload Hw r.
  assert (Hr : r = mkResult 0 [Println (yellow ++ "All tasks cleared!" ++ reset)]
                     (written (bytes "[]"))).
  { subst r. unfold main. rewrite Hload. cbn. unfold os.WriteFile.
    now rewrite Hw. }
  rewrite Hr. cbn [status disk].
  assert (Hback : loadTasks lenient (written (bytes "[]")) = inl [])
    by reflexivity.
  split; [reflexivity|]. split; [exact Hback|]. split.
  - unfold main. rewrite Hback. reflexivity.
  - unfold main. rewrite Hback. cbn -[saveTasks addTask].
    unfold addTask. cbn [nextID app].
    match goal with
    | |- context [saveTasks ?d0 ?ts] =>
        destruct (saveTasks_marshalable d0 ts) as (data & ->);
          [repeat constructor; apply parseDeadline_marshalable|reflexivity|]
    end.
    split; reflexivity.
Qed.

Lemma clear_then_add_witness :
  let r := main strictOnly (os.mkDisk os.Missing None) ["todo"; "clear"]%string in
  status r = 0 /\ loadTasks strictOnly (disk r) = inl [].
Proof.
  intros r.
  destruct (clear_then_add strictOnly (os.mkDisk os.Missing None) []
              "todo" "a" [] eq_refl eq_refl) as (Hs & Hl & _).
  split; [exact Hs|exact Hl].
Defined.

(** ** Failures *)

Lemma saveTasks_failed d tasks d' err :
  saveTasks d tasks = (d', Some err) -> os.writeFails d = None -> d' = d.
Proof.
  unfold saveTasks, os.WriteFile. intros H Hw.
  destruct (MarshalIndent tasks) as [data|e].
  - rewrite Hw in H. discriminate.
  - now injection H as <- _.
Qed.

(** What [main] does once the collection is loaded and the command has
    gone through: it saves after the four commands that change the
    collection. *)
Lemma main_after_dispatch lenient d tasks prog cmd rest :
  loadTasks lenient d = inl tasks ->
  main lenient d (prog :: cmd :: rest)
  = match dispatch cmd tasks (prog :: cmd :: rest) with
    | Exit code out => mkResult code out d
    | Go tasks' out =>
        if existsb (String.eqb cmd) savingCommands then
          match saveTasks d tasks' with
          | (d', Some err) =>
              mkResult 1
                (out ++ [Printf ("Error saving tasks: %v" ++ nl) [argV err]]) d'
          | (d', None) => mkResult 0 out d'
          end
        else mkResult 0 out d
    end.
Proof.
  intros Hload. unfold main. rewrite Hload.
  destruct (dispatch cmd tasks (prog :: cmd :: rest)); [reflexivity|].
  unfold savingCommands. cbn [existsb]. rewrite orb_false_r, !orb_assoc.
  reflexivity.
Qed.

(** The ways [dispatch] leaves: with status 1 and a message, or with a
    collection and a message. *)
Lemma dispatch_cases cmd tasks Args :
  (exists out, dispatch cmd tasks Args = Exit 1 out /\ out <> [])
  \/ (exists tasks' out, dispatch cmd tasks Args = Go tasks' out /\ out <> []).
Proof.
  unfold dispatch, withID.
  destruct (cmd =? "add")%string.
  { destruct Args as [|a0 [|a1 [|title more]]];
      try (left; eexists; split; [reflexivity|discriminate]).
    destruct (addTask tasks title _) as [ts newID].
    right. do 2 eexists. split; [reflexivity|discriminate]. }
  destruct (cmd =? "list")%string.
  { destruct tasks; right; do 2 eexists; split; try reflexivity; discriminate. }
  destruct (cmd =? "delete")%string.
  { destruct Args as [|a0 [|a1 [|a more]]];
      try (left; eexists; split; [reflexivity|discriminate]).
    destruct (strconv.Atoi a) as [id|];
      [|left; eexists; split; [reflexivity|discriminate]].
    destruct (deleteTask tasks id) as [ts []]; cbn [negb].
    - right. do 2 eexists. split; [reflexivity|discriminate].
    - left. eexists. split; [reflexivity|discriminate]. }
  destruct (cmd =? "done")%string.
  { destruct Args as [|a0 [|a1 [|a more]]];
      try (left; eexists; split; [reflexivity|discriminate]).
    destruct (strconv.Atoi a) as [id|];
      [|left; eexists; split; [reflexivity|discriminate]].
    destruct (markDone tasks id) as [ts []]; cbn [negb].
    - right. do 2 eexists. split; [reflexivity|discriminate].
    - left. eexists. split; [reflexivity|discriminate]. }
  destruct (cmd =? "clear")%string.
  { right. do 2 eexists. split; [reflexivity|discriminate]. }
  left. eexists. split; [reflexivity|discriminate].
Qed.

Lemma app_not_nil {A} (l l' : list A) : l <> [] -> l ++ l' <> [].
Proof. destruct l; [contradiction|discriminate]. Qed.

(** X16.  Every run exits with status 0 or 1 and prints something.
    A run that exits with status 1 leaves the store as it was, unless
    the write itself failed; and only [add], [delete], [done] and
    [clear] ever change the store. *)
Theorem failed_run_keeps_store (lenient : list ascii -> option time.Time)
  (d : os.Disk) (Args : list string) :
  let r := main lenient d Args in
  (status r = 0 \/ status r = 1)
  /\ stdout r <> []
  /\ (status r = 1 -> os.writeFails d = None -> disk r = d)
  /\ (disk r <> d ->
      exists prog cmd rest,
        Args = prog :: cmd :: rest /\ In cmd savingCommands).
Proof.
  intros r. subst r.
  destruct (loadTasks lenient d) as [tasks|err] eqn:Hload.
  2:{ unfold main. rewrite Hload. cbn [status stdout disk].
      repeat split; auto; try discriminate. intros H. now contradiction H. }
  destruct Args as [|prog [|cmd rest]].
  1,2: unfold main; rewrite Hload; cbn [status stdout disk];
    repeat split; auto; try discriminate; intros H; now contradiction H.
  rewrite (main_after_dispatch lenient d tasks prog cmd rest Hload).
  destruct (dispatch_cases cmd tasks (prog :: cmd :: rest))
    as [(out & -> & Hout)|(tasks' & out & -> & Hout)].
  { cbn [status stdout disk]. repeat split; auto.
    intros H. now contradiction H. }
  destruct (existsb (String.eqb cmd) savingCommands) eqn:Hsav.
  2:{ cbn [status stdout disk]. repeat split; auto; try discriminate.
      intros H. now contradiction H. }
  assert (Hin : In cmd savingCommands).
  { apply existsb_exists in Hsav. destruct Hsav as (c & Hc & E).
    apply String.eqb_eq in E. now subst. }
  destruct (saveTasks d tasks') as [d' [err|]] eqn:Hsave; cbn [status stdout disk].
  - repeat split; auto.
    + now apply app_not_nil.
    + intros _ Hw. exact (saveTasks_failed d tasks' d' err Hsave Hw).
    + intros _. exists prog, cmd, rest. auto.
  - repeat split; auto; try discriminate.
    intros _. exists prog, cmd, rest. auto.
Qed.

Lemma failed_run_keeps_store_witness :
  let d := os.mkDisk (os.Content (bytes "[]")) None in
  disk (main strictOnly d ["todo"; "done"; "7"]%string) = d.
Proof.
  intros d.
  apply (proj1 (proj2 (proj2 (failed_run_keeps_store strictOnly d
                                ["todo"; "done"; "7"]%string))));
    reflexivity.
Defined.

(** X17.  On a store that loads, a run without a command or with an
    unknown command prints the usage and exits with status 1; [add]
    without a title, and [delete] and [done] without an identifier,
    with one that is not a number, or with the number of no task, each
    print their message and exit with status 1; none of these runs
    touches the store. *)
Theorem argument_errors (lenient : list ascii -> option time.Time)
  (d : os.Disk) (tasks : list Task) (prog : string) :
  loadTasks lenient d = inl tasks ->
  main lenient d [] = mkResult 1 printUsage d
  /\ main lenient d [prog] = mkResult 1 printUsage d
  /\ (forall cmd rest,
        ~ In cmd knownCommands ->
        main lenient d (prog :: cmd :: rest) = mkResult 1 printUsage d)
  /\ main lenient d [prog; "add"]%string
     = mkResult 1 (Println "Error: Task title is required" :: printUsage) d
  /\ (forall cmd,
        cmd = "delete"%string \/ cmd = "done"%string ->
        main lenient d [prog; cmd]
        = mkResult 1 (Println "Error: Task ID is required" :: printUsage) d
        /\ (forall a more,
              strconv.Atoi a = None ->
              main lenient d (prog :: cmd :: a :: more)
              = mkResult 1 [Println "Error: ID must be a number"] d)
        /\ (forall a more id,
              strconv.Atoi a = Some id -> absent id tasks ->
              main lenient d (prog :: cmd :: a :: more)
              = mkResult 1 [notFoundLine id] d)).
Proof.
  intros Hload. split; [|split; [|split; [|split]]].
  - unfold main. now rewrite Hload.
  - unfold main. now rewrite Hload.
  - intros cmd rest Hnot.
    rewrite (main_after_dispatch lenient d tasks prog cmd rest Hload).
    unfold dispatch.
    assert (Hne : forall c, In c knownCommands -> (cmd =? c)%string = false).
    { intros c Hc. apply String.eqb_neq. intros ->. contradiction. }
    rewrite !Hne by (cbn; auto 6). reflexivity.
  - rewrite (main_after_dispatch lenient d tasks _ _ _ Hload). reflexivity.
  - intros cmd Hcmd. split; [|split].
    + rewrite (main_after_dispatch lenient d tasks _ _ _ Hload).
      destruct Hcmd as [-> | ->]; reflexivity.
    + intros a more Ha.
      rewrite (main_after_dispatch lenient d tasks _ _ _ Hload).
      destruct Hcmd as [-> | ->]; cbn -[strconv.Atoi]; now rewrite Ha.
    + intros a more id Ha Habs.
      rewrite (main_after_dispatch lenient d tasks _ _ _ Hload).
      destruct Hcmd as [-> | ->];
        cbn -[strconv.Atoi deleteTask markDone]; rewrite Ha.
      * unfold deleteTask. now rewrite (deleteLoop_absent _ _ _ _ Habs).
      * now rewrite (markDone_absent _ _ Habs).
Qed.

Lemma argument_errors_witness :
  main strictOnly (os.mkDisk os.Missing None) ["todo"; "done"; "x"]%string
  = mkResult 1 [Println "Error: ID must be a number"] (os.mkDisk os.Missing None).
Proof.
  destruct (argument_errors strictOnly (os.mkDisk os.Missing None) [] "todo"
              eq_refl) as (_ & _ & _ & _ & H).
  destruct (H "done"%string (or_intror eq_refl)) as (_ & Hnum & _).
  apply Hnum. reflexivity.
Defined.

(** ** The identifier argument *)

Lemma parseDigits_inv ds : forall a v,
  strconv.parseDigits ds a = Some v ->
  Forall (fun c => isDigit c = true) ds /\ v = digitsValue ds a.
Proof.
  induction ds as [|c ds IH]; intros a v; cbn [strconv.parseDigits].
  - intros H. injection H as <-. split; [constructor|reflexivity].
  - destruct (isDigit c) eqn:Hc; [|discriminate]. intros H.
    destruct (IH _ _ H) as [Hds ->]. split; [now constructor|reflexivity].
Qed.

Lemma int64b_spec n : int64b n = true <-> int64 n.
Proof. unfold int64b, int64. rewrite andb_true_iff. lia. Qed.

Lemma digit_not_sign c :
  isDigit c = true -> (c =? "-")%char = false /\ (c =? "+")%char = false.
Proof.
  intros H. split.
  - destruct (Ascii.eqb_spec c "-"); [subst; discriminate|reflexivity].
  - destruct (Ascii.eqb_spec c "+"); [subst; discriminate|reflexivity].
Qed.

(** X18.  The identifier argument of [delete] and [done]:
    [strconv.Atoi] accepts exactly an optional sign followed by one or
    more decimal digits whose value is an [int], and yields that
    value; in particular it reads back the text that the store writes
    for an identifier. *)
Theorem id_argument (s : string) (n : Z) :
  (strconv.Atoi s = Some n <->
   exists sign digits,
     bytes s = sign ++ digits
     /\ (sign = [] \/ sign = ["+"%char] \/ sign = ["-"%char])
     /\ digits <> []
     /\ Forall (fun c => isDigit c = true) digits
     /\ n = signedValue sign digits
     /\ int64 n)
  /\ (int64 n -> strconv.Atoi (gostring (strconv.FormatInt n)) = Some n).
Proof.
  split.
  - unfold strconv.Atoi, strconv.ParseInt. split.
    + destruct (bytes s) as [|c rest]; [discriminate|].
      destruct (Ascii.eqb_spec c "-") as [->|Hm]; cbn [orb].
      * destruct rest as [|c1 rest1]; [discriminate|].
        destruct (strconv.parseDigits (c1 :: rest1) 0) as [u|] eqn:Hp;
          [|discriminate].
        destruct (int64b (- u)) eqn:Hr; [|discriminate].
        intros H. injection H as <-.
        destruct (parseDigits_inv _ _ _ Hp) as [Hds ->].
        exists ["-"%char], (c1 :: rest1). repeat split; auto.
        -- discriminate.
        -- now apply int64b_spec.
        -- now apply int64b_spec.
      * destruct (Ascii.eqb_spec c "+") as [->|Hpl].
        -- destruct rest as [|c1 rest1]; [discriminate|].
           destruct (strconv.parseDigits (c1 :: rest1) 0) as [u|] eqn:Hp;
             [|discriminate].
           destruct (int64b u) eqn:Hr; [|discriminate].
           intros H. injection H as <-.
           destruct (parseDigits_inv _ _ _ Hp) as [Hds ->].
           exists ["+"%char], (c1 :: rest1). repeat split; auto.
           ++ discriminate.
           ++ now apply int64b_spec.
           ++ now apply int64b_spec.
        -- destruct (strconv.parseDigits (c :: rest) 0) as [u|] eqn:Hp;
             [|discriminate].
           destruct (int64b u) eqn:Hr; [|discriminate].
           intros H. injection H as <-.
           destruct (parseDigits_inv _ _ _ Hp) as [Hds ->].
           exists [], (c :: rest). repeat split; auto.
           ++ discriminate.
           ++ now apply int64b_spec.
           ++ now apply int64b_spec.
    + intros (sign & digits & -> & Hsign & Hne & Hds & -> & Hr).
      destruct digits as [|c1 rest1]; [contradiction|].
      destruct Hsign as [->|[->| ->]]; cbn [app signedValue] in *.
      * destruct (digit_not_sign c1 (Forall_inv Hds)) as [-> ->]. cbn [orb].
        rewrite (parseDigits_value _ 0 Hds).
        now rewrite (proj2 (int64b_spec _) Hr).
      * change ("+" =? "-")%char with false in *.
        change ("+" =? "+")%char with true. cbn [orb].
        rewrite (parseDigits_value _ 0 Hds).
        now rewrite (proj2 (int64b_spec _) Hr).
      * change ("-" =? "-")%char with true in *. cbn [orb].
        rewrite (parseDigits_value _ 0 Hds).
        now rewrite (proj2 (int64b_spec _) Hr).
  - intros Hn. unfold strconv.Atoi, bytes, gostring.
    rewrite list_ascii_of_string_of_list_ascii.
    now destruct (FormatInt_shape n Hn) as (_ & _ & _ & _ & _ & _ & _ & H).
Qed.

Lemma id_argument_witness :
  strconv.Atoi (gostring (strconv.FormatInt (-42))) = Some (-42).
Proof.
  apply (proj2 (id_argument "" (-42))). unfold int64, MinInt64, MaxInt64. lia.
Defined.

(** ** Saving *)

Lemma encodeTasks_fails tasks t :
  In t tasks -> time.appendStrictRFC3339 (Deadline t) = None ->
  encodeTasks tasks = None.
Proof.
  intros Hin Hnone. induction tasks as [|x tasks IH]; [destruct Hin|].
  cbn [encodeTasks]. destruct Hin as [->|Hin].
  - unfold encodeTask. now rewrite Hnone.
  - rewrite (IH Hin). now destruct (encodeTask x).
Qed.

Lemma encodeTasks_succeeds tasks :
  (forall t, In t tasks -> time.appendStrictRFC3339 (Deadline t) <> None) ->
  exists vs, encodeTasks tasks = Some vs.
Proof.
  induction tasks as [|x tasks IH]; intros H; [now exists []|].
  cbn [encodeTasks]. unfold encodeTask.
  destruct (time.appendStrictRFC3339 (Deadline x)) as [b|] eqn:E.
  - destruct IH as [vs ->]; [intros t Ht; apply H; now right|].
    eexists. reflexivity.
  - exfalso. apply (H x); [now left|exact E].
Qed.

(** X19.  [saveTasks] fails in two ways only.  When some deadline
    cannot be written as RFC 3339 (a year outside 0000 to 9999) it
    returns the encoder's error and does not touch the file; otherwise
    it succeeds or fails as the write does, whatever the identifiers
    and titles.  Marshalable deadlines can always be written. *)
Theorem saveTasks_outcomes (d : os.Disk) (tasks : list Task) :
  ((exists t, In t tasks /\ time.appendStrictRFC3339 (Deadline t) = None) ->
   saveTasks d tasks = (d, Some MarshalerError))
  /\ ((forall t, In t tasks -> time.appendStrictRFC3339 (Deadline t) <> None) ->
      exists data,
        MarshalIndent tasks = inl data
        /\ (os.writeFails d = None -> saveTasks d tasks = (written data, None))
        /\ (forall residue,
              os.writeFails d = Some residue ->
              saveTasks d tasks
              = (os.mkDisk residue (Some residue), Some ErrIO)))
  /\ ((forall t, In t tasks -> marshalable (Deadline t)) ->
      forall t, In t tasks -> time.appendStrictRFC3339 (Deadline t) <> None).
Proof.
  split; [|split].
  - intros (t & Hin & Hnone). unfold saveTasks, MarshalIndent.
    now rewrite (encodeTasks_fails tasks t Hin Hnone).
  - intros H. destruct (encodeTasks_succeeds tasks H) as [vs Hvs].
    unfold saveTasks, MarshalIndent, os.WriteFile. rewrite Hvs.
    eexists. split; [reflexivity|]. split.
    + intros ->. reflexivity.
    + intros residue ->. reflexivity.
  - intros H t Hin. rewrite (appendStrictRFC3339_ok _ (H t Hin)). discriminate.
Qed.

Lemma saveTasks_outcomes_witness :
  let late := time.mkTime 400000000000 0 0 in
  saveTasks (os.mkDisk os.Missing None) [mkTask 1 "a" false late]
  = (os.mkDisk os.Missing None, Some MarshalerError).
Proof.
  intros late.
  apply (proj1 (saveTasks_outcomes (os.mkDisk os.Missing None)
                  [mkTask 1 "a" false late])).
  exists (mkTask 1 "a" false late). split; [now left|]. vm_compute. reflexivity.
Defined.

(** ** Titles that are not valid UTF-8 *)

Lemma replacement_escape fuel :
  (forall tail,
     json.unquoteLoop (S fuel) (backslash :: bytes "ufffd" ++ tail)
     = match json.unquoteLoop fuel tail with
       | Some t => Some (utf8.EncodeRune utf8.RuneError ++ t)
       | None => None
       end)
  /\ forall X,
       json.scanString (backslash :: bytes "ufffd" ++ X)
       = match json.scanString X with
         | Some (raw, r') => Some (backslash :: bytes "ufffd" ++ raw, r')
         | None => None
         end.
Proof.
  split; intros X;
    cbv -[json.unquoteLoop json.scanString];
    cbn [json.unquoteLoop json.scanString];
    cbv -[json.unquoteLoop json.scanString];
    try destruct (json.unquoteLoop fuel X) as [t|];
    try destruct (json.scanString X) as [[raw r']|]; reflexivity.
Qed.

Lemma quoteByte_length b : (1 <= List.length (quoteByte b))%nat.
Proof.
  unfold quoteByte, json.escapeByte.
  repeat match goal with
         | |- context [if ?c then _ else _] => destruct c
         end; cbn; lia.
Qed.

(** On every string the encoder's text is a string literal that the
    scanner accepts; the decoder reads it back with the invalid bytes
    replaced. *)
Lemma quoteLoop_any n : forall s f1 fv f2,
  (List.length s <= n)%nat ->
  (List.length s <= f1)%nat -> (List.length s <= fv)%nat ->
  (List.length s <= f2)%nat ->
  (forall X, json.scanString (json.quoteLoop f1 s ++ dquote :: X)
             = Some (json.quoteLoop f1 s, X))
  /\ json.unquoteLoop f2 (json.quoteLoop f1 s) = Some (replaceLoop fv s)
  /\ (List.length s <= List.length (json.quoteLoop f1 s))%nat.
Proof.
  induction n as [|n IH]; intros s f1 fv f2 Hn H1 Hv H2.
  - destruct s; [|cbn in Hn; lia].
    destruct f1, f2, fv; repeat split; cbn; auto.
  - destruct s as [|b rest].
    { destruct f1, f2, fv; repeat split; cbn; auto. }
    cbn [List.length] in *.
    destruct f1 as [|f1]; [lia|]. destruct fv as [|fv]; [lia|].
    destruct f2 as [|f2]; [lia|].
    cbn [json.quoteLoop replaceLoop] in *.
    destruct (Z.ltb_spec (byteVal b) 128) as [Hlow|Hhigh].
    + destruct (IH rest f1 fv f2) as (IHs & IHu & IHl); try lia.
      fold (quoteByte b). repeat split.
      * intros X. rewrite <- app_assoc, quoteByte_scan, IHs by exact Hlow.
        reflexivity.
      * rewrite quoteByte_unquote, IHu by exact Hlow. reflexivity.
      * rewrite length_app. pose proof (quoteByte_length b). lia.
    + destruct (utf8.DecodeRune (b :: rest)) as [r size] eqn:Hdec.
      destruct ((r =? utf8.RuneError) && (size =? 1)%nat) eqn:Herr.
      { destruct (IH rest f1 fv f2) as (IHs & IHu & IHl); try lia.
        destruct (replacement_escape f2) as [Hu Hs].
        repeat split.
        - intros X. rewrite <- app_comm_cons, <- app_assoc.
          rewrite Hs, IHs. reflexivity.
        - rewrite Hu, IHu. reflexivity.
        - cbn [List.length]. rewrite length_app.
          change (List.length (bytes "ufffd")) with 5%nat. lia. }
      destruct (DecodeRune_multibyte b rest r size ltac:(lia) Hdec
                  (not_error_pair _ _ Herr))
        as (chunk & rest' & Hsplit & Hlen & Hhi & Henc & Hdec').
      rewrite Hsplit in *. subst size.
      rewrite skipn_chunk in *. rewrite firstn_chunk.
      assert (Hcl : (1 <= List.length chunk)%nat).
      { destruct chunk; [|cbn; lia]. exfalso. exact (EncodeRune_nonempty r Henc). }
      assert (Hrest : (List.length (chunk ++ rest') = List.length chunk + List.length rest')%nat)
        by apply length_app.
      assert (Hbr : (List.length (chunk ++ rest') = S (List.length rest))%nat)
        by (rewrite <- Hsplit; reflexivity).
      destruct (IH rest' f1 fv f2) as (IHs & IHu & IHl); try lia.
      assert (Hcne : chunk <> []) by (intros ->; cbn in Hcl; lia).
      destruct ((r =? 8232) || (r =? 8233)) eqn:Hsep.
      * assert (Hr : r = 8232 \/ r = 8233).
        { apply orb_true_iff in Hsep. destruct Hsep as [E|E];
            apply Z.eqb_eq in E; auto. }
        destruct (separator_escape r chunk f2 Hr Henc) as [Hu Hs].
        repeat split.
        -- intros X. rewrite <- app_comm_cons, <- app_assoc, <- app_comm_cons.
           rewrite Hs, IHs. reflexivity.
        -- rewrite Hu, IHu. reflexivity.
        -- cbn [List.length]. rewrite (length_app (bytes "u202")).
           change (List.length (bytes "u202")) with 4%nat. cbn [List.length].
           assert (List.length chunk <= 4)%nat; [|lia].
           rewrite <- Henc. destruct Hr as [-> | ->]; cbn; lia.
      * repeat split.
        -- intros X. rewrite <- app_assoc.
           rewrite (scanString_plain chunk _ (high_chunk_plain _ Hhi)), IHs.
           reflexivity.
        -- rewrite (unquoteLoop_chunk chunk r _ f2 Hcne Hhi Henc (Hdec' _)), IHu.
           reflexivity.
        -- rewrite !length_app. lia.
Qed.

Lemma quote_any s :
  (forall X, json.scanString (json.quote s ++ dquote :: X) = Some (json.quote s, X))
  /\ json.unquote (json.quote s) = Some (replaceInvalid s).
Proof.
  unfold json.quote, json.unquote, replaceInvalid.
  destruct (quoteLoop_any (List.length s) s (List.length s) (List.length s)
              (List.length s) ltac:(lia) ltac:(lia) ltac:(lia) ltac:(lia))
    as (Hs & _ & Hl).
  split; [exact Hs|].
  apply (quoteLoop_any (List.length s) s (List.length s) (List.length s));
    auto.
Qed.

Lemma replaceInvalid_valid s : utf8.Valid s = true -> replaceInvalid s = s.
Proof.
  intros Hv. destruct (quote_roundtrip s Hv) as [_ H1].
  destruct (quote_any s) as [_ H2]. congruence.
Qed.

Lemma wellFormed_nil : wellFormed [].
Proof. intros [|f] _; reflexivity. Qed.

Lemma wellFormed_ascii c t :
  byteVal c < 128 -> wellFormed t -> wellFormed (c :: t).
Proof.
  intros Hc Ht [|f] Hf; cbn [List.length] in Hf; [lia|].
  cbn [utf8.validLoop].
  replace (byteVal c <? 128) with true by (symmetry; apply Z.ltb_lt; lia).
  apply Ht. lia.
Qed.

Lemma wellFormed_chunk chunk r t :
  chunk <> [] -> Forall (fun c => 128 <= byteVal c) chunk ->
  utf8.DecodeRune (chunk ++ t) = (r, List.length chunk) ->
  (r, List.length chunk) <> (utf8.RuneError, 1%nat) ->
  wellFormed t -> wellFormed (chunk ++ t).
Proof.
  intros Hne Hhi Hdec Herr Ht f Hf.
  destruct chunk as [|c0 chunk']; [contradiction|].
  rewrite length_app in Hf. cbn [List.length] in Hf.
  destruct f as [|f]; [lia|].
  change ((c0 :: chunk') ++ t) with (c0 :: (chunk' ++ t)) in *.
  cbn [utf8.validLoop].
  pose proof (Forall_inv Hhi) as H0. cbn beta in H0.
  replace (byteVal c0 <? 128) with false by (symmetry; apply Z.ltb_ge; lia).
  rewrite Hdec.
  destruct ((r =? utf8.RuneError) && (List.length (c0 :: chunk') =? 1)%nat) eqn:E.
  - exfalso. apply Herr. apply andb_true_iff in E. destruct E as [E1 E2].
    apply Z.eqb_eq in E1. apply Nat.eqb_eq in E2. now rewrite E1, E2.
  - change (c0 :: chunk' ++ t) with ((c0 :: chunk') ++ t).
    rewrite skipn_chunk. apply Ht. lia.
Qed.

Lemma wellFormed_replacement t :
  wellFormed t -> wellFormed (utf8.EncodeRune utf8.RuneError ++ t).
Proof.
  intros Ht.
  apply (wellFormed_chunk (utf8.EncodeRune utf8.RuneError) utf8.RuneError t);
    [discriminate
    |repeat constructor; vm_compute; discriminate
    |reflexivity
    |discriminate
    |exact Ht].
Qed.

Lemma replaceLoop_wellFormed n : forall s fuel,
  (List.length s <= n)%nat -> (List.length s <= fuel)%nat ->
  wellFormed (replaceLoop fuel s).
Proof.
  induction n as [|n IH]; intros s fuel Hn Hf.
  - destruct s; [|cbn in Hn; lia]. destruct fuel; apply wellFormed_nil.
  - destruct s as [|b rest]; [destruct fuel; apply wellFormed_nil|].
    cbn [List.length] in *. destruct fuel as [|fuel]; [lia|].
    cbn [replaceLoop].
    destruct (Z.ltb_spec (byteVal b) 128) as [Hlow|Hhigh].
    + apply wellFormed_ascii; [exact Hlow|]. apply IH; lia.
    + destruct (utf8.DecodeRune (b :: rest)) as [r size] eqn:Hdec.
      destruct ((r =? utf8.RuneError) && (size =? 1)%nat) eqn:Herr.
      { apply wellFormed_replacement. apply IH; lia. }
      destruct (DecodeRune_multibyte b rest r size ltac:(lia) Hdec
                  (not_error_pair _ _ Herr))
        as (chunk & rest' & Hsplit & Hlen & Hhi & Henc & Hdec').
      rewrite Hsplit in *. subst size.
      rewrite skipn_chunk, firstn_chunk.
      assert (Hcne : chunk <> []).
      { intros ->. exact (EncodeRune_nonempty r Henc). }
      assert (Hlen' : (List.length chunk + List.length rest' = S (List.length rest))%nat).
      { rewrite <- length_app, <- Hsplit. reflexivity. }
      assert (Hcl : (1 <= List.length chunk)%nat).
      { destruct chunk; [contradiction|cbn; lia]. }
      apply (wellFormed_chunk chunk r); auto.
      * apply not_error_pair. exact Herr.
      * apply IH; lia.
Qed.

Lemma replaceInvalid_Valid s : utf8.Valid (replaceInvalid s) = true.
Proof.
  unfold utf8.Valid, replaceInvalid.
  apply (replaceLoop_wellFormed (List.length s) s (List.length s));
    auto with arith.
Qed.

Lemma encodeTasks_savable tasks :
  Forall savable tasks -> encodeTasks tasks = Some (map taskValue tasks).
Proof.
  intros H. induction H as [|t tasks [_ Hm] _ IH]; [reflexivity|].
  cbn [encodeTasks map]. unfold encodeTask at 1.
  now rewrite (appendStrictRFC3339_ok _ Hm), IH.
Qed.

#[local] Opaque json.newline bytes strconv.FormatInt json.quote time.formatRFC3339.

(** The parser reads the text of a savable task's object back. *)
Lemma parseValue_savable t f tail :
  savable t -> (5 <= f)%nat ->
  json.parseValue f 1 (json.newline 1 ++ json.printIndent 1 (taskValue t) ++ tail)
  = Some (taskValue t, tail).
Proof.
  intros (Hid & Hdl) Hf.
  destruct f as [|f]; [lia|].
  destruct (quote_any (bytes (Title t))) as [Hscan _].
  pose proof (plain_formatRFC3339 _ Hdl) as Hplain.
  rewrite parseValue_newline.
  unfold taskValue. cbn [json.printIndent].
  repeat (rewrite <- app_assoc || rewrite <- app_comm_cons || rewrite app_nil_l).
  rewrite parseValue_object by reflexivity.
  destruct f as [|[|[|[|f]]]]; try lia.
  set (pv := json.parseValue (S (S (S (S f)))) (1 + 1)).
  erewrite parseMembers_member;
    [|exact plain_bytes_id
     |apply parseValue_number; [exact Hid|apply delimited_comma]].
  rewrite skipSpace_stop by reflexivity. cbv beta iota.
  change ("," =? ",")%char with true. cbv iota.
  erewrite parseMembers_member;
    [|exact plain_bytes_title|apply parseValue_string; exact Hscan].
  rewrite skipSpace_stop by reflexivity. cbv beta iota.
  change ("," =? ",")%char with true. cbv iota.
  erewrite parseMembers_member;
    [|exact plain_bytes_done|apply parseValue_bool].
  rewrite skipSpace_stop by reflexivity. cbv beta iota.
  change ("," =? ",")%char with true. cbv iota.
  erewrite parseMembers_member;
    [|exact plain_bytes_deadline
     |apply parseValue_string; intros X; apply scanString_closed; exact Hplain].
  rewrite skipSpace_newline.
  rewrite skipSpace_stop by reflexivity. cbv beta iota.
  change ("}" =? ",")%char with false. change ("}" =? "}")%char with true.
  cbv iota. reflexivity.
Qed.

#[local] Transparent json.newline bytes strconv.FormatInt json.quote time.formatRFC3339.

Lemma parseElements_savable f tasks : forall n t tail,
  Forall savable (t :: tasks) -> (5 <= f)%nat -> (List.length tasks < n)%nat ->
  json.parseElements (json.parseValue f 1) n
    (json.newline 1 ++ json.printIndent 1 (taskValue t)
       ++ moreElements 1 (map taskValue tasks)
       ++ json.newline 0 ++ "]"%char :: tail)
  = Some (map taskValue (t :: tasks), tail).
Proof.
  induction tasks as [|t' tasks IH]; intros n t tail Hall Hf Hn;
    (destruct n as [|n]; [cbn in Hn; lia|]);
    pose proof (Forall_inv Hall) as Ht;
    cbn [json.parseElements]; rewrite (parseValue_savable t f _ Ht Hf).
  - cbn [map moreElements app]. rewrite skipSpace_newline.
    rewrite skipSpace_stop by reflexivity. reflexivity.
  - cbn [map moreElements]. rewrite <- app_comm_cons.
    rewrite skipSpace_stop by reflexivity. cbv beta iota.
    change ("," =? ",")%char with true. cbv iota.
    rewrite <- !app_assoc.
    rewrite (IH n t' tail (Forall_inv_tail Hall) Hf); [reflexivity|].
    cbn [List.length] in Hn. lia.
Qed.

(** The parser reads the text of every collection that can be written
    back. *)
Lemma Parse_savable tasks :
  Forall savable tasks ->
  json.Parse (json.printIndent 0 (json.Array (map taskValue tasks)))
  = Some (json.Array (map taskValue tasks)).
Proof.
  intros Hall. destruct tasks as [|t tasks]; [reflexivity|].
  cbn [map]. rewrite printIndent_array. unfold json.Parse.
  destruct (taskValue_head t) as (r & Hr & Hlen).
  cbn [List.length].
  set (f := S (List.length _)).
  assert (Hfuel : (5 <= f /\ List.length tasks < f)%nat).
  { subst f. rewrite !length_app, Hr.
    pose proof (moreElements_length 1 (map taskValue tasks)) as Hm.
    rewrite length_map in Hm. cbn [List.length]. lia. }
  clearbody f.
  rewrite Hr. rewrite <- app_comm_cons.
  rewrite parseValue_array by reflexivity.
  rewrite app_comm_cons, <- Hr. change (0 + 1) with 1.
  rewrite (parseElements_savable f tasks f t [] Hall); [reflexivity|lia|lia].
Qed.

Lemma decodeTask_savable lenient t saved :
  savable t -> decodeTask lenient (taskValue t) saved = inl (asLoaded t, saved).
Proof.
  intros (Hid & Hdl).
  destruct (FormatInt_shape (ID t) Hid) as (_ & _ & _ & _ & _ & _ & _ & Hint).
  destruct (quote_any (bytes (Title t))) as [_ Hunq].
  pose proof (parseRFC3339_formatRFC3339 _ Hdl) as Htime.
  unfold taskValue, decodeTask. cbn [decodeMembers].
  change (json.unquote (bytes "id")) with (Some (bytes "id")).
  change (json.unquote (bytes "title")) with (Some (bytes "title")).
  change (json.unquote (bytes "done")) with (Some (bytes "done")).
  change (json.unquote (bytes "deadline")) with (Some (bytes "deadline")).
  cbv iota beta.
  change (lookupField (bytes "id")) with (Some fID).
  change (lookupField (bytes "title")) with (Some fTitle).
  change (lookupField (bytes "done")) with (Some fDone).
  change (lookupField (bytes "deadline")) with (Some fDeadline).
  cbv iota beta.
  unfold bind, decodeInt, decodeString, decodeBool, decodeTime,
    parseStrictRFC3339, ret.
  rewrite Hint, Hunq, Htime. cbn [ID Title Done Deadline zeroTask].
  reflexivity.
Qed.

Lemma decodeElements_savable lenient tasks : forall saved,
  Forall savable tasks ->
  decodeElements lenient (map taskValue tasks) saved
  = inl (map asLoaded tasks, saved).
Proof.
  induction tasks as [|t tasks IH]; intros saved Hall; [reflexivity|].
  cbn [map decodeElements]. unfold bind at 1.
  rewrite (decodeTask_savable lenient t saved (Forall_inv Hall)).
  unfold bind at 1. rewrite (IH saved (Forall_inv_tail Hall)). reflexivity.
Qed.

Lemma asLoaded_storable t : savable t -> storable (asLoaded t).
Proof.
  intros (Hid & Hdl). split; [exact Hid|]. split; [|exact Hdl].
  cbn [asLoaded Title]. unfold utf8.ValidString, bytes, gostring.
  rewrite list_ascii_of_string_of_list_ascii. apply replaceInvalid_Valid.
Qed.

Lemma asLoaded_id t : storable t -> asLoaded t = t.
Proof.
  intros (_ & Hv & _). unfold asLoaded.
  rewrite (replaceInvalid_valid _ Hv). unfold gostring, bytes.
  rewrite string_of_list_ascii_of_string. now destruct t.
Qed.

(** X20.  Saving and loading a collection whose identifiers are
    [int]s and whose deadlines are marshalable, whatever the titles:
    [saveTasks] succeeds when the write does, and [loadTasks] then
    returns the same tasks with every byte of a title that is not part
    of a valid UTF-8 encoding replaced by U+FFFD.  What is read back
    is storable, and it is the collection itself when that was
    storable. *)
Theorem save_load_replaces (lenient : list ascii -> option time.Time)
  (d : os.Disk) (tasks : list Task) :
  Forall savable tasks ->
  os.writeFails d = None ->
  exists data,
    saveTasks d tasks = (written data, None)
    /\ loadTasks lenient (written data) = inl (map asLoaded tasks)
    /\ Forall storable (map asLoaded tasks)
    /\ (Forall storable tasks -> map asLoaded tasks = tasks).
Proof.
  intros Hall Hw.
  exists (json.printIndent 0 (json.Array (map taskValue tasks))).
  split; [|split; [|split]].
  - unfold saveTasks, MarshalIndent, os.WriteFile.
    now rewrite (encodeTasks_savable _ Hall), Hw.
  - unfold loadTasks, os.ReadFile, written. cbn [os.tasks_txt].
    unfold Unmarshal. rewrite (Parse_savable _ Hall). cbn [decodeTasks].
    now rewrite (decodeElements_savable lenient tasks None Hall).
  - apply Forall_map. eapply Forall_impl; [|exact Hall].
    intros t. apply asLoaded_storable.
  - intros Hst. induction Hst as [|t ts Ht _ IH]; [reflexivity|].
    cbn [map]. rewrite (asLoaded_id t Ht). f_equal. apply IH.
    now inversion Hall.
Qed.

Lemma save_load_replaces_witness :
  let tasks := [mkTask 1 invalidTitle false time.zero] in
  exists data,
    saveTasks (os.mkDisk os.Missing None) tasks = (written data, None)
    /\ loadTasks strictOnly (written data) = inl (map asLoaded tasks).
Proof.
  intros tasks.
  destruct (save_load_replaces strictOnly (os.mkDisk os.Missing None) tasks)
    as (data & Hs & Hl & _).
  - repeat constructor; vm_compute; intuition discriminate.
  - reflexivity.
  - exists data. split; [exact Hs|exact Hl].
Defined.

(** ** What the decoder yields *)

Lemma first_two p0 :
  194 <= p0 <= 223 -> utf8.first p0 = Some (2%nat, 128, 191).
Proof.
  intros H. unfold utf8.first.
  replace ((194 <=? p0) && (p0 <=? 223)) with true
    by (symmetry; apply andb_true_iff; lia).
  reflexivity.
Qed.

Lemma first_three p0 :
  224 <= p0 <= 239 ->
  utf8.first p0
  = Some (3%nat, if p0 =? 224 then 160 else 128, if p0 =? 237 then 159 else 191).
Proof.
  intros H. unfold utf8.first.
  replace ((194 <=? p0) && (p0 <=? 223)) with false
    by (symmetry; apply andb_false_iff; lia).
  destruct (Z.eqb_spec p0 224) as [->|H224]; [reflexivity|].
  destruct (Z.eqb_spec p0 237) as [->|H237]; [reflexivity|].
  destruct ((225 <=? p0) && (p0 <=? 236)) eqn:E1; [reflexivity|].
  replace ((238 <=? p0) && (p0 <=? 239)) with true; [reflexivity|].
  symmetry. apply andb_true_iff. apply andb_false_iff in E1. lia.
Qed.

Lemma first_four p0 :
  240 <= p0 <= 244 ->
  utf8.first p0
  = Some (4%nat, if p0 =? 240 then 144 else 128, if p0 =? 244 then 143 else 191).
Proof.
  intros H. unfold utf8.first.
  replace ((194 <=? p0) && (p0 <=? 223)) with false
    by (symmetry; apply andb_false_iff; lia).
  replace (p0 =? 224) with false by (symmetry; apply Z.eqb_neq; lia).
  replace ((225 <=? p0) && (p0 <=? 236)) with false
    by (symmetry; apply andb_false_iff; lia).
  replace (p0 =? 237) with false by (symmetry; apply Z.eqb_neq; lia).
  replace ((238 <=? p0) && (p0 <=? 239)) with false
    by (symmetry; apply andb_false_iff; lia).
  destruct (Z.eqb_spec p0 240) as [->|H240]; [reflexivity|].
  destruct (Z.eqb_spec p0 244) as [->|H244]; [reflexivity|].
  replace ((241 <=? p0) && (p0 <=? 243)) with true; [reflexivity|].
  symmetry. apply andb_true_iff. lia.
Qed.

Lemma between_byteOf lo hi v :
  0 <= v < 256 -> lo <= v <= hi -> utf8.between lo hi (byteOf v) = true.
Proof.
  intros Hv Hr. unfold utf8.between. rewrite byteVal_byteOf by exact Hv.
  apply andb_true_iff. lia.
Qed.

(** [DecodeRune] reads back what [EncodeRune] writes for a rune above
    ASCII. *)
Lemma DecodeRune_EncodeRune r tail :
  validRune r -> 128 <= r ->
  utf8.EncodeRune r <> []
  /\ Forall (fun c => 128 <= byteVal c) (utf8.EncodeRune r)
  /\ utf8.DecodeRune (utf8.EncodeRune r ++ tail)
     = (r, List.length (utf8.EncodeRune r))
  /\ (2 <= List.length (utf8.EncodeRune r))%nat.
Proof.
  intros [[H0 Hmax] Hsur] H128. unfold utf8.MaxRune in Hmax.
  destruct (Z.le_gt_cases r 2047) as [H2|H2].
  - (* two bytes *)
    set (x := r / 64). set (y := r mod 64).
    assert (Hr : r = x * 64 + y) by (subst x y; pose proof (Z.div_mod r 64); lia).
    assert (Hy : 0 <= y <= 63) by (subst y; pose proof (Z.mod_pos_bound r 64); lia).
    assert (Hx : 2 <= x <= 31) by lia.
    rewrite Hr, EncodeRune2 by assumption.
    split; [discriminate|]. split; [|split; [|cbn; lia]].
    + repeat constructor; rewrite byteVal_byteOf; lia.
    + cbn [app List.length]. unfold utf8.DecodeRune. cbv zeta.
      rewrite !byteVal_byteOf by lia.
      replace (192 + x <? 128) with false by (symmetry; apply Z.ltb_ge; lia).
      rewrite first_two by lia.
      rewrite between_byteOf by lia. change (negb true) with false. cbv iota.
      change (2 <=? 2)%nat with true. cbv iota.
      rewrite rune2 by lia. f_equal. lia.
  - destruct (Z.le_gt_cases r 65535) as [H3|H3].
    + (* three bytes *)
      set (x := r / 4096). set (y := r / 64 mod 64). set (z := r mod 64).
      assert (Hz : 0 <= z <= 63) by (subst z; pose proof (Z.mod_pos_bound r 64); lia).
      assert (Hy : 0 <= y <= 63)
        by (subst y; pose proof (Z.mod_pos_bound (r / 64) 64); lia).
      assert (Hq : r / 64 / 64 = x)
        by (subst x; rewrite Z.div_div by lia; reflexivity).
      assert (Hr : r = x * 4096 + y * 64 + z).
      { subst y z. pose proof (Z.div_mod r 64). pose proof (Z.div_mod (r / 64) 64).
        lia. }
      assert (Hx : 0 <= x <= 15) by lia.
      rewrite Hr, EncodeRune3 by (try assumption; lia).
      split; [discriminate|]. split; [|split; [|cbn; lia]].
      * repeat constructor; rewrite byteVal_byteOf; lia.
      * cbn [app List.length]. unfold utf8.DecodeRune. cbv zeta.
        rewrite !byteVal_byteOf by lia.
        replace (224 + x <? 128) with false by (symmetry; apply Z.ltb_ge; lia).
        rewrite first_three by lia.
        rewrite between_byteOf;
          [|lia|destruct (Z.eqb_spec (224 + x) 224), (Z.eqb_spec (224 + x) 237); lia].
        change (negb true) with false. cbv iota.
        change (3 <=? 2)%nat with false. cbv iota.
        rewrite between_byteOf by lia. change (negb true) with false. cbv iota.
        change (3 <=? 3)%nat with true. cbv iota.
        rewrite rune3 by lia. f_equal. lia.
    + (* four bytes *)
      set (x := r / 262144). set (y := r / 4096 mod 64).
      set (z := r / 64 mod 64). set (w := r mod 64).
      assert (Hw : 0 <= w <= 63) by (subst w; pose proof (Z.mod_pos_bound r 64); lia).
      assert (Hz : 0 <= z <= 63)
        by (subst z; pose proof (Z.mod_pos_bound (r / 64) 64); lia).
      assert (Hy : 0 <= y <= 63)
        by (subst y; pose proof (Z.mod_pos_bound (r / 4096) 64); lia).
      assert (Hq1 : r / 64 / 64 = r / 4096)
        by (rewrite Z.div_div by lia; reflexivity).
      assert (Hq2 : r / 4096 / 64 = x)
        by (subst x; rewrite Z.div_div by lia; reflexivity).
      assert (Hr : r = x * 262144 + y * 4096 + z * 64 + w).
      { subst y z w. pose proof (Z.div_mod r 64). pose proof (Z.div_mod (r / 64) 64).
        pose proof (Z.div_mod (r / 4096) 64). lia. }
      assert (Hx : 0 <= x <= 4) by lia.
      rewrite Hr, EncodeRune4 by (try assumption; lia).
      split; [discriminate|]. split; [|split; [|cbn; lia]].
      * repeat constructor; rewrite byteVal_byteOf; lia.
      * cbn [app List.length]. unfold utf8.DecodeRune. cbv zeta.
        rewrite !byteVal_byteOf by lia.
        replace (240 + x <? 128) with false by (symmetry; apply Z.ltb_ge; lia).
        rewrite first_four by lia.
        rewrite between_byteOf;
          [|lia|destruct (Z.eqb_spec (240 + x) 240), (Z.eqb_spec (240 + x) 244); lia].
        change (negb true) with false. cbv iota.
        change (4 <=? 2)%nat with false. cbv iota.
        rewrite between_byteOf by lia. change (negb true) with false. cbv iota.
        change (4 <=? 3)%nat with false. cbv iota.
        rewrite between_byteOf by lia. change (negb true) with false. cbv iota.
        rewrite rune4 by lia. f_equal. lia.
Qed.

(** [EncodeRune] writes [RuneError] for what is not a rune. *)
Lemma EncodeRune_invalid r :
  ~ validRune r -> utf8.EncodeRune r = utf8.EncodeRune utf8.RuneError.
Proof.
  intros Hinv. unfold validRune, utf8.MaxRune in Hinv.
  unfold utf8.EncodeRune at 1. unfold utf8.MaxRune.
  replace ((0 <=? r) && (r <=? 127)) with false
    by (symmetry; apply andb_false_iff; lia).
  replace ((0 <=? r) && (r <=? 2047)) with false
    by (symmetry; apply andb_false_iff; lia).
  replace ((r <? 0) || (1114111 <? r) || (55296 <=? r) && (r <=? 57343)) with true.
  - reflexivity.
  - symmetry. rewrite !orb_true_iff, andb_true_iff. lia.
Qed.

Lemma validRune_dec r : validRune r \/ ~ validRune r.
Proof. unfold validRune, utf8.MaxRune. lia. Qed.

Lemma EncodeRune_wellFormed r t :
  wellFormed t -> wellFormed (utf8.EncodeRune r ++ t).
Proof.
  intros Ht. destruct (validRune_dec r) as [Hv|Hinv].
  - destruct (Z.lt_ge_cases r 128) as [Hlow|Hhigh].
    + destruct Hv as [[H0 _] _]. unfold utf8.EncodeRune.
      replace ((0 <=? r) && (r <=? 127)) with true
        by (symmetry; apply andb_true_iff; lia).
      cbn [app]. apply wellFormed_ascii; [|exact Ht].
      rewrite byteVal_byteOf; lia.
    + destruct (DecodeRune_EncodeRune r t Hv Hhigh) as (Hne & Hhi & Hdec & Hlen).
      apply (wellFormed_chunk _ r); auto.
      intros E. injection E as _ E. lia.
  - rewrite (EncodeRune_invalid r Hinv). now apply wellFormed_replacement.
Qed.

Lemma wellFormed_low c t :
  byteVal c < 128 -> wellFormed t -> wellFormed ([c] ++ t).
Proof. apply wellFormed_ascii. Qed.

Lemma escaped_low e :
  ((e =? dquote) || (e =? backslash) || (e =? "/") || (e =? "'"))%char = true ->
  byteVal e < 128.
Proof.
  rewrite !orb_true_iff, !Ascii.eqb_eq.
  intros [[[->| ->]| ->]| ->]; reflexivity.
Qed.

(** Whatever [unquote] yields is valid UTF-8. *)
Lemma unquoteLoop_wellFormed fuel : forall s out,
  json.unquoteLoop fuel s = Some out -> wellFormed out.
Proof.
  induction fuel as [|fuel IH]; intros s out H.
  - destruct s; [|discriminate]. injection H as <-. apply wellFormed_nil.
  - destruct s as [|c rest]; [injection H as <-; apply wellFormed_nil|].
    cbn [json.unquoteLoop] in H.
    assert (Hcont : forall pre s',
              (forall t, wellFormed t -> wellFormed (pre ++ t)) ->
              match json.unquoteLoop fuel s' with
              | Some t => Some (pre ++ t)
              | None => None
              end = Some out -> wellFormed out).
    { intros pre s' Hpre E.
      destruct (json.unquoteLoop fuel s') as [t|] eqn:Et; [|discriminate].
      injection E as <-. apply Hpre. exact (IH _ _ Et). }
    destruct (c =? backslash)%char.
    + destruct rest as [|e rest1]; [discriminate|]. cbv zeta in H.
      destruct ((e =? dquote) || (e =? backslash) || (e =? "/") || (e =? "'"))%char
        eqn:Heq.
      { apply (Hcont _ _ (fun t => wellFormed_low e t (escaped_low e Heq)) H). }
      repeat match type of H with
             | (if ?b then _ else _) = _ => destruct b eqn:?
             end; try discriminate;
        (eapply Hcont; [|exact H]); intros t Ht;
        try (apply EncodeRune_wellFormed; exact Ht);
        (apply wellFormed_low; [reflexivity|exact Ht]).
    + destruct ((c =? dquote)%char || (byteVal c <? 32)); [discriminate|].
      destruct (Z.ltb_spec (byteVal c) 128) as [Hlow|Hhigh].
      * apply (Hcont [c] rest (fun t => wellFormed_low c t Hlow) H).
      * destruct (utf8.DecodeRune (c :: rest)) as [rr size].
        apply (Hcont _ _ (fun t => EncodeRune_wellFormed rr t) H).
Qed.

Lemma unquote_Valid raw out :
  json.unquote raw = Some out -> utf8.Valid out = true.
Proof.
  unfold json.unquote, utf8.Valid. intros H.
  apply (unquoteLoop_wellFormed _ _ _ H). apply le_n.
Qed.

Lemma parseUint_range s lo hi x :
  time.parseUint s lo hi = Some x -> lo <= x <= hi.
Proof.
  unfold time.parseUint. destruct (time.parseUintLoop s 0) as [v|]; [|discriminate].
  destruct ((v <? lo) || (hi <? v)) eqn:E; [discriminate|].
  intros H. injection H as <-. apply orb_false_iff in E. lia.
Qed.

Lemma parseUintLoop_bound ds : forall a x,
  time.parseUintLoop ds a = Some x -> 0 <= a ->
  a * 10 ^ Z.of_nat (List.length ds) <= x
  < (a + 1) * 10 ^ Z.of_nat (List.length ds).
Proof.
  induction ds as [|c ds IH]; intros a x H Ha.
  - injection H as <-. cbn. lia.
  - cbn [time.parseUintLoop] in H. destruct (isDigit c) eqn:Hc; [|discriminate].
    pose proof (digitVal_range c Hc) as Hd.
    specialize (IH _ _ H ltac:(lia)).
    cbn [List.length]. rewrite Nat2Z.inj_succ, Z.pow_succ_r by lia.
    pose proof (Z.pow_pos_nonneg 10 (Z.of_nat (List.length ds)) ltac:(lia) ltac:(lia)).
    nia.
Qed.

Lemma parseNanoseconds_range ds : 0 <= time.parseNanoseconds ds < 1000000000.
Proof.
  unfold time.parseNanoseconds.
  set (ds' := firstn 9 ds).
  assert (Hlen : (List.length ds' <= 9)%nat) by (subst ds'; apply firstn_le_length).
  destruct (time.parseUintLoop ds' 0) as [x|] eqn:E; [|lia].
  pose proof (parseUintLoop_bound ds' 0 x E ltac:(lia)) as Hx.
  set (k := List.length ds') in *.
  assert (Hp : 10 ^ Z.of_nat k * 10 ^ Z.of_nat (9 - k) = 1000000000).
  { rewrite <- Z.pow_add_r by lia.
    replace (Z.of_nat k + Z.of_nat (9 - k)) with 9 by lia. reflexivity. }
  pose proof (Z.pow_pos_nonneg 10 (Z.of_nat k) ltac:(lia) ltac:(lia)).
  pose proof (Z.pow_pos_nonneg 10 (Z.of_nat (9 - k)) ltac:(lia) ltac:(lia)).
  nia.
Qed.

Lemma parseFraction_range s : 0 <= fst (time.parseFraction s) < 1000000000.
Proof.
  unfold time.parseFraction.
  destruct s as [|dot [|d r]]; cbn [fst]; try lia.
  destruct ((dot =? ".")%char && isDigit d); cbn [fst]; [|lia].
  destruct (time.spanDigits _) as [ds r']. cbn [fst].
  apply parseNanoseconds_range.
Qed.

Lemma parseZone_range s off :
  time.parseZone s = Some off -> off mod 60 = 0 /\ -86400 < off < 86400.
Proof.
  unfold time.parseZone.
  destruct s as [|c0 [|c1 [|c2 [|c3 [|c4 [|c5 [|c6 r]]]]]]]; try discriminate.
  - destruct (c0 =? "Z")%char; [|discriminate]. intros H. injection H as <-.
    split; [reflexivity|lia].
  - destruct (time.parseUint _ 0 23) as [hr|] eqn:Eh; [|discriminate].
    destruct (time.parseUint _ 0 59) as [mm|] eqn:Em; [|discriminate].
    apply parseUint_range in Eh, Em.
    destruct (negb _); [discriminate|].
    intros H. injection H as <-.
    destruct (c0 =? "-")%char.
    + split; [|lia]. replace (- ((hr * 60 + mm) * 60)) with ((- (hr * 60 + mm)) * 60) by lia.
      apply Z.mod_mul. lia.
    + split; [|lia]. apply Z.mod_mul. lia.
Qed.

(** What strict RFC 3339 parsing accepts can be written back. *)
Lemma parseRFC3339_marshalable s t :
  time.parseRFC3339 s = Some t -> marshalable t.
Proof.
  unfold time.parseRFC3339.
  destruct (List.length s <? 19)%nat; [discriminate|].
  destruct (time.parseUint _ 0 9999) as [year|] eqn:Ey; [|discriminate].
  destruct (time.parseUint _ 1 12) as [month|] eqn:Emo; [|discriminate].
  destruct (time.parseUint _ 1 (time.daysIn month year)) as [day|] eqn:Ed;
    [|discriminate].
  destruct (time.parseUint _ 0 23) as [hour|] eqn:Eh; [|discriminate].
  destruct (time.parseUint (time.slice s 14 16) 0 59) as [min|] eqn:Emi; [|discriminate].
  destruct (time.parseUint (time.slice s 17 19) 0 59) as [sc|] eqn:Es; [|discriminate].
  apply parseUint_range in Ey, Emo, Ed, Eh, Emi, Es.
  destruct (negb _); [discriminate|].
  pose proof (parseFraction_range (skipn 19 s)) as Hns.
  destruct (time.parseFraction (skipn 19 s)) as [ns s']. cbn [fst] in Hns.
  destruct (time.parseZone s') as [off|] eqn:Ez; [|discriminate].
  apply parseZone_range in Ez. intros H. injection H as <-.
  destruct (fields_Date year month day hour min sc ns off)
    as (_ & _ & HY & Hn & Ho); try lia.
  unfold marshalable. rewrite HY, Hn, Ho. repeat split; lia.
Qed.

Lemma ParseInt_int64 lit n : strconv.ParseInt lit = Some n -> int64 n.
Proof.
  unfold strconv.ParseInt. destruct lit as [|c rest]; [discriminate|].
  cbv zeta.
  destruct (if ((c =? "-") || (c =? "+"))%char then rest else c :: rest);
    [discriminate|].
  destruct (strconv.parseDigits _ 0) as [u|]; [|discriminate].
  destruct (int64b _) eqn:E; [|discriminate].
  intros H. injection H as <-. now apply int64b_spec.
Qed.

Lemma zeroTask_wellLoaded lenient : wellLoaded lenient zeroTask.
Proof.
  split; [unfold int64, MinInt64, MaxInt64; cbn; lia|].
  split; [reflexivity|left; apply zero_marshalable].
Qed.

Section Loading.

Variable lenient : list ascii -> option time.Time.

Lemma decodeInt_int64 v cur saved n saved' :
  int64 cur -> decodeInt v cur saved = inl (n, saved') -> int64 n.
Proof.
  intros Hc. unfold decodeInt, ret, saveError.
  destruct v; try (intros H; injection H as <- _; exact Hc).
  destruct (strconv.ParseInt lit) as [m|] eqn:E.
  - intros H. injection H as <- _. exact (ParseInt_int64 _ _ E).
  - intros H. injection H as <- _. exact Hc.
Qed.

Lemma decodeString_valid v cur saved s saved' :
  utf8.ValidString cur = true ->
  decodeString v cur saved = inl (s, saved') -> utf8.ValidString s = true.
Proof.
  intros Hc. unfold decodeString, ret, saveError, abort.
  destruct v; try (intros H; injection H as <- _; exact Hc).
  destruct (json.unquote raw) as [out|] eqn:E; [|discriminate].
  intros H. injection H as <- _.
  unfold utf8.ValidString, bytes, gostring.
  rewrite list_ascii_of_string_of_list_ascii. exact (unquote_Valid _ _ E).
Qed.

(** A deadline is read by the strict parser, and then it is
    marshalable, or by the fallback parser. *)
Lemma decodeTime_source v cur saved t saved' :
  (marshalable cur
   \/ exists raw, time.parseRFC3339 raw = None /\ lenient raw = Some cur) ->
  decodeTime lenient v cur saved = inl (t, saved') ->
  marshalable t
  \/ exists raw, time.parseRFC3339 raw = None /\ lenient raw = Some t.
Proof.
  intros Hc. unfold decodeTime, ret, abort, parseStrictRFC3339.
  destruct v; try discriminate; try (intros H; injection H as <- _; exact Hc).
  destruct (time.parseRFC3339 raw) as [t0|] eqn:E.
  - intros H. injection H as <- _. left. exact (parseRFC3339_marshalable _ _ E).
  - destruct (lenient raw) as [t0|] eqn:El; [|discriminate].
    intros H. injection H as <- _. right. exists raw. split; assumption.
Qed.

Lemma decodeMembers_wellLoaded ms : forall cur saved t saved',
  wellLoaded lenient cur ->
  decodeMembers lenient ms cur saved = inl (t, saved') -> wellLoaded lenient t.
Proof.
  induction ms as [|[rawkey v] ms IH]; intros cur saved t saved' Hc.
  - intros H. injection H as <- _. exact Hc.
  - cbn [decodeMembers]. destruct (json.unquote rawkey) as [key|]; [|discriminate].
    destruct Hc as (Hid & Hti & Hdl).
    unfold bind at 1.
    destruct (lookupField key) as [[]|]; try (unfold bind at 1); unfold ret.
    + destruct (decodeInt v (ID cur) saved) as [[n s1]|e] eqn:E; [|discriminate].
      apply IH. split; [exact (decodeInt_int64 _ _ _ _ _ Hid E)|].
      split; [exact Hti|exact Hdl].
    + destruct (decodeString v (Title cur) saved) as [[s s1]|e] eqn:E; [|discriminate].
      apply IH. split; [exact Hid|].
      split; [exact (decodeString_valid _ _ _ _ _ Hti E)|exact Hdl].
    + destruct (decodeBool v (Done cur) saved) as [[b s1]|e] eqn:E; [|discriminate].
      apply IH. split; [exact Hid|split; [exact Hti|exact Hdl]].
    + destruct (decodeTime lenient v (Deadline cur) saved) as [[t0 s1]|e] eqn:E;
        [|discriminate].
      apply IH. split; [exact Hid|]. split; [exact Hti|].
      exact (decodeTime_source _ _ _ _ _ Hdl E).
    + apply IH. split; [exact Hid|split; [exact Hti|exact Hdl]].
Qed.

Lemma decodeTask_wellLoaded v saved t saved' :
  decodeTask lenient v saved = inl (t, saved') -> wellLoaded lenient t.
Proof.
  unfold decodeTask, ret, saveError.
  destruct v;
    try (intros H; injection H as <- _; exact (zeroTask_wellLoaded lenient)).
  apply decodeMembers_wellLoaded. exact (zeroTask_wellLoaded lenient).
Qed.

Lemma decodeElements_wellLoaded vs : forall saved ts saved',
  decodeElements lenient vs saved = inl (ts, saved') ->
  Forall (wellLoaded lenient) ts.
Proof.
  induction vs as [|v vs IH]; intros saved ts saved'.
  - intros H. injection H as <- _. constructor.
  - cbn [decodeElements]. unfold bind at 1.
    destruct (decodeTask lenient v saved) as [[t s1]|e] eqn:Et; [|discriminate].
    unfold bind at 1.
    destruct (decodeElements lenient vs s1) as [[ts' s2]|e] eqn:Es; [|discriminate].
    unfold ret. intros H. injection H as <- _.
    constructor; [exact (decodeTask_wellLoaded _ _ _ _ Et)|exact (IH _ _ _ Es)].
Qed.

Lemma Unmarshal_wellLoaded data tasks :
  Unmarshal lenient data = inl tasks -> Forall (wellLoaded lenient) tasks.
Proof.
  unfold Unmarshal. destruct (json.Parse data) as [v|]; [|discriminate].
  destruct (decodeTasks lenient v None) as [[ts [e|]]|e] eqn:E; try discriminate.
  intros H. injection H as <-.
  unfold decodeTasks, ret, saveError in E.
  destruct v; try discriminate; try (inversion E; subst; constructor; fail).
  exact (decodeElements_wellLoaded _ _ _ _ E).
Qed.

Lemma loadTasks_wellLoaded d tasks :
  loadTasks lenient d = inl tasks -> Forall (wellLoaded lenient) tasks.
Proof.
  unfold loadTasks. destruct (os.ReadFile d) as [file|err].
  - destruct (Unmarshal lenient file) as [ts|e] eqn:E; [|discriminate].
    intros H. injection H as <-. exact (Unmarshal_wellLoaded _ _ E).
  - destruct (os.IsNotExist err); [|discriminate].
    intros H. injection H as <-. constructor.
Qed.

Lemma wellLoaded_storable tasks :
  Forall (wellLoaded lenient) tasks ->
  Forall (fun t => marshalable (Deadline t)) tasks ->
  Forall storable tasks.
Proof.
  intros Hw. induction Hw as [|t ts (Hid & Hti & _) _ IH]; intros Hm;
    [constructor|].
  inversion Hm as [|? ? Hmt Hms]; subst.
  constructor; [split; [exact Hid|split; [exact Hti|exact Hmt]]|exact (IH Hms)].
Qed.

(** X21.  Whatever the fallback parser does, every task that
    [loadTasks] returns has an identifier that is an [int] and a title
    that is valid UTF-8, and its deadline is marshalable unless the
    fallback parser gave it for a text that is not strict RFC 3339.
    When the deadlines of a loaded collection are marshalable the
    collection is storable, and it is saved without loss: loading the
    file that [saveTasks] writes gives it back. *)
Theorem loaded_tasks_wellLoaded (d : os.Disk) (tasks : list Task) :
  loadTasks lenient d = inl tasks ->
  Forall (wellLoaded lenient) tasks
  /\ (Forall (fun t => marshalable (Deadline t)) tasks ->
      Forall storable tasks
      /\ (os.writeFails d = None ->
          exists data,
            saveTasks d tasks = (written data, None)
            /\ loadTasks lenient (written data) = inl tasks)).
Proof.
  intros Hload. pose proof (loadTasks_wellLoaded d tasks Hload) as Hwl.
  split; [exact Hwl|]. intros Hm.
  pose proof (wellLoaded_storable tasks Hwl Hm) as Hall.
  split; [exact Hall|]. intros Hw.
  destruct (saveTasks_storable d tasks Hall Hw) as (data & Hs & Hl).
  exists data. split; [exact Hs|apply Hl].
Qed.

End Loading.

(** With a fallback parser that accepts a zone of [+24:00], a store
    loads whose collection [saveTasks] cannot write; a store that
    [add] wrote loads as a storable collection. *)
Lemma loaded_tasks_wellLoaded_witness :
  let late := mkTask 0 "" false (time.Date 2024 1 1 0 0 0 0 86400) in
  let d := disk (main dayZoneOnly (os.mkDisk os.Missing None)
                   ["todo"; "add"; "a"]%string) in
  (loadTasks dayZoneOnly dayZoneDisk = inl [late]
   /\ Forall (wellLoaded dayZoneOnly) [late]
   /\ saveTasks dayZoneDisk [late] = (dayZoneDisk, Some MarshalerError))
  /\ (loadTasks dayZoneOnly d = inl [mkTask 1 "a" false time.zero]
      /\ Forall storable [mkTask 1 "a" false time.zero]).
Proof.
  intros late d. split.
  - split; [reflexivity|]. split; [|reflexivity].
    exact (proj1 (loaded_tasks_wellLoaded dayZoneOnly dayZoneDisk [late]
                    eq_refl)).
  - split; [reflexivity|].
    apply (proj2 (loaded_tasks_wellLoaded dayZoneOnly d
                    [mkTask 1 "a" false time.zero] eq_refl)).
    repeat constructor; vm_compute; intuition discriminate.
Defined.
